(** * RS-agent-mcp: the per-turn pipeline and its stores, embedded in Rocq

    This development embeds the parts of the RS-agent-mcp service that its
    specification makes statements about:

    - [ChatSession]  : app/services/session/chat_service.py
    - [Progress]     : app/api/progress.py
    - [Classifier]   : app/agent/core/task_classifier.py
    - [ChatSessionMore], [SessionCleanup] : the titles, the listings and the
                       cleanup of app/services/session/chat_service.py
    - [Billing]      : app/services/billing/billing_tracker.py
    - [Credit]       : app/services/billing/credit_service.py
    - [Agent]        : app/agent/core/agent_manager.py, langchain_agent_impl.py,
                       agent_orchestrator.py, response_generator.py
    - [AgentFactory] : app/agent/core/agent_factory.py
    - [Auth]         : app/services/auth/auth_service.py
    - [ChatRouter]   : app/api/routers/chat_router.py (POST /agent/chat)

    Python values are modelled as follows.  A [str] is the list of its code
    points ([pystr]); a [dict] used as a map is a [gmap]; a [dict] used as a
    record is a [Record]; [float] credit amounts are exact rationals ([Qc]);
    [int] is [Z].  Code that talks to the outside world (the LLM, the RSHub
    HTTP API, the file system, the clock) takes the outcome of each call as an
    input, and the functions thread the mutable process-wide state
    explicitly.  Logging is dropped everywhere.

    The file has three parts: the embedding of the code; the vocabulary of
    the statements ([Scenario] and the predicates that follow it); and the
    theorems, module by module. *)

From Stdlib Require Import QArith Qcanon Ascii String.
From stdpp Require Import base gmap sets list strings numbers.

Close Scope Qc_scope.
Close Scope Q_scope.
Set Default Proof Using "Type".
#[global] Set Warnings "-clear-no-such-hyp".

(** ** Python strings *)

Module Py.

(** A Python [str]: the sequence of its Unicode code points. *)
Definition pystr := list N.

(** ASCII literal to code points. *)
Definition cps (s : string) : pystr :=
  (λ a, N_of_ascii a) <$> list_ascii_of_string s.

(** [s[-k:]] for [k >= 0]; remember that [s[-0:]] is all of [s]. *)
Definition slice_last {A} (k : nat) (l : list A) : list A :=
  if decide (k = 0) then l else drop (length l - k) l.

(** [needle in haystack] on strings. *)
Fixpoint starts_with (p s : pystr) : bool :=
  match p, s with
  | [], _ => true
  | _ :: _, [] => false
  | a :: p', b :: s' => if decide (a = b) then starts_with p' s' else false
  end.

Fixpoint contains (p s : pystr) : bool :=
  starts_with p s ||
  match s with
  | [] => false
  | _ :: s' => contains p s'
  end.

(** [any(k in s for k in ks)] *)
Definition any_in (ks : list pystr) (s : pystr) : bool :=
  existsb (λ k, contains k s) ks.

(** The character tables of the Python runtime that the code relies on
    through [str.lower], [str.strip], [re]'s [\s] and [\d], and [int],
    and the interpreter's limit on the number of digits that [int] converts
    ([sys.get_int_max_str_digits()]: 4300 unless the deployment sets
    another value, which is 0 for no limit or at least 640).  They are data
    of the interpreter, not of the repository, so the model takes them as a
    parameter; [ascii_tables] below is the restriction of the tables to the
    ASCII range with the default limit, used to evaluate examples. *)
Class Unicode := {
  py_lower : pystr → pystr;        (* str.lower *)
  py_isspace : N → bool;           (* str.isspace, \s *)
  py_digit : N → option Z;         (* decimal value of a \d character *)
  py_int_max_str_digits : nat;     (* sys.get_int_max_str_digits() *)
}.

Definition ascii_lower_char (c : N) : N :=
  if decide (65 ≤ c ∧ c ≤ 90)%N then (c + 32)%N else c.

Definition ascii_tables : Unicode := {|
  py_lower := fmap ascii_lower_char;
  py_isspace := λ c, bool_decide (c ∈ [9; 10; 11; 12; 13; 28; 29; 30; 31; 32]%N);
  py_digit := λ c, if decide (48 ≤ c ∧ c ≤ 57)%N then Some (Z.of_N c - 48)%Z else None;
  py_int_max_str_digits := 4300;
|}.

End Py.
Import Py.

(** ** app/core/config.py *)

Module Settings.

Inductive deployment_mode := production | local.

Global Instance deployment_mode_eq_dec : EqDecision deployment_mode.
Proof. solve_decision. Defined.

Record settings := {
  DEPLOYMENT_MODE : deployment_mode;
  RSHUB_TOKEN : pystr;
  ENABLE_LOCAL_SESSION_CACHE : bool;
  LLM_COST_FACTOR : Qc;
  RSHUB_TASK_COST_FACTOR : Qc;
}.

End Settings.
Import Settings.

(** ** app/services/session/chat_service.py *)

Module ChatSession.

Inductive role := user | assistant.

Record message := Message {
  msg_role : role;
  content : pystr;
  timestamp : nat;
}.

Record session_data := SessionData {
  session_id : pystr;
  title : pystr;
  created_at : nat;
  updated_at : nat;
  messages : list message;
}.

(** [self.max_history_messages = 50] in [__init__]. *)
Definition max_history_messages : nat := 50.

(** [_cleanup_old_sessions] evicts files from the local cache directory by
    age and by count; which files go depends on directory order and on the
    clock.  Here it is any function that only deletes entries. *)
Record cleanup_policy := {
  cleanup_old_sessions :> nat → gmap pystr session_data → gmap pystr session_data;
  cleanup_only_deletes : ∀ now m, cleanup_old_sessions now m ⊆ m;
}.

Record ChatSessionService := {
  settings_ : settings;
  enable_local_cache : bool;
  cleanup : cleanup_policy;
}.

(** The two backends.  The remote store is keyed by [(token, chatid)]. *)
Inductive io_event :=
  | SaveLocal (sid : pystr) (d : session_data) (ok : bool)
  | MirrorLocal (sid : pystr) (d : session_data) (ok : bool)
  | SaveRshub (token sid : pystr) (d : session_data) (ok : bool).

Record stores := Stores {
  local_cache : gmap pystr session_data;
  rshub : gmap (pystr * pystr) session_data;
  io_log : list io_event;               (* oldest first *)
}.

(** Whether the I/O of each kind goes through during the operation at hand
    (disk errors, HTTP failures, timeouts). *)
Record io_outcome := {
  local_write_ok : bool;
  local_read_ok : bool;
  rshub_write_ok : bool;
  rshub_read_ok : bool;
}.

Section Service.
Context (svc : ChatSessionService) (io : io_outcome) (now : nat).

(** [_save_session_to_local]; [mirror] only selects the log entry (the
    call sites in [load_session] copy what they read, the others persist
    a write). *)
Definition _save_session_to_local (mirror : bool) (sid : pystr)
    (d : session_data) (st : stores) : bool * stores :=
  if negb (enable_local_cache svc) then (false, st)
  else
    let ev ok := if mirror then MirrorLocal sid d ok else SaveLocal sid d ok in
    if local_write_ok io then
      (true, Stores (cleanup svc now (<[sid := d]> (local_cache st)))
                    (rshub st) (io_log st ++ [ev true]))
    else (false, Stores (local_cache st) (rshub st) (io_log st ++ [ev false])).

Definition _load_session_from_local (sid : pystr) (st : stores)
    : option session_data :=
  if negb (enable_local_cache svc) then None
  else if local_read_ok io then local_cache st !! sid else None.

Definition _save_session_to_rshub (token sid : pystr) (d : session_data)
    (st : stores) : bool * stores :=
  if rshub_write_ok io then
    (true, Stores (local_cache st) (<[(token, sid) := d]> (rshub st))
                  (io_log st ++ [SaveRshub token sid d true]))
  else
    (false, Stores (local_cache st) (rshub st)
                   (io_log st ++ [SaveRshub token sid d false])).

Definition _load_session_from_rshub (token sid : pystr) (st : stores)
    : option session_data :=
  if rshub_read_ok io then rshub st !! (token, sid) else None.

(** [load_session] *)
Definition load_session (token sid : pystr) (st : stores)
    : option session_data * stores :=
  match DEPLOYMENT_MODE (settings_ svc) with
  | production =>
      match _load_session_from_rshub token sid st with
      | Some rshub_data =>
          let st := if enable_local_cache svc
                    then (_save_session_to_local true sid rshub_data st).2
                    else st in
          (Some rshub_data, st)
      | None =>
          match (if enable_local_cache svc
                 then _load_session_from_local sid st else None) with
          | Some local_data => (Some local_data, st)
          | None => (None, st)
          end
      end
  | local =>
      match (if enable_local_cache svc
             then _load_session_from_local sid st else None) with
      | Some local_data => (Some local_data, st)
      | None =>
          match _load_session_from_rshub token sid st with
          | Some rshub_data =>
              let st := if enable_local_cache svc
                        then (_save_session_to_local true sid rshub_data st).2
                        else st in
              (Some rshub_data, st)
          | None => (None, st)
          end
      end
  end.

(** The dictionaries the two operations return. *)
Inductive error_message :=
  | save_failed        (* "保存会话失败" *)
  | update_failed.     (* "更新会话失败" *)

Record create_result := {
  cr_success : bool;
  cr_session_id : pystr;
  cr_title : pystr;
  cr_local_cache : option bool;
  cr_rshub_sync : option bool;
  cr_error : option error_message;
}.

Record update_result := {
  ur_success : bool;
  ur_session_id : option pystr;
  ur_local_cache : option bool;
  ur_rshub_sync : option bool;
  ur_error : option error_message;
}.

(** [create_session].  [new_id] is the millisecond timestamp the code
    turns into the session id and [new_title] is what
    [_generate_session_title] returned (one LLM call, or its fallback). *)
Definition create_session (new_id new_title : pystr)
    (token user_prompt ai_response : pystr) (st : stores)
    : create_result * stores :=
  let session_data :=
    SessionData new_id new_title now now
      [Message user user_prompt now; Message assistant ai_response now] in
  let '(local_success, st) := _save_session_to_local false new_id session_data st in
  let '(rshub_success, st) := _save_session_to_rshub token new_id session_data st in
  if local_success then
    ({| cr_success := true; cr_session_id := new_id; cr_title := new_title;
        cr_local_cache := Some true; cr_rshub_sync := Some rshub_success;
        cr_error := None |}, st)
  else
    ({| cr_success := false; cr_session_id := new_id; cr_title := new_title;
        cr_local_cache := None; cr_rshub_sync := None;
        cr_error := Some save_failed |}, st).

(** Lines 139-145: the structure built when the session is not found. *)
Definition fresh_session (sid user_prompt : pystr) : session_data :=
  SessionData sid
    (if decide (50 < length user_prompt) then take 50 user_prompt else user_prompt)
    now now [].

(** Lines 147-158: the two appends. *)
Definition append_turn (msgs : list message) (user_prompt ai_response : pystr)
    : list message :=
  (msgs ++ [Message user user_prompt now]) ++ [Message assistant ai_response now].

(** Lines 160-166: the cap. *)
Definition cap_messages (msgs : list message) : list message :=
  if decide (max_history_messages < length msgs) then
    take 2 msgs ++ slice_last (max_history_messages - 2) msgs
  else msgs.

(** [update_session] *)
Definition update_session (token sid user_prompt ai_response : pystr)
    (st : stores) : update_result * stores :=
  let '(loaded, st) := load_session token sid st in
  let session_data :=
    match loaded with
    | Some d => d
    | None => fresh_session sid user_prompt
    end in
  let msgs := cap_messages (append_turn (messages session_data) user_prompt ai_response) in
  let session_data :=
    SessionData (session_id session_data) (title session_data)
                (created_at session_data) now msgs in
  let failed := {| ur_success := false; ur_session_id := None;
                   ur_local_cache := None; ur_rshub_sync := None;
                   ur_error := Some update_failed |} in
  match DEPLOYMENT_MODE (settings_ svc) with
  | production =>
      let '(rshub_success, st) := _save_session_to_rshub token sid session_data st in
      if rshub_success then
        let st := if enable_local_cache svc
                  then (_save_session_to_local false sid session_data st).2
                  else st in
        ({| ur_success := true; ur_session_id := Some sid;
            ur_local_cache := Some (enable_local_cache svc);
            ur_rshub_sync := Some true; ur_error := None |}, st)
      else if enable_local_cache svc then
        let '(local_success, st) := _save_session_to_local false sid session_data st in
        if local_success then
          ({| ur_success := true; ur_session_id := Some sid;
              ur_local_cache := Some true; ur_rshub_sync := Some false;
              ur_error := None |}, st)
        else (failed, st)
      else (failed, st)
  | local =>
      let '(local_success, st) :=
        if enable_local_cache svc
        then _save_session_to_local false sid session_data st
        else (false, st) in
      let '(rshub_success, st) := _save_session_to_rshub token sid session_data st in
      if local_success || rshub_success then
        ({| ur_success := true; ur_session_id := Some sid;
            ur_local_cache := Some local_success;
            ur_rshub_sync := Some rshub_success; ur_error := None |}, st)
      else (failed, st)
  end.

End Service.

(** The session payload of the writes an operation issued (mirror copies
    made by [load_session] are not writes of the operation). *)
Definition written (ev : io_event) : option session_data :=
  match ev with
  | SaveLocal _ d _ | SaveRshub _ _ d _ => Some d
  | MirrorLocal _ _ _ => None
  end.

Definition writes_of (log : list io_event) : list session_data :=
  omap written log.

Definition no_cleanup : cleanup_policy :=
  {| cleanup_old_sessions := λ _ m, m;
     cleanup_only_deletes := λ _ m, reflexivity m |}.

End ChatSession.

(** ** app/api/progress.py *)

Module Progress.

(** One progress message (the dict built in [ProgressReporter.report]). *)
Record progress_data := ProgressData {
  pd_session_id : pystr;
  pd_message : pystr;
  pd_stage : pystr;
  pd_timestamp : nat;
  pd_metadata : list (pystr * pystr);
}.

(** The three module-level dictionaries.  [progress_storage] and
    [active_connections] are [defaultdict]s: reading a missing key yields
    the empty list (set).  Reading does not insert the key here; an absent
    key and a key bound to the empty value are told apart only by the
    [in] test of the stream generator, which then iterates over nothing. *)
Record state := State {
  progress_storage : gmap pystr (list progress_data);
  active_connections : gmap pystr (gset pystr);
  abort_flags : gmap pystr bool;
}.

Definition initial : state := State ∅ ∅ ∅.

Definition buffer (st : state) (sid : pystr) : list progress_data :=
  default [] (progress_storage st !! sid).

Definition connections (st : state) (sid : pystr) : gset pystr :=
  default ∅ (active_connections st !! sid).

(** [self.max_messages_per_session = 100] *)
Definition max_messages_per_session : nat := 100.

(** [ProgressReporter.report] *)
Definition report (sid message stage : pystr) (metadata : list (pystr * pystr))
    (now : nat) (st : state) : state :=
  let progress_data := ProgressData sid message stage now metadata in
  let buf := buffer st sid ++ [progress_data] in
  let buf := if decide (max_messages_per_session < length buf)
             then slice_last max_messages_per_session buf else buf in
  State (<[sid := buf]> (progress_storage st)) (active_connections st) (abort_flags st).

(** [report_progress]: the same, plus a fire-and-forget WebSocket push that
    touches none of the three dictionaries. *)
Definition report_progress := report.

(** [abort_session], [is_session_aborted], [clear_abort_flag] *)
Definition abort_session (sid : pystr) (now : nat) (st : state) : state :=
  let st := State (progress_storage st) (active_connections st)
                  (<[sid := true]> (abort_flags st)) in
  (* "用户请求中止任务" *)
  report_progress sid [29992; 25143; 35831; 27714; 20013; 27490; 20219; 21153]%N
    (cps "error") [] now st.

Definition is_session_aborted (sid : pystr) (st : state) : bool :=
  default false (abort_flags st !! sid).

Definition clear_abort_flag (sid : pystr) (st : state) : state :=
  State (progress_storage st) (active_connections st) (delete sid (abort_flags st)).

(** [clear_progress] (DELETE /progress/clear/{session_id}) *)
Definition clear_progress (sid : pystr) (st : state) : state :=
  State (delete sid (progress_storage st))
        (if decide (is_Some (active_connections st !! sid))
         then <[sid := ∅]> (active_connections st) else active_connections st)
        (abort_flags st).

(** *** [progress_stream_generator]

    An async generator is a coroutine that stops at each [yield] and each
    [await]; between two stops it runs without interruption, and while it
    is stopped other tasks (the publisher, the HTTP endpoints) run.  The
    generator is therefore a state machine: a [gen_state] says where it is
    stopped and holds its local variables, and [resume] runs it to its next
    stop. *)
Inductive sse :=
  | SseData (d : progress_data)      (* "data: {json}\n\n" *)
  | SseHeartbeat.                    (* ": heartbeat\n\n" *)

Inductive gen_state :=
  | GStart                                        (* not started *)
  | GConnected                                    (* at [yield] of the initial message *)
  | GHistory (rest : list progress_data)          (* at [yield] in the history loop *)
  | GNew (rest : list progress_data) (current_message_count : nat)
                                                  (* at [yield] in the new-messages loop *)
  | GSleep (last_message_count : nat)             (* at [await asyncio.sleep(1)] *)
  | GHeartbeat (last_message_count : nat)         (* at [yield] of the heartbeat *)
  | GClosed.                                      (* returned *)

Section Generator.
Context (session_id connection_id : pystr) (now : nat).

(** "进度监听已启动" *)
Definition initial_message : progress_data :=
  ProgressData session_id [36827; 24230; 30417; 21548; 24050; 21551; 21160]%N
    (cps "connected") now [(cps "connection_id", connection_id)].

(** The [finally] block. *)
Definition finally (st : state) : state :=
  let conns := connections st session_id ∖ {[connection_id]} in
  if decide (conns = ∅) then
    State (delete session_id (progress_storage st))
          (delete session_id (active_connections st)) (abort_flags st)
  else
    State (progress_storage st)
          (<[session_id := conns]> (active_connections st)) (abort_flags st).

(** From the connection check of the [while] loop to the next stop. *)
Definition after_new_messages (last_message_count : nat) (st : state)
    : option sse * gen_state * state :=
  if decide (connection_id ∈ connections st session_id)
  then (None, GSleep last_message_count, st)
  else (None, GClosed, finally st).

(** From the top of the [while] loop to the next stop. *)
Definition loop (last_message_count : nat) (st : state)
    : option sse * gen_state * state :=
  let current_message_count := length (buffer st session_id) in
  if decide (last_message_count < current_message_count) then
    match drop last_message_count (buffer st session_id) with
    | msg :: rest => (Some (SseData msg), GNew rest current_message_count, st)
    | [] => after_new_messages current_message_count st
    end
  else after_new_messages last_message_count st.

Definition resume (g : gen_state) (st : state) : option sse * gen_state * state :=
  match g with
  | GStart =>
      let st := State (progress_storage st)
                      (<[session_id := {[connection_id]} ∪ connections st session_id]>
                         (active_connections st))
                      (abort_flags st) in
      (Some (SseData initial_message), GConnected, st)
  | GConnected =>
      match (if decide (is_Some (progress_storage st !! session_id))
             then slice_last 10 (buffer st session_id) else []) with
      | msg :: rest => (Some (SseData msg), GHistory rest, st)
      | [] => loop (length (buffer st session_id)) st
      end
  | GHistory (msg :: rest) => (Some (SseData msg), GHistory rest, st)
  | GHistory [] => loop (length (buffer st session_id)) st
  | GNew (msg :: rest) cur => (Some (SseData msg), GNew rest cur, st)
  | GNew [] cur => after_new_messages cur st
  | GSleep last => (Some SseHeartbeat, GHeartbeat last, st)
  | GHeartbeat last => loop last st
  | GClosed => (None, GClosed, st)
  end.

(** The client goes away while the generator is stopped: the pending
    [yield]/[await] raises, and the [finally] block runs if the body had
    been entered. *)
Definition close (g : gen_state) (st : state) : gen_state * state :=
  match g with
  | GStart | GClosed => (GClosed, st)
  | _ => (GClosed, finally st)
  end.

(** What the rest of the process may do while the generator is stopped. *)
Inductive env_action :=
  | Publish (sid message stage : pystr) (metadata : list (pystr * pystr)) (at_ : nat)
  | Clear (sid : pystr).

Inductive action :=
  | Env (e : env_action)
  | Resume
  | Close.

Definition env_step (e : env_action) (st : state) : state :=
  match e with
  | Publish sid m s md t => report_progress sid m s md t st
  | Clear sid => clear_progress sid st
  end.

(** Run a schedule; the result is what the subscriber received, oldest
    first, and where the system ends up. *)
Fixpoint run (acts : list action) (g : gen_state) (st : state)
    : list sse * gen_state * state :=
  match acts with
  | [] => ([], g, st)
  | Env e :: acts => run acts g (env_step e st)
  | Resume :: acts =>
      let '(o, g, st) := resume g st in
      let '(os, g, st) := run acts g st in
      (from_option (λ x, [x]) [] o ++ os, g, st)
  | Close :: acts =>
      let '(g, st) := close g st in
      run acts g st
  end.

(** The progress messages published on this session by a schedule. *)
Definition published_by (e : env_action) : list progress_data :=
  match e with
  | Publish sid m s md t =>
      if decide (sid = session_id) then [ProgressData sid m s t md] else []
  | Clear _ => []
  end.

Definition published (acts : list action) : list progress_data :=
  acts ≫= λ a, match a with Env e => published_by e | _ => [] end.

(** The data frames among what the subscriber received. *)
Definition data_of (os : list sse) : list progress_data :=
  os ≫= λ o, match o with SseData d => [d] | SseHeartbeat => [] end.

End Generator.

End Progress.

(** ** app/agent/core/task_classifier.py *)

Module Classifier.

(** The fragment of [re] syntax that the module uses. *)
Inductive cclass :=
  | CSpace      (* \s *)
  | CDigit.     (* \d *)

Inductive regex :=
  | RBol                           (* ^ *)
  | RLit (s : pystr)               (* literal text *)
  | RStar (c : cclass)             (* c* *)
  | RPlus (c : cclass)             (* c+ *)
  | RRep (n : nat) (c : cclass)    (* c{n} *)
  | RSeq (r1 r2 : regex).

Declare Scope regex_scope.
Delimit Scope regex_scope with re.
Infix "⋅" := RSeq (at level 60, right associativity) : regex_scope.

(** What a piece of code inside a [try] block comes to: a value, or the
    exception that the conversion of a string to [int] raises. *)
Inductive attempt (A : Type) :=
  | Value (a : A)
  | ValueError.
Arguments Value {A} a.
Arguments ValueError {A}.

(** [TaskClassifier.__init__] *)
Record TaskClassifier := { supported_modes : list Z }.
Definition task_classifier : TaskClassifier := {| supported_modes := [1; 2; 3; -1]%Z |}.

Section WithTables.
Context `{Unicode}.

Definition in_class (c : cclass) (x : N) : bool :=
  match c with
  | CSpace => py_isspace x
  | CDigit => bool_decide (is_Some (py_digit x))
  end.

(** Backtracking matcher in continuation style.  [bol] says whether the
    current position is the beginning of the string; [k] receives the
    same flag and the unread input. *)
Fixpoint match_star (c : cclass) (bol : bool) (s : pystr)
    (k : bool → pystr → bool) : bool :=
  k bol s ||
  match s with
  | x :: s' => in_class c x && match_star c false s' k
  | [] => false
  end.

Fixpoint match_rep (n : nat) (c : cclass) (bol : bool) (s : pystr)
    (k : bool → pystr → bool) : bool :=
  match n with
  | 0 => k bol s
  | S n' =>
      match s with
      | x :: s' => in_class c x && match_rep n' c false s' k
      | [] => false
      end
  end.

Fixpoint re_match (r : regex) (bol : bool) (s : pystr)
    (k : bool → pystr → bool) : bool :=
  match r with
  | RBol => bol && k bol s
  | RLit l =>
      starts_with l s && k (bol && bool_decide (l = [])) (drop (length l) s)
  | RStar c => match_star c bol s k
  | RPlus c =>
      match s with
      | x :: s' => in_class c x && match_star c false s' k
      | [] => false
      end
  | RRep n c => match_rep n c bol s k
  | RSeq r1 r2 => re_match r1 bol s (λ bol' s', re_match r2 bol' s' k)
  end.

(** [re.search(pattern, s)] as a truth value. *)
Fixpoint search_from (r : regex) (bol : bool) (s : pystr) : bool :=
  re_match r bol s (λ _ _, true) ||
  match s with
  | _ :: s' => search_from r false s'
  | [] => false
  end.

Definition re_search (r : regex) (s : pystr) : bool := search_from r true s.

(** [re.findall(r'-?\d+', s)]: the leftmost, longest, non-overlapping
    matches, as strings.  [cur] is the match being extended. *)
Definition is_digit (x : N) : bool := in_class CDigit x.
Definition minus : N := 45.

Fixpoint findall_from (cur : option pystr) (s : pystr) : list pystr :=
  match s with
  | [] => match cur with Some tok => [tok] | None => [] end
  | c :: s' =>
      let start :=
        if bool_decide (c = minus) && from_option is_digit false (list.head s')
        then Some [c]
        else if is_digit c then Some [c] else None in
      match cur with
      | Some tok =>
          if is_digit c then findall_from (Some (tok ++ [c])) s'
          else tok :: findall_from start s'
      | None => findall_from start s'
      end
  end.

Definition findall_ints (s : pystr) : list pystr := findall_from None s.

(** The value of a token matched by [-?\d+]. *)
Definition digits_value (ds : pystr) : Z :=
  foldl (λ acc c, 10 * acc + default 0 (py_digit c))%Z 0%Z ds.

Definition int_value (tok : pystr) : Z :=
  match tok with
  | c :: ds => if bool_decide (c = minus) then (- digits_value ds)%Z
               else digits_value tok
  | [] => 0%Z
  end.

(** The number of digits of a token; the sign does not count. *)
Definition digit_count (tok : pystr) : nat :=
  match tok with
  | c :: ds => if bool_decide (c = minus) then length ds else length tok
  | [] => 0
  end.

(** [int(tok)] for a token matched by [-?\d+].  Python integers are
    unbounded, but the conversion of a decimal string raises [ValueError]
    when the string has more digits than the limit of the interpreter; it
    looks at the limit only for strings of more than 640 digits. *)
Definition _PY_LONG_MAX_STR_DIGITS_THRESHOLD : nat := 640.

Definition py_int (tok : pystr) : attempt Z :=
  if bool_decide (_PY_LONG_MAX_STR_DIGITS_THRESHOLD < digit_count tok
                  ∧ 0 < py_int_max_str_digits
                  ∧ py_int_max_str_digits < digit_count tok)
  then ValueError
  else Value (int_value tok).

(** [str.strip()] and [str.split('\n')] *)
Fixpoint lstrip (s : pystr) : pystr :=
  match s with
  | c :: s' => if py_isspace c then lstrip s' else s
  | [] => []
  end.

Definition py_strip (s : pystr) : pystr := reverse (lstrip (reverse (lstrip s))).

Fixpoint split_on (sep : N) (s : pystr) : list pystr :=
  match s with
  | [] => [[]]
  | c :: s' =>
      if bool_decide (c = sep) then [] :: split_on sep s'
      else match split_on sep s' with
           | l :: ls => (c :: l) :: ls
           | [] => [[c]]
           end
  end.

Definition newline : N := 10.

(** The error patterns, in source order. *)
Definition error_patterns : list regex :=
  [ (RLit (cps "error code:") ⋅ RStar CSpace ⋅ RPlus CDigit)%re;
          (* r'error code:\s*\d+' *)
    (RBol ⋅ RRep 3 CDigit ⋅ RStar CSpace ⋅ RLit (cps "error"))%re;
          (* r'^\d{3}\s*error' *)
    RLit [25265; 27465; 65292; 23545; 35805; 23436; 25104; 26102; 20986;
          29616; 38382; 39064]%N;
          (* r'抱歉，对话完成时出现问题' *)
    (RLit (cps "api") ⋅ RStar CSpace ⋅ RLit (cps "error"))%re;
          (* r'api\s*error' *)
    RLit (cps "accountoverdue");
    (RLit (cps "request") ⋅ RStar CSpace ⋅ RLit (cps "failed"))%re;
          (* r'request\s*failed' *)
    RLit (cps "unauthorized");
    RLit (cps "forbidden");
    (RLit (cps "rate") ⋅ RStar CSpace ⋅ RLit (cps "limit"))%re
          (* r'rate\s*limit' *) ].

Definition isolated_error_codes : list pystr := [cps "403"; cps "500"].
Definition error_context_words : list pystr :=
  [cps "error"; cps "failed"; cps "forbidden"; cps "unauthorized"].

(** [knowledge_keywords] of [_extract_task_type_from_response] *)
Definition knowledge_keywords : list pystr :=
  [[30693; 35782]%N (* 知识 *);
   [20160; 20040; 26159]%N (* 什么是 *);
   [20160; 20040]%N (* 什么 *);
   [22914; 20309]%N (* 如何 *);
   [20026; 20160; 20040]%N (* 为什么 *);
   [21407; 29702]%N (* 原理 *);
   [35299; 37322]%N (* 解释 *);
   [23450; 20041]%N (* 定义 *);
   [20171; 32461]%N (* 介绍 *);
   [35828; 26126]%N (* 说明 *)].

(** [modeling_keywords] of [_extract_task_type_from_response] *)
Definition modeling_keywords : list pystr :=
  [[26500; 24314]%N (* 构建 *);
   [29983; 25104]%N (* 生成 *);
   [21019; 24314]%N (* 创建 *);
   [24314; 27169]%N (* 建模 *);
   [25552; 20132]%N (* 提交 *);
   [35745; 31639]%N (* 计算 *);
   [21442; 25968]%N (* 参数 *)].

(** [result_keywords], the same list in both functions *)
Definition result_keywords : list pystr :=
  [[33719; 21462]%N (* 获取 *);
   [32467; 26524]%N (* 结果 *);
   [21487; 35270; 21270]%N (* 可视化 *);
   [23436; 25104]%N (* 完成 *);
   [20998; 26512]%N (* 分析 *)].

(** [context_keywords], the same list in both functions *)
Definition context_keywords : list pystr :=
  [[21018; 25165]%N (* 刚才 *);
   [20043; 21069]%N (* 之前 *);
   [21382; 21490]%N (* 历史 *);
   [20219; 21153]%N (* 任务 *);
   [20043; 21069; 25552; 20132]%N (* 之前提交 *);
   [20043; 21069; 21019; 24314]%N (* 之前创建 *);
   [36816; 34892]%N (* 运行 *)].

(** [knowledge_keywords] of [_classify_by_keywords] *)
Definition prompt_knowledge_keywords : list pystr :=
  [[20160; 20040; 26159]%N (* 什么是 *);
   [20160; 20040]%N (* 什么 *);
   [22914; 20309]%N (* 如何 *);
   [20026; 20160; 20040]%N (* 为什么 *);
   [35299; 37322]%N (* 解释 *);
   [23450; 20041]%N (* 定义 *);
   [21407; 29702]%N (* 原理 *);
   [26426; 21046]%N (* 机制 *);
   [20171; 32461]%N (* 介绍 *);
   [35828; 26126]%N (* 说明 *)].

(** [modeling_keywords] of [_classify_by_keywords] *)
Definition prompt_modeling_keywords : list pystr :=
  [[26500; 24314]%N (* 构建 *);
   [29983; 25104]%N (* 生成 *);
   [21019; 24314]%N (* 创建 *);
   [24314; 31435]%N (* 建立 *);
   [24314; 27169]%N (* 建模 *);
   [25552; 20132]%N (* 提交 *);
   [35745; 31639]%N (* 计算 *);
   [21442; 25968]%N (* 参数 *)].

(** Lines 199-220: the keyword matching that ends
    [_extract_task_type_from_response]. *)
Definition keyword_match (response_lower : pystr) : Z :=
  if any_in knowledge_keywords response_lower then 1
  else if any_in modeling_keywords response_lower then 2
  else if any_in result_keywords response_lower
          && any_in context_keywords response_lower then 3
  else 1.

(** [_classify_by_keywords] *)
Definition _classify_by_keywords (user_prompt : pystr) : Z :=
  let prompt_lower := py_lower user_prompt in
  if any_in prompt_knowledge_keywords prompt_lower then 1
  else if any_in prompt_modeling_keywords prompt_lower then 2
  else if any_in result_keywords prompt_lower
          && any_in context_keywords prompt_lower then 3
  else 1.

Section Extract.
Context (self : TaskClassifier).

(** Lines 170-182: [for line in reversed(lines)], with its [continue]s
    and its [break]; the argument is the reversed list.  The loop ends
    with [task_type], or with the exception of [int]. *)
Fixpoint lines_loop (lines : list pystr) : attempt (option Z) :=
  match lines with
  | [] => Value None
  | line :: lines' =>
      let line := py_strip line in
      match line with
      | [] => lines_loop lines'
      | _ :: _ =>
          match list.last (findall_ints line) with
          | Some num =>
              match py_int num with
              | Value candidate =>
                  if bool_decide (candidate ∈ supported_modes self)
                  then Value (Some candidate)
                  else lines_loop lines'
              | ValueError => ValueError
              end
          | None => lines_loop lines'
          end
      end
  end.

(** Lines 188-193: [for num in reversed(all_numbers)]. *)
Fixpoint numbers_loop (all_numbers : list pystr) : attempt (option Z) :=
  match all_numbers with
  | [] => Value None
  | num :: nums' =>
      match py_int num with
      | Value candidate =>
          if bool_decide (candidate ∈ supported_modes self)
          then Value (Some candidate)
          else numbers_loop nums'
      | ValueError => ValueError
      end
  end.

(** Lines 133-220: the body of the [try] of
    [_extract_task_type_from_response]. *)
Definition try_extract_task_type (response : pystr) : attempt Z :=
  let response_lower := py_lower response in
  if existsb (λ pattern, re_search pattern response_lower) error_patterns
  then Value (-1)%Z
  else if existsb (λ code, contains code response_lower
                           && any_in error_context_words response_lower)
                  isolated_error_codes
  then Value (-1)%Z
  else
    let lines := split_on newline (py_strip response) in
    match lines_loop (reverse lines) with
    | Value task_type =>
        let task_type :=
          match task_type with
          | Some t => Value (Some t)
          | None => numbers_loop (reverse (findall_ints response))
          end in
        match task_type with
        | Value (Some t) => Value t
        | Value None => Value (keyword_match response_lower)
        | ValueError => ValueError
        end
    | ValueError => ValueError
    end.

(** [_extract_task_type_from_response]: the [try] with its
    [except Exception: return -1] (lines 222-224). *)
Definition _extract_task_type_from_response (response : pystr) : Z :=
  match try_extract_task_type response with
  | Value task_type => task_type
  | ValueError => (-1)%Z
  end.

(** What the LLM call of [classify_task] came back with. *)
Inductive llm_outcome :=
  | LlmResponse (text : pystr)
  | LlmError (message : pystr).      (* [str(e)] of the exception *)

(** Lines 116-128: the [except] clause of [classify_task]. *)
Definition classify_error (message user_prompt : pystr) : Z :=
  let error_str := py_lower message in
  if contains (cps "timeout") error_str || contains (cps "time out") error_str
  then -101
  else if contains (cps "connection") error_str || contains (cps "network") error_str
  then -102
  else if contains (cps "accountoverdue") error_str || contains (cps "403") error_str
          || contains (cps "forbidden") error_str
  then -103
  else _classify_by_keywords user_prompt.

End Extract.
End WithTables.

End Classifier.

(** ** The parsing rule as the specification words it (section 4.3, step 3)

    "Reject if the response matches any error-signal pattern; reject means
    return -1.  Walk the response's non-empty lines from last to first;
    extract the trailing signed integer from each; return the first one in
    the allowed set {1, 2, 3, -1}.  If none, scan the whole response for any
    integer in that set [taking the integers from last to first].  If still
    none, apply keyword heuristics, [defaulting to 1]."

    The rule is written here as a relation between a response and a task
    code, in terms of what occurs in the text; none of the functions of the
    classifier is used, only its tables of patterns and keywords and the
    models of [str.strip], [str.split] and [re.findall]. *)

Module ClassifierSpec.
Import Classifier.

Section WithTables.
Context `{Unicode}.

Definition allowed : list Z := [1; 2; 3; -1]%Z.

(** [needle] occurs in [text]. *)
Definition occurs (needle text : pystr) : Prop :=
  ∃ before after, text = before ++ needle ++ after.

(** A keyword of the list occurs in [text]. *)
Definition mentions (keywords : list pystr) (text : pystr) : Prop :=
  ∃ keyword, keyword ∈ keywords ∧ occurs keyword text.

Definition spaces (ws : pystr) : Prop := Forall (λ c, py_isspace c = true) ws.
Definition digit (c : N) : Prop := is_Some (py_digit c).

(** What a pattern of the fragment matches: [matches r bol p] says that
    [r] matches the text [p] at a position that is ([bol]) or is not the
    beginning of the string. *)
Fixpoint matches (r : regex) (bol : bool) (p : pystr) : Prop :=
  match r with
  | RBol => bol = true ∧ p = []
  | RLit l => p = l
  | RStar c => Forall (λ x, in_class c x = true) p
  | RPlus c => p ≠ [] ∧ Forall (λ x, in_class c x = true) p
  | RRep n c => length p = n ∧ Forall (λ x, in_class c x = true) p
  | RSeq r1 r2 =>
      ∃ p1 p2, p = p1 ++ p2 ∧ matches r1 bol p1
               ∧ matches r2 (bol && bool_decide (p1 = [])) p2
  end.

(** "matches any error-signal pattern", on the lower-cased response:
    one of the nine patterns occurs in it, or one of the status codes 403
    and 500 occurs in it together with a word of the error context. *)
Definition error_signal (response : pystr) : Prop :=
  let text := py_lower response in
  (* error code:\s*\d+ *)
  (∃ ws d, spaces ws ∧ digit d ∧ occurs (cps "error code:" ++ ws ++ [d]) text)
  (* ^\d{3}\s*error *)
  ∨ (∃ d1 d2 d3 ws rest,
       digit d1 ∧ digit d2 ∧ digit d3 ∧ spaces ws
       ∧ text = [d1; d2; d3] ++ ws ++ cps "error" ++ rest)
  (* 抱歉，对话完成时出现问题 *)
  ∨ occurs [25265; 27465; 65292; 23545; 35805; 23436; 25104; 26102; 20986;
            29616; 38382; 39064]%N text
  (* api\s*error *)
  ∨ (∃ ws, spaces ws ∧ occurs (cps "api" ++ ws ++ cps "error") text)
  ∨ occurs (cps "accountoverdue") text
  (* request\s*failed *)
  ∨ (∃ ws, spaces ws ∧ occurs (cps "request" ++ ws ++ cps "failed") text)
  ∨ occurs (cps "unauthorized") text
  ∨ occurs (cps "forbidden") text
  (* rate\s*limit *)
  ∨ (∃ ws, spaces ws ∧ occurs (cps "rate" ++ ws ++ cps "limit") text)
  (* a status code in an error context *)
  ∨ ((occurs (cps "403") text ∨ occurs (cps "500") text)
     ∧ (occurs (cps "error") text ∨ occurs (cps "failed") text
        ∨ occurs (cps "forbidden") text ∨ occurs (cps "unauthorized") text)).

Definition nonempty_lines (response : pystr) : list pystr :=
  filter (λ line, line ≠ []) (py_strip <$> split_on newline (py_strip response)).

(** The signed integers of a text as they are written, left to right. *)
Definition signed_integers (text : pystr) : list pystr := findall_ints text.

Definition trailing_integer (line : pystr) : option pystr :=
  list.last (signed_integers line).

(** The numbers the rule looks at, in the order in which it does: the
    trailing integer of each non-empty line, from the last line to the
    first, and then every integer of the response, from the last to the
    first. *)
Definition examined (response : pystr) : list pystr :=
  omap trailing_integer (reverse (nonempty_lines response))
  ++ reverse (signed_integers response).

(** "apply keyword heuristics, defaulting to 1" *)
Definition keyword_rule (text : pystr) (z : Z) : Prop :=
  (mentions knowledge_keywords text ∧ z = 1%Z)
  ∨ (¬ mentions knowledge_keywords text ∧ mentions modeling_keywords text ∧ z = 2%Z)
  ∨ (¬ mentions knowledge_keywords text ∧ ¬ mentions modeling_keywords text
     ∧ (mentions result_keywords text ∧ mentions context_keywords text) ∧ z = 3%Z)
  ∨ (¬ mentions knowledge_keywords text ∧ ¬ mentions modeling_keywords text
     ∧ ¬ (mentions result_keywords text ∧ mentions context_keywords text)
     ∧ z = 1%Z).

Section Rule.
(** How a number as written becomes an integer, if it does. *)
Context (to_int : pystr → attempt Z).

(** A number that is looked at and is not in the allowed set. *)
Definition passed_over (number : pystr) : Prop :=
  ∃ z, to_int number = Value z ∧ z ∉ allowed.

Inductive rule (response : pystr) : Z → Prop :=
  | rule_error_signal :
      error_signal response → rule response (-1)
  | rule_number before number after z :
      ¬ error_signal response →
      examined response = before ++ number :: after →
      Forall passed_over before →
      to_int number = Value z → z ∈ allowed →
      rule response z
  | rule_no_integer before number after :
      ¬ error_signal response →
      examined response = before ++ number :: after →
      Forall passed_over before →
      to_int number = ValueError →
      rule response (-1)
  | rule_keywords z :
      ¬ error_signal response →
      Forall passed_over (examined response) →
      keyword_rule (py_lower response) z →
      rule response z.
End Rule.

(** The rule as it is stated: every number that is written is an
    integer. *)
Definition stated_rule : pystr → Z → Prop :=
  rule (λ number, Value (int_value number)).

(** The rule of the code: a number becomes an integer the way [int] makes
    it one, and a number that [int] refuses ends the parse with -1. *)
Definition amended_rule : pystr → Z → Prop := rule py_int.

End WithTables.
End ClassifierSpec.

(** ** app/services/session/chat_service.py: titles, listings, the latest session *)

Module ChatSessionMore.
Import Classifier ChatSession.

Section Title.
Context `{Unicode}.

Definition space : N := 32.
Definition double_quote : N := 34.
Definition single_quote : N := 39.
Definition dots : pystr := cps "...".

(** [s.replace(old, new)] and [s.replace(old, '')] for a one-character
    [old]. *)
Definition replace_char (old new : N) (s : pystr) : pystr :=
  (λ c, if decide (c = old) then new else c) <$> s.

Definition remove_char (old : N) (s : pystr) : pystr :=
  filter (λ c, c ≠ old) s.

(** [s.split()]: the maximal runs of characters that are not whitespace.
    [cur] is the run being read. *)
Fixpoint py_split_from (cur : pystr) (s : pystr) : list pystr :=
  match s with
  | [] => match cur with [] => [] | _ :: _ => [cur] end
  | c :: s' =>
      if py_isspace c
      then match cur with
           | [] => py_split_from [] s'
           | _ :: _ => cur :: py_split_from [] s'
           end
      else py_split_from (cur ++ [c]) s'
  end.

Definition py_split (s : pystr) : list pystr := py_split_from [] s.

(** [sep.join(l)] *)
Definition py_join (sep : pystr) (l : list pystr) : pystr :=
  match l with
  | [] => []
  | x :: xs => x ++ (xs ≫= λ y, sep ++ y)
  end.

(** [_generate_session_title].  [llm] is what the title request to the
    LLM came back with; an error there, as any other exception of the
    [try] body, leads to the [except] clause. *)
Definition _generate_session_title (llm : llm_outcome) (user_prompt : pystr)
    : pystr :=
  match llm with
  | LlmResponse title =>
      let title :=
        remove_char single_quote
          (remove_char double_quote
             (replace_char newline space (py_strip title))) in
      let title := if decide (20 < length title) then take 20 title ++ dots
                   else title in
      (* "新对话" *)
      match title with
      | [] => [26032; 23545; 35805]%N
      | _ :: _ => title
      end
  | LlmError _ =>
      let words := py_split user_prompt in
      if decide (3 < length words) then py_join [space] (take 3 words) ++ dots
      else if decide (20 < length user_prompt) then take 20 user_prompt ++ dots
      else user_prompt
  end.

End Title.

(** An entry of the list [_list_local_sessions] builds. *)
Record session_summary := SessionSummary {
  sm_session_id : pystr;
  sm_title : pystr;
  sm_created_at : nat;
  sm_updated_at : nat;
  message_count : nat;
}.

Definition summary (d : session_data) : session_summary :=
  SessionSummary (session_id d) (title d) (created_at d) (updated_at d)
                 (length (messages d)).

(** [l.sort(key=lambda x: x.get("updated_at", ""), reverse=True)].  The
    sort of Python is stable, also with [reverse=True]: the result is the
    one list that is in descending order of the key and keeps the elements
    of equal key in the order they had.  Insertion from the right builds
    it. *)
Fixpoint insert_desc (x : session_summary) (l : list session_summary)
    : list session_summary :=
  match l with
  | [] => [x]
  | y :: l' =>
      if decide (sm_updated_at x < sm_updated_at y) then y :: insert_desc x l'
      else x :: y :: l'
  end.

Definition sort_by_updated_at_desc (l : list session_summary) : list session_summary :=
  foldr insert_desc [] l.

(** A list in descending order of [updated_at]. *)
Fixpoint newest_first (l : list session_summary) : Prop :=
  match l with
  | [] => True
  | x :: l' => Forall (λ y, sm_updated_at y ≤ sm_updated_at x) l' ∧ newest_first l'
  end.

Section Service.
Context (svc : ChatSessionService) (io : io_outcome) (now : nat).

(** [_list_local_sessions].  [listing] is what the directory scan
    yields: the stems of the [*.json] files of the cache directory that
    could be opened and parsed, in the order of [glob]. *)
Definition _list_local_sessions (listing : list pystr) (st : stores)
    : list session_summary :=
  if negb (enable_local_cache svc) then []
  else omap (λ stem, summary <$> local_cache st !! stem) listing.

(** [find_latest_session].  [rshub_session_ids] is what
    [_get_session_ids_from_rshub] returned for the token: the list the
    remote service answered with, or the empty list when the call
    failed. *)
Definition find_latest_session (listing rshub_session_ids : list pystr)
    (token : pystr) (st : stores) : option session_data * stores :=
  let local_sessions := _list_local_sessions listing st in
  match local_sessions with
  | _ :: _ =>
      match sort_by_updated_at_desc local_sessions with
      | latest :: _ => load_session svc io now token (sm_session_id latest) st
      | [] => (None, st)         (* [local_sessions[0]] raises: not reached *)
      end
  | [] =>
      match rshub_session_ids with
      | latest_session_id :: _ => load_session svc io now token latest_session_id st
      | [] => (None, st)
      end
  end.

(** Lines 356-368 of [list_sessions]: the loop over the ids the remote
    service listed.  [session_ids_set] holds the ids that are already in
    [sessions]. *)
Fixpoint add_rshub_sessions (token : pystr) (st : stores)
    (rshub_session_ids : list pystr) (session_ids_set : gset pystr)
    (sessions : list session_summary) : list session_summary :=
  match rshub_session_ids with
  | [] => sessions
  | session_id :: rest =>
      if decide (session_id ∈ session_ids_set)
      then add_rshub_sessions token st rest session_ids_set sessions
      else
        match _load_session_from_rshub io token session_id st with
        | Some session_data =>
            add_rshub_sessions token st rest ({[session_id]} ∪ session_ids_set)
              (sessions ++ [SessionSummary session_id (title session_data)
                              (created_at session_data) (updated_at session_data)
                              (length (messages session_data))])
        | None => add_rshub_sessions token st rest session_ids_set sessions
        end
  end.

(** [list_sessions]; [listing] and [rshub_session_ids] are as in
    [find_latest_session]. *)
Definition list_sessions (listing rshub_session_ids : list pystr)
    (token : pystr) (st : stores) : list session_summary :=
  let local_sessions :=
    filter (λ s, sm_session_id s ≠ []) (_list_local_sessions listing st) in
  let session_ids_set : gset pystr := list_to_set (sm_session_id <$> local_sessions) in
  sort_by_updated_at_desc
    (add_rshub_sessions token st rshub_session_ids session_ids_set local_sessions).

(** [get_session_history] *)
Definition get_session_history (token sid : pystr) (st : stores)
    : list message * stores :=
  let '(session_data, st) := load_session svc io now token sid st in
  match session_data with
  | Some d => (messages d, st)
  | None => ([], st)
  end.

End Service.

End ChatSessionMore.

(** ** app/services/session/chat_service.py: [_cleanup_old_sessions] *)

Module SessionCleanup.
Import ChatSession.

(** [self.max_session_age_days = 30], [self.max_total_sessions = 100] *)
Definition max_session_age_days : nat := 30.
Definition max_total_sessions : nat := 100.

(** [l.sort(key=lambda x: x[1])]: the stable sort in ascending order of
    the key, by insertion from the right. *)
Fixpoint insert_asc (x : pystr * nat) (l : list (pystr * nat)) : list (pystr * nat) :=
  match l with
  | [] => [x]
  | y :: l' => if decide (y.2 < x.2) then y :: insert_asc x l' else x :: y :: l'
  end.

Definition sort_by_time (l : list (pystr * nat)) : list (pystr * nat) :=
  foldr insert_asc [] l.

Section Cleanup.
(** What the method depends on besides the cache: the length of a day in
    the unit of the clock, the order in which [glob] yields the files of
    a directory, and whether the [unlink] of a file goes through (a
    failure is logged and the file stays). *)
Context (day : nat)
        (glob : gmap pystr session_data → list pystr)
        (unlink_ok : pystr → bool).

(** [updated_at < expire_time], with
    [expire_time = datetime.now() - timedelta(days=30)]. *)
Definition is_expired (now updated_at : nat) : bool :=
  bool_decide (updated_at + max_session_age_days * day < now).

Definition unlink_all (session_files : list pystr) (m : gmap pystr session_data)
    : gmap pystr session_data :=
  foldl (λ m session_file, if unlink_ok session_file then delete session_file m else m)
        m session_files.

(** The files of the scan with their [updated_at] (every file of the
    model parses and has one). *)
Definition scanned (m : gmap pystr session_data) : list (pystr * nat) :=
  omap (λ session_file, (λ d, (session_file, updated_at d)) <$> m !! session_file)
       (glob m).

(** [_cleanup_old_sessions], with the local cache enabled. *)
Definition _cleanup_old_sessions (now : nat) (m : gmap pystr session_data)
    : gmap pystr session_data :=
  let expired_sessions :=
    fst <$> filter (λ e, is_expired now e.2 = true) (scanned m) in
  let sessions_to_check := filter (λ e, is_expired now e.2 = false) (scanned m) in
  let m' := unlink_all expired_sessions m in
  if decide (max_total_sessions < length sessions_to_check) then
    let sessions_to_delete :=
      take (length sessions_to_check - max_total_sessions)
           (sort_by_time sessions_to_check) in
    unlink_all (fst <$> sessions_to_delete) m'
  else m'.

End Cleanup.

End SessionCleanup.

(** ** app/services/billing/billing_tracker.py *)

Module Billing.

Record session_counter := Counter {
  llm_calls : nat;
  rshub_tasks : nat;
  start_time : nat;
  details : list pystr;       (* the [purpose] / [task_name] of each entry *)
}.

(** [BillingTracker.sessions] *)
Abbreviation sessions := (gmap pystr session_counter).

Definition init_session (sid : pystr) (now : nat) (t : sessions) : sessions :=
  match t !! sid with
  | Some _ => t
  | None => <[sid := Counter 0 0 now []]> t
  end.

Definition track_llm_call (sid purpose : pystr) (now : nat) (t : sessions) : sessions :=
  alter (λ c, Counter (llm_calls c + 1) (rshub_tasks c) (start_time c)
                      (details c ++ [purpose]))
        sid (init_session sid now t).

Definition track_rshub_task (sid task_name : pystr) (now : nat) (t : sessions)
    : sessions :=
  alter (λ c, Counter (llm_calls c) (rshub_tasks c + 1) (start_time c)
                      (details c ++ [task_name]))
        sid (init_session sid now t).

(** The dictionary [calculate_cost] returns ([duration_seconds] and
    [details] left out).  Floats are exact rationals here. *)
Record cost_report := CostReport {
  counted_llm_calls : nat;
  counted_rshub_tasks : nat;
  llm_cost : Qc;
  rshub_cost : Qc;
  total_cost : Qc;
}.

Definition Qc_of_nat (n : nat) : Qc := Q2Qc (inject_Z (Z.of_nat n)).

Definition calculate_cost (sid : pystr) (llm_cost_factor rshub_cost_factor : Qc)
    (t : sessions) : cost_report :=
  match t !! sid with
  | None => CostReport 0 0 0%Qc 0%Qc 0%Qc
  | Some session_data =>
      let llm_cost := (Qc_of_nat (llm_calls session_data) * llm_cost_factor)%Qc in
      let rshub_cost := (Qc_of_nat (rshub_tasks session_data) * rshub_cost_factor)%Qc in
      CostReport (llm_calls session_data) (rshub_tasks session_data)
                 llm_cost rshub_cost (llm_cost + rshub_cost)%Qc
  end.

Definition clear_session (sid : pystr) (t : sessions) : sessions := delete sid t.

End Billing.

(** ** app/services/billing/credit_service.py *)

Module Credit.

(** [int(x)] on a float: truncation toward zero. *)
Definition int_of_float (q : Qc) : Z := Z.quot (Qnum q) (Zpos (Qden q)).

(** What the POST to the RSHub credit API came back with. *)
Inductive http_outcome :=
  | Http200 (flag : bool) (credits : option Qc)   (* "logic" / "result", "credits" *)
  | HttpStatus (code : nat)                       (* any status but 200 *)
  | HttpTimeout
  | HttpFailure.                                  (* any other exception *)

(** [check_credits] and [update_credits], without the message component
    of the tuples they return. *)
Definition check_credits (o : http_outcome) : bool * option Qc :=
  match o with
  | Http200 has_enough _ => (has_enough, None)
  | _ => (false, None)
  end.

Definition update_credits (o : http_outcome) : bool * option Qc :=
  match o with
  | Http200 success credits => (success, credits)
  | _ => (false, None)
  end.

(** The JSON body both functions post: [{"token": token, "credits":
    int(x)}] (lines 30 and 35, 75 and 80). *)
Definition request_body (token : pystr) (credits : Qc) : pystr * Z :=
  (token, int_of_float credits).

(** An integer as a float. *)
Definition float_of_int (z : Z) : Qc := Q2Qc (inject_Z z).

(** What the POST of [get_remaining_credits] came back with: status 200
    and a body whose [data.get("message", "")] is a string (a value that
    tests false counts as the empty one), another status, or an exception,
    which a body that cannot be read this way ends in too. *)
Inductive balance_outcome :=
  | Balance200 (message : pystr)
  | BalanceStatus (code : nat)
  | BalanceFailure.

(** The balance [get_remaining_credits] returns: [float(number)] for a run
    of digits, kept as the text it is the value of, or [-1]. *)
Inductive balance :=
  | float_of_digits (number : pystr)
  | minus_one.

Section Balance.
Context `{Unicode}.

(** [re.findall(r'\d+', s)]: the maximal runs of digits, left to right.
    [cur] is the run being extended. *)
Fixpoint findall_digits_from (cur : option pystr) (s : pystr) : list pystr :=
  match s with
  | [] => match cur with Some tok => [tok] | None => [] end
  | c :: s' =>
      if Classifier.is_digit c
      then findall_digits_from (Some (default [] cur ++ [c])) s'
      else match cur with
           | Some tok => tok :: findall_digits_from None s'
           | None => findall_digits_from None s'
           end
  end.

Definition findall_digits (s : pystr) : list pystr := findall_digits_from None s.

(** [get_remaining_credits], without the message component of the tuple. *)
Definition get_remaining_credits (o : balance_outcome) : bool * balance :=
  match o with
  | Balance200 message =>
      match message with
      | _ :: _ =>
          match list.last (findall_digits message) with
          | Some number => (true, float_of_digits number)
          | None => (true, minus_one)
          end
      | [] => (true, minus_one)
      end
  | BalanceStatus _ | BalanceFailure => (false, minus_one)
  end.

End Balance.

End Credit.

(** ** The agent: agent.py, core/agent_manager.py, core/langchain_agent_impl.py,
       core/agent_orchestrator.py, core/response_generator.py *)

Module Agent.
Import Classifier.

(** What [run_analysis_agent] can return: the classification is an [int],
    every other mode returns a [str]. *)
Inductive pyval :=
  | PInt (z : Z)
  | PStr (s : pystr).

Global Instance pyval_eq_dec : EqDecision pyval.
Proof. solve_decision. Defined.

Inductive exn :=
  | HTTPException (status_code : nat)
  | Exception_ (message : pystr).      (* any other exception, with [str(e)] *)

Inductive result (A : Type) :=
  | Return (a : A)
  | Raise (e : exn).
Global Arguments Return {A} a.
Global Arguments Raise {A} e.

(** Calls that leave the process, in the order in which they were made,
    together with the two things that happen to the abort flag. *)
Inductive event :=
  | LoadSession (token chat_id : pystr)
  | FindLatestSession (token : pystr)
  | LlmCall (purpose : pystr)
  | Workflow (mode : Z)
  | CheckCredits (token : pystr) (credits : Z)
  | UpdateCredits (token : pystr) (credit_change : Qc)
  | CreateSession (token user_prompt ai_response : pystr)
  | UpdateSession (token chat_id user_prompt ai_response : pystr)
  | AbortRequested (session_id : pystr)
  | AbortFlagCleared (session_id : pystr) (was_set : bool).

Definition is_external (ev : event) : bool :=
  match ev with
  | AbortRequested _ | AbortFlagCleared _ _ => false
  | _ => true
  end.

(** The process-wide mutable state a turn touches.  The [report_progress]
    calls of a turn are left out: they append to the progress buffer, which
    no step of a turn reads; of [progress] a turn reads and writes the
    abort flags only. *)
Record world := World {
  billing : Billing.sessions;
  progress : Progress.state;
  trace : list event;               (* oldest first *)
  external_calls : nat;             (* calls made so far in this turn *)
}.

Definition with_billing (f : Billing.sessions → Billing.sessions) (w : world)
    : world :=
  World (f (billing w)) (progress w) (trace w) (external_calls w).

Definition M (A : Type) : Type := world → result A * world.

Definition ret {A} (a : A) : M A := λ w, (Return a, w).
Definition raise {A} (e : exn) : M A := λ w, (Raise e, w).
Definition bind {A B} (m : M A) (f : A → M B) : M B :=
  λ w, match m w with
       | (Return a, w') => f a w'
       | (Raise e, w') => (Raise e, w')
       end.
Definition modify (f : world → world) : M unit := λ w, (Return tt, f w).
Definition gets {A} (f : world → A) : M A := λ w, (Return (f w), w).

(** [try: m except Exception as e: h e]; every exception of the model is an
    [Exception] in Python's hierarchy. *)
Definition try_except {A} (m : M A) (h : exn → M A) : M A :=
  λ w, match m w with
       | (Return a, w') => (Return a, w')
       | (Raise e, w') => h e w'
       end.

Declare Scope agent_scope.
Delimit Scope agent_scope with agent.
Notation "x <- m ;; k" := (bind m (λ x, k))
  (at level 100, m at next level, right associativity) : agent_scope.
Notation "m ;;; k" := (bind m (λ _, k))
  (at level 100, right associativity) : agent_scope.
Local Open Scope agent_scope.

(** What the LLM workflows behind modes 1, 2 and 3 did: they are opaque
    here, up to what they counted and what they returned. *)
Record workflow_outcome := {
  wf_llm_calls : nat;
  wf_rshub_tasks : nat;
  wf_result : pystr;
}.

(** The outside world during one turn. *)
Record environment := {
  settings_ : settings;
  now : nat;
  fresh_uuid : pystr;                                (* [str(uuid.uuid4())] *)
  (** the abort endpoint is served while the n-th external call of the turn
      is in flight *)
  abort_during : nat → bool;
  (** session store *)
  load_session_result : option ChatSession.session_data;
  find_latest_session_result : option ChatSession.session_data;
  create_session_result : bool * pystr * pystr;      (* success, session_id, title *)
  update_session_result : bool;                      (* success *)
  (** LLM *)
  classification_llm : llm_outcome;
  classification_fault : option pystr;
  general_answer_llm : llm_outcome;
  workflow : Z → workflow_outcome;
  (** the call of [run_knowledge_query_with_sources]: what the chain counted
      and answered (it catches its own exceptions and answers with an
      apology), or [inr] with the message of an exception that left
      [run_agent] *)
  knowledge_chain : workflow_outcome + pystr;
  (** credit API *)
  check_credits_http : Credit.http_outcome;
  update_credits_http : Credit.http_outcome;
}.

Section Turn.
Context `{Unicode} (env : environment) (session_id : pystr).

(** An [await] on something outside the process: the call is made, and
    while it is in flight the event loop serves other requests, among
    them possibly POST /progress/abort/{session_id}. *)
Definition abort_events (n : nat) : list event :=
  if abort_during env n then [AbortRequested session_id] else [].

Definition after_external (ev : event) (w : world) : world :=
  World (billing w)
        (if abort_during env (external_calls w)
         then Progress.abort_session session_id (now env) (progress w)
         else progress w)
        (trace w ++ ev :: abort_events (external_calls w))
        (S (external_calls w)).

Definition external (ev : event) : M unit := modify (after_external ev).

Definition track_llm_calls (n : nat) (purpose : pystr) : M unit :=
  modify (with_billing
            (Nat.iter n (Billing.track_llm_call session_id purpose (now env)))).

Definition track_rshub_tasks (n : nat) : M unit :=
  modify (with_billing
            (Nat.iter n (Billing.track_rshub_task session_id (cps "task") (now env)))).

Definition is_session_aborted : M bool :=
  gets (λ w, Progress.is_session_aborted session_id (progress w)).

Definition clear_abort_flag : M unit :=
  modify (λ w,
    World (billing w) (Progress.clear_abort_flag session_id (progress w))
          (trace w ++ [AbortFlagCleared session_id
                         (Progress.is_session_aborted session_id (progress w))])
          (external_calls w)).

(** [TaskClassifier.classify_task] *)
Definition classify_task (user_prompt : pystr) : M Z :=
  aborted <- is_session_aborted ;;
  if aborted then ret (-100)%Z
  else
    external (LlmCall (cps "task_classification")) ;;;
    match classification_llm env with
    | LlmResponse response =>
        track_llm_calls 1 (cps "task_classification") ;;;
        ret (_extract_task_type_from_response task_classifier response)
    | LlmError message => ret (classify_error message user_prompt)
    end.

(** [ResponseGenerator.generate_general_answer] *)
Definition generate_general_answer : M pystr :=
  external (LlmCall (cps "general_answer")) ;;;
  match general_answer_llm env with
  | LlmResponse response =>
      track_llm_calls 1 (cps "general_answer") ;;;
      ret response
  | LlmError message => ret message     (* the apology built from [str(e)] *)
  end.

(** The workflows behind modes 1, 2 and 3 when reached through
    [process_task]: each catches its own exceptions and returns text. *)
Definition run_workflow (mode : Z) : M pystr :=
  external (Workflow mode) ;;;
  track_llm_calls (wf_llm_calls (workflow env mode)) (cps "workflow") ;;;
  track_rshub_tasks (wf_rshub_tasks (workflow env mode)) ;;;
  ret (wf_result (workflow env mode)).

(** [AgentOrchestrator.process_task].  [classification_fault] is an
    exception that escapes [_handle_task_classification]; the [except]
    clause of [process_task] turns it into the apology string. *)
Definition process_task (instruction_mode : Z) (user_prompt : pystr) : M pyval :=
  clear_abort_flag ;;;
  if decide (instruction_mode = 0)%Z then
    match classification_fault env with
    | Some message => ret (PStr message)
    | None => z <- classify_task user_prompt ;; ret (PInt z)
    end
  else if decide (instruction_mode = 1 ∨ instruction_mode = 2 ∨ instruction_mode = 3)%Z
  then s <- run_workflow instruction_mode ;; ret (PStr s)
  else if decide (instruction_mode = -1)%Z
  then s <- generate_general_answer ;; ret (PStr s)
  else ret (PStr (cps "unsupported mode")).

(** [AgentManager.run_agent] and [LangChainAgent.run], for the calls
    without [return_structured]. *)
Definition valid_modes : list Z := [-1; 0; 1; 2; 3]%Z.
Definition langchain_supported_modes : list Z := [-1; 0; 1; 2; 3]%Z.

Definition run_analysis_agent (instruction_mode : Z) (user_prompt : pystr)
    : M pyval :=
  if decide ((instruction_mode ∉ valid_modes)
             ∧ ¬ (instruction_mode ≤ -100 ∧ -103 ≤ instruction_mode)%Z)
  then raise (Exception_ (cps "unsupported instruction mode"))
  else if decide (instruction_mode ∉ langchain_supported_modes)
  then raise (Exception_ (cps "agent does not support instruction mode"))
  else process_task instruction_mode user_prompt.

(** [run_knowledge_query_with_sources]: [run_agent] with mode 1 and
    [return_structured=True], which goes to the knowledge chain and not to
    [process_task]. *)
Definition run_knowledge_query_with_sources : M pystr :=
  external (Workflow 1) ;;;
  match knowledge_chain env with
  | inl outcome =>
      track_llm_calls (wf_llm_calls outcome) (cps "knowledge") ;;;
      ret (wf_result outcome)
  | inr message => raise (Exception_ message)
  end.

End Turn.

End Agent.

(** ** app/agent/core/agent_factory.py and the choice of an agent in
       app/agent/core/agent_manager.py *)

Module AgentFactory.

Record AgentConfig := {
  agent_type : pystr;
  name : pystr;
  description : pystr;
  supported_modes : list Z;
}.

(** A Python [dict] with [str] keys where the order of insertion matters:
    assigning to a key that is there keeps its place. *)
Definition dict (V : Type) : Type := list (pystr * V).

Fixpoint dict_get {V} (k : pystr) (d : dict V) : option V :=
  match d with
  | [] => None
  | (k', v) :: d' => if decide (k' = k) then Some v else dict_get k d'
  end.

Fixpoint dict_set {V} (k : pystr) (v : V) (d : dict V) : dict V :=
  match d with
  | [] => [(k, v)]
  | (k', v') :: d' =>
      if decide (k' = k) then (k, v) :: d' else (k', v') :: dict_set k v d'
  end.

Definition dict_keys {V} (d : dict V) : list pystr := fst <$> d.

Section Factory.
(** The agent classes: [Type[BaseAgent]]. *)
Context {agent_class : Type}.

Record factory := Factory {
  _agent_configs : dict AgentConfig;
  _agent_classes : dict agent_class;
  _default_agent_type : pystr;
}.

(** [AgentFactory.__init__] *)
Definition new : factory := Factory [] [] (cps "langchain").

Definition register_agent (agent_type : pystr) (cls : agent_class)
    (config : AgentConfig) (f : factory) : factory :=
  Factory (dict_set agent_type config (_agent_configs f))
          (dict_set agent_type cls (_agent_classes f))
          (_default_agent_type f).

(** [create_agent] without [config_overrides], as [run_agent] calls it:
    the class to instantiate and the configuration it is given; [None]
    stands for the [ValueError] (a type that has a configuration and no
    class cannot occur, and would be a [KeyError]). *)
Definition create_agent (agent_type : option pystr) (f : factory)
    : option (agent_class * AgentConfig) :=
  let agent_type := default (_default_agent_type f) agent_type in
  match dict_get agent_type (_agent_configs f) with
  | None => None
  | Some config =>
      match dict_get agent_type (_agent_classes f) with
      | Some cls => Some (cls, config)
      | None => None
      end
  end.

Definition get_agent_config (agent_type : pystr) (f : factory) : option AgentConfig :=
  dict_get agent_type (_agent_configs f).

Definition list_agent_types (f : factory) : list pystr :=
  dict_keys (_agent_configs f).

Definition get_default_agent_type (f : factory) : pystr := _default_agent_type f.

(** [set_default_agent_type]; [None] stands for the [ValueError]. *)
Definition set_default_agent_type (agent_type : pystr) (f : factory)
    : option factory :=
  match dict_get agent_type (_agent_configs f) with
  | None => None
  | Some _ => Some (Factory (_agent_configs f) (_agent_classes f) agent_type)
  end.

Definition supports_mode (agent_type : pystr) (instruction_mode : Z) (f : factory)
    : bool :=
  match dict_get agent_type (_agent_configs f) with
  | None => false
  | Some config => bool_decide (instruction_mode ∈ supported_modes config)
  end.

Fixpoint first_supporting (instruction_mode : Z) (items : dict AgentConfig)
    : option pystr :=
  match items with
  | [] => None
  | (agent_type, config) :: items' =>
      if decide (instruction_mode ∈ supported_modes config) then Some agent_type
      else first_supporting instruction_mode items'
  end.

Definition find_agent_for_mode (instruction_mode : Z) (f : factory) : option pystr :=
  first_supporting instruction_mode (_agent_configs f).

(** Lines 59-73 of [AgentManager.run_agent], for a call that names no
    agent type: the agent that is created to run the mode. *)
Definition choose_agent (instruction_mode : Z) (f : factory)
    : option (agent_class * AgentConfig) :=
  let agent_type :=
    match find_agent_for_mode instruction_mode f with
    | Some agent_type => agent_type
    | None => get_default_agent_type f
    end in
  create_agent (Some agent_type) f.

End Factory.

Global Arguments factory : clear implicits.

End AgentFactory.

(** ** app/services/auth/auth_service.py *)

Module Auth.

(** A Python truth test on an optional string: [None] and [""] are false. *)
Definition truthy (s : option pystr) : bool :=
  match s with
  | Some (_ :: _) => true
  | _ => false
  end.

(** [AuthService.get_rshub_token]; [None] stands for the [ValueError]. *)
Definition get_rshub_token (s : settings) (request_token : option pystr)
    : option pystr :=
  match DEPLOYMENT_MODE s with
  | production =>
      if negb (truthy request_token) then None
      else if decide (length (default [] request_token) < 10) then None
      else request_token
  | local =>
      if truthy (Some (RSHUB_TOKEN s)) then Some (RSHUB_TOKEN s)
      else if truthy request_token then request_token
      else None
  end.

(** [AuthService.validate_token] *)
Definition validate_token (token : pystr) : bool :=
  if negb (truthy (Some token)) || bool_decide (length token < 10) then false
  else true.

End Auth.

(** ** app/api/routers/chat_router.py: POST /agent/chat *)

Module ChatRouter.
Import Agent.
Local Open Scope agent_scope.

Record ChatRequest := {
  message : pystr;
  session_id : option pystr;
  token : option pystr;
  chat_id : option pystr;
}.

Inductive status :=
  | success | user_aborted | llm_timeout | network_error | api_error
  | guidance_provided | general_answer | error.

Global Instance status_eq_dec : EqDecision status.
Proof. solve_decision. Defined.

(** The [response] text: a canned message, what a handler returned, or the
    apology built from an exception. *)
Inductive response_text :=
  | canned (for_status : status)
  | text (s : pystr).

Record credit_info := CreditInfo {
  local_mode : bool;
  credit_deducted : Qc;
  remaining_credits : option Qc;
  deduct_success : option bool;
}.

Record ChatResponse := {
  response : response_text;
  status_ : status;
  task_type : option pyval;           (* Optional[int] = None *)
  response_session_id : option pystr;
  source_files : option (list pystr);
  billing_info : option Billing.cost_report;
  credit_info_ : option credit_info;
  response_chat_id : option pystr;
  chat_title : option pystr;
}.

Section Turn.
Context `{Unicode} (env : environment) (request : ChatRequest).

(** [session_id = request.session_id or str(uuid.uuid4())] *)
Definition the_session_id : pystr :=
  if Auth.truthy (session_id request) then default [] (session_id request)
  else fresh_uuid env.

Abbreviation external := (external env the_session_id).

(** Lines 119-126 and 140-146: at most 30 messages of context. *)
Definition max_load_messages : nat := 30.
Definition truncate_history (all_messages : list ChatSession.message)
    : list ChatSession.message :=
  if decide (max_load_messages < length all_messages)
  then take 2 all_messages ++ slice_last (max_load_messages - 2) all_messages
  else all_messages.

(** The variables of the session-management part. *)
Record chat_vars := ChatVars {
  chat_history : list ChatSession.message;
  v_chat_id : option pystr;
  v_chat_title : option pystr;
  is_new_chat : bool;
}.

(** Lines 112-152. *)
Definition load_history (rshub_token : pystr) : M chat_vars :=
  if Auth.truthy (chat_id request) then
    let chat_id := default [] (chat_id request) in
    external (LoadSession rshub_token chat_id) ;;;
    match load_session_result env with
    | Some session_data =>
        ret (ChatVars (truncate_history (ChatSession.messages session_data))
                      (Some chat_id) (Some (ChatSession.title session_data)) false)
    | None => ret (ChatVars [] None None true)
    end
  else
    external (FindLatestSession rshub_token) ;;;
    match find_latest_session_result env with
    | Some latest_session =>
        ret (ChatVars (truncate_history (ChatSession.messages latest_session))
                      (Some (ChatSession.session_id latest_session))
                      (Some (ChatSession.title latest_session)) false)
    | None => ret (ChatVars [] None None true)
    end.

Definition Qc_positive (q : Qc) : bool :=
  if Qclt_le_dec 0%Qc q then true else false.

(** The settlement block, which the source has three times with the same
    text (lines 249-302, 332-387, 496-551). *)
Definition settle (rshub_token : pystr) : M (Billing.cost_report * credit_info) :=
  billing_info <- gets (λ w, Billing.calculate_cost the_session_id
                              (LLM_COST_FACTOR (settings_ env))
                              (RSHUB_TASK_COST_FACTOR (settings_ env)) (billing w)) ;;
  match DEPLOYMENT_MODE (settings_ env) with
  | production =>
      let actual_cost := Billing.total_cost billing_info in
      if Qc_positive actual_cost then
        external (UpdateCredits rshub_token (- actual_cost)%Qc) ;;;
        let '(deduct_success, remaining_credits) :=
          Credit.update_credits (update_credits_http env) in
        let remaining_credits :=
          match remaining_credits with
          | Some r => if Qc_positive (- r)%Qc then (-1)%Qc else r
          | None => (-1)%Qc
          end in
        modify (with_billing (Billing.clear_session the_session_id)) ;;;
        ret (billing_info,
             CreditInfo false actual_cost (Some remaining_credits) (Some deduct_success))
      else ret (billing_info, CreditInfo false 0%Qc None (Some true))
  | local => ret (billing_info, CreditInfo true 0%Qc None None)
  end.

(** The session write that follows a settlement (lines 389-412 and
    553-576).  Its failure is logged and nothing else. *)
Definition persist_session (rshub_token : pystr) (vars : chat_vars)
    (result : pystr) : M chat_vars :=
  if is_new_chat vars then
    external (CreateSession rshub_token (message request) result) ;;;
    let '(ok, new_id, new_title) := create_session_result env in
    if ok then ret (ChatVars (chat_history vars) (Some new_id) (Some new_title)
                             (is_new_chat vars))
    else ret vars
  else
    external (UpdateSession rshub_token (default [] (v_chat_id vars))
                            (message request) result) ;;;
    ret vars.

Definition respond (r : response_text) (st : status) (tt : option pyval)
    (vars : chat_vars) (sources : option (list pystr))
    (money : option (Billing.cost_report * credit_info)) : ChatResponse :=
  {| response := r; status_ := st; task_type := tt;
     response_session_id := Some the_session_id;
     source_files := sources;
     billing_info := fst <$> money; credit_info_ := snd <$> money;
     response_chat_id := v_chat_id vars; chat_title := v_chat_title vars |}.

(** Lines 426-446: the balance check, in production only. *)
Definition preflight (rshub_token : pystr) : M unit :=
  match DEPLOYMENT_MODE (settings_ env) with
  | production =>
      external (CheckCredits rshub_token (Credit.int_of_float 1%Qc)) ;;;
      let '(has_sufficient_credits, _) :=
        Credit.check_credits (check_credits_http env) in
      if has_sufficient_credits then ret tt
      else raise (HTTPException 402)
  | local => ret tt
  end.

(** Lines 448-591: the second stage, its settlement and the session
    write. *)
Definition second_stage (rshub_token : pystr) (vars : chat_vars)
    (task_type : pyval) : M ChatResponse :=
  let safe_task_type :=
    match task_type with
    | PInt z => z
    | PStr _ => 1%Z
    end in
  rs <-
    (if decide (safe_task_type = 1%Z) then
       answer <- run_knowledge_query_with_sources env the_session_id ;;
       ret (answer, Some [])
     else
       result <- run_analysis_agent env the_session_id safe_task_type
                  (message request) ;;
       (* [len(result)] *)
       match result with
       | PStr s => ret (s, None)
       | PInt _ => raise (Exception_ (cps "object of type 'int' has no len()"))
       end) ;;
  let '(result, source_files) := rs in
  money <- settle rshub_token ;;
  vars <- persist_session rshub_token vars result ;;
  ret (respond (text result) success (Some (PInt safe_task_type)) vars source_files
               (Some money)).

(** Lines 177-591: from the classification result to the response. *)
Definition dispatch (rshub_token : pystr) (vars : chat_vars) (task_type : pyval)
    : M ChatResponse :=
  if decide (task_type = PInt (-100)) then
    ret (respond (canned user_aborted) user_aborted (Some task_type) vars None None)
  else if decide (task_type = PInt (-101)) then
    ret (respond (canned llm_timeout) llm_timeout (Some task_type) vars None None)
  else if decide (task_type = PInt (-102)) then
    ret (respond (canned network_error) network_error (Some task_type) vars None None)
  else if decide (task_type = PInt (-103)) then
    ret (respond (canned api_error) api_error (Some task_type) vars None None)
  else if decide (task_type = PInt 3 ∧ length (chat_history vars) = 0) then
    money <- settle rshub_token ;;
    ret (respond (canned guidance_provided) guidance_provided (Some (PInt 3)) vars
                 None (Some money))
  else if decide (task_type = PInt (-1)) then
    result <- run_analysis_agent env the_session_id (-1) (message request) ;;
    money <- settle rshub_token ;;
    let result := match result with PStr s => s | PInt _ => [] end in
    vars <- persist_session rshub_token vars result ;;
    ret (respond (text result) general_answer (Some (PInt (-1))) vars None (Some money))
  else
    preflight rshub_token ;;;
    second_stage rshub_token vars task_type.

(** Lines 154-591: the rest of the [try] body once the history is loaded. *)
Definition classify_and_dispatch (rshub_token : pystr) (vars : chat_vars)
    : M ChatResponse :=
  modify (with_billing (Billing.init_session the_session_id (now env))) ;;;
  task_type <- run_analysis_agent env the_session_id 0 (message request) ;;
  dispatch rshub_token vars task_type.

(** Lines 593-610: the two [except] clauses.  [vars] holds [chat_id] and
    [chat_title] as they are when the exception arrives: nothing that can
    raise comes after the session write that changes them. *)
Definition on_exception (vars : chat_vars) (e : exn) : M ChatResponse :=
  match e with
  | HTTPException _ => raise e
  | Exception_ message =>
      modify (with_billing (Billing.clear_session the_session_id)) ;;;
      ret (respond (text message) error None vars None None)
  end.

(** [agent_chat] *)
Definition agent_chat : M ChatResponse :=
  match Auth.get_rshub_token (settings_ env) (token request) with
  | None => raise (HTTPException 401)
  | Some rshub_token =>
      vars <- load_history rshub_token ;;
      try_except (classify_and_dispatch rshub_token vars) (on_exception vars)
  end.

End Turn.

(** The credit calls among the events of a trace. *)
Definition update_credits_calls (tr : list event) : list (pystr * Qc) :=
  omap (λ ev, match ev with UpdateCredits t d => Some (t, d) | _ => None end) tr.

Definition check_credits_calls (tr : list event) : list (pystr * Z) :=
  omap (λ ev, match ev with CheckCredits t n => Some (t, n) | _ => None end) tr.

(** The events that are the work of a branch handler. *)
Definition is_handler_event (ev : event) : bool :=
  match ev with
  | Workflow _ => true
  | LlmCall p => bool_decide (p ≠ cps "task_classification")
  | _ => false
  end.

Definition handler_events (tr : list event) : list event :=
  filter (λ ev, is_handler_event ev = true) tr.

End ChatRouter.

(** ** Concrete turns

    The environments and requests on which the statements below are
    evaluated.  The character tables are the ASCII ones. *)

Module Scenario.
Import Classifier Agent ChatRouter.

Definition the_token : pystr := cps "token-0123456789".

Definition the_request : ChatRequest :=
  {| message := cps "what is soil moisture?";
     session_id := Some (cps "s1");
     token := Some the_token;
     chat_id := None |}.

Definition the_settings (mode : deployment_mode) : settings :=
  {| DEPLOYMENT_MODE := mode;
     RSHUB_TOKEN := [];
     ENABLE_LOCAL_SESSION_CACHE := true;
     LLM_COST_FACTOR := 1%Qc;
     RSHUB_TASK_COST_FACTOR := 1%Qc |}.

(** A workflow or knowledge chain that made one LLM call. *)
Definition an_answer : workflow_outcome :=
  {| wf_llm_calls := 1; wf_rshub_tasks := 0; wf_result := cps "an answer" |}.

Definition enough : Credit.http_outcome := Credit.Http200 true None.
Definition not_enough : Credit.http_outcome := Credit.Http200 false None.
Definition never : nat → bool := λ _, false.

(** One turn on a service with no stored session: what the deployment
    mode is, what the classification call returned (or the fault that
    escaped it), what the knowledge chain did, what the balance check
    answered, and during which external calls the abort endpoint was
    served. *)
Definition turn (mode : deployment_mode) (classification : llm_outcome)
    (fault : option pystr) (chain : workflow_outcome + pystr)
    (check : Credit.http_outcome) (abort : nat → bool) : environment :=
  {| settings_ := the_settings mode;
     now := 7;
     fresh_uuid := cps "00000000-0000-4000-8000-000000000000";
     abort_during := abort;
     load_session_result := None;
     find_latest_session_result := None;
     create_session_result := (true, cps "chat-1", cps "what is soil moisture?");
     update_session_result := true;
     classification_llm := classification;
     classification_fault := fault;
     general_answer_llm := LlmResponse (cps "a general answer");
     workflow := λ _, an_answer;
     knowledge_chain := chain;
     check_credits_http := check;
     update_credits_http := Credit.Http200 true (Some (Billing.Qc_of_nat 10)) |}.

(** The process state before the turn: nothing counted, no progress
    entries, no abort flag. *)
Definition idle : world := World ∅ Progress.initial [] 0.

Definition chat (env : environment) : result ChatResponse * world :=
  @agent_chat ascii_tables env the_request idle.

(** What a test would read off a turn. *)
Definition calls (out : result ChatResponse * world) : list event :=
  filter (λ ev, is_external ev = true) (trace out.2).

Definition outcome (out : result ChatResponse * world)
    : status * option pyval + exn :=
  match out.1 with
  | Return resp => inl (status_ resp, task_type resp)
  | Raise e => inr e
  end.

Definition counter (out : result ChatResponse * world) : option (nat * nat) :=
  (λ c, (Billing.llm_calls c, Billing.rshub_tasks c)) <$> billing out.2 !! cps "s1".

End Scenario.

(** * The vocabulary of the statements

    The predicates and the observations the theorems below are phrased
    with.  None of them is part of the program. *)

(** ** Session store *)

Section SessionStatements.
Import ChatSession.






Definition demo_service (m : deployment_mode) (cache : bool) : ChatSessionService :=
  {| settings_ := {| DEPLOYMENT_MODE := m; RSHUB_TOKEN := [];
                     ENABLE_LOCAL_SESSION_CACHE := cache;
                     LLM_COST_FACTOR := 1%Qc; RSHUB_TASK_COST_FACTOR := 1%Qc |};
     enable_local_cache := cache;
     cleanup := no_cleanup |}.

Definition all_up : io_outcome :=
  {| local_write_ok := true; local_read_ok := true;
     rshub_write_ok := true; rshub_read_ok := true |}.

Definition rshub_down : io_outcome :=
  {| local_write_ok := true; local_read_ok := true;
     rshub_write_ok := false; rshub_read_ok := false |}.

Definition empty_stores : stores := Stores ∅ ∅ [].

(** Scenario S6 of the specification: 49 stored messages, one new pair. *)
Definition numbered (n : nat) : message := Message user [N.of_nat n] 0.
Definition s6_session : session_data :=
  SessionData (cps "s6") (cps "t") 0 0 (numbered <$> seq 0 49).
Definition s6_stores : stores :=
  Stores ∅ {[ (cps "tok", cps "s6") := s6_session ]} [].

End SessionStatements.

(** ** Progress channel *)

Section ProgressStatements.
Import Progress.

(** The messages a generator stopped inside its [while] loop still has to
    deliver from what is already published. *)
Definition backlog (session_id : pystr) (g : gen_state) (st : state)
    : option (list progress_data) :=
  match g with
  | GNew rest cur => Some (rest ++ drop cur (buffer st session_id))
  | GSleep last | GHeartbeat last => Some (drop last (buffer st session_id))
  | GClosed => Some []
  | GStart | GConnected | GHistory _ => None
  end.

End ProgressStatements.

(** ** Classifier *)

Section ClassifierStatements.
Import Classifier.
Context `{Unicode}.

(** Every token of [findall_ints] is an optional minus sign followed by at
    least one digit, so [int] is defined on it. *)
Definition well_formed_token (tok : pystr) : Prop :=
  match tok with
  | c :: ds => (c = minus ∧ ds ≠ [] ∧ Forall (λ d, is_digit d = true) ds)
               ∨ Forall (λ d, is_digit d = true) tok
  | [] => False
  end.

End ClassifierStatements.

(** ** The turn *)

Section TurnStatements.
Import Classifier Agent ChatRouter.
Context (env : environment) (request : ChatRequest).

(** A computation that only appends events satisfying [φ] to the trace. *)
Definition appends {A} (φ : event → Prop) (m : M A) : Prop :=
  ∀ w, ∃ evs, trace (m w).2 = trace w ++ evs ∧ Forall φ evs.

(** A computation whose value satisfies [P] when it returns and whose
    exception satisfies [Q] when it raises. *)
Definition yields {A} (P : A → Prop) (Q : exn → Prop) (m : M A) : Prop :=
  ∀ w, match (m w).1 with
       | Return a => P a
       | Raise e => Q e
       end.

(** A computation that does not raise. *)
Definition returns {A} (m : M A) : Prop := yields (λ _, True) (λ _, False) m.

(** Events that are neither a credit call nor a session write: all the
    agent emits. *)
Definition agent_event (ev : event) : Prop :=
  match ev with
  | LlmCall _ | Workflow _ | AbortRequested _ | AbortFlagCleared _ _ => True
  | _ => False
  end.

Definition not_update (ev : event) : Prop :=
  match ev with UpdateCredits _ _ => False | _ => True end.

Definition not_credit (ev : event) : Prop :=
  match ev with UpdateCredits _ _ | CheckCredits _ _ => False | _ => True end.

(** What a stage other than the settlement may emit in the current mode: in
    local mode no credit call at all, in production no [update_credits]. *)
Definition off_settlement (ev : event) : Prop :=
  match DEPLOYMENT_MODE (settings_ env) with
  | production => not_update ev
  | local => not_credit ev
  end.

(** The values the first stage can return: a string (a fault caught by
    [process_task]), or one of seven task codes; -100 is not among them,
    because the abort flag is read right after it has been cleared. *)
Definition classification_value (v : pyval) : Prop :=
  match v with
  | PStr _ => True
  | PInt z => z ∈ [-103; -102; -101; -1; 1; 2; 3]%Z
  end.

(** The exceptions of the agent are ordinary ones: an [HTTPException] is
    raised by the router only. *)
Definition ordinary (e : exn) : Prop :=
  match e with
  | Exception_ _ => True
  | HTTPException _ => False
  end.

Definition payment_required (e : exn) : Prop :=
  e = HTTPException 402 ∨ ordinary e.

(** The task codes a response can carry. *)
Definition returned_codes : list Z := [-103; -102; -101; -1; 1; 2; 3]%Z.

Definition coded (resp : ChatResponse) : Prop :=
  status_ resp ≠ error
  ∧ ∃ z, task_type resp = Some (PInt z) ∧ z ∈ returned_codes.

(** The statuses of the branches that run to their end, and the others. *)
Definition completed : list status := [success; general_answer; guidance_provided].
Definition failed : list status :=
  [user_aborted; llm_timeout; network_error; api_error; error].

(** The settlement discipline, as a statement about the events [evs] that a
    turn (or the rest of a turn) appended to the trace, about its result and
    about the state it left. *)
Definition settled (tok : pystr) (evs : list event) (r : result ChatResponse)
    (w' : world) : Prop :=
  match r with
  | Return resp =>
      match billing_info resp with
      | Some report =>
          status_ resp ∈ completed
          ∧ Billing.total_cost report
            = (Billing.Qc_of_nat (Billing.counted_llm_calls report)
                 * LLM_COST_FACTOR (settings_ env)
               + Billing.Qc_of_nat (Billing.counted_rshub_tasks report)
                 * RSHUB_TASK_COST_FACTOR (settings_ env))%Qc
          ∧ match DEPLOYMENT_MODE (settings_ env) with
            | production =>
                if Qc_positive (Billing.total_cost report)
                then update_credits_calls evs
                     = [(tok, (- Billing.total_cost report)%Qc)]
                     ∧ billing w' !! the_session_id env request = None
                else update_credits_calls evs = []
            | local =>
                update_credits_calls evs = [] ∧ check_credits_calls evs = []
            end
      | None => status_ resp ∈ failed ∧ update_credits_calls evs = []
      end
  | Raise _ => update_credits_calls evs = []
  end.

Definition settles (tok : pystr) (m : M ChatResponse) : Prop :=
  ∀ w, ∃ evs, trace (m w).2 = trace w ++ evs ∧ settled tok evs (m w).1 (m w).2.

End TurnStatements.

(** ** Billing tracker: histories of calls *)

Module BillingOps.
Import Billing.

(** A call of one of the methods of [BillingTracker] that change it. *)
Inductive op :=
  | InitSession (sid : pystr) (now : nat)
  | TrackLlmCall (sid purpose : pystr) (now : nat)
  | TrackRshubTask (sid task_name : pystr) (now : nat)
  | ClearSession (sid : pystr).

Definition step (o : op) (t : sessions) : sessions :=
  match o with
  | InitSession sid now => init_session sid now t
  | TrackLlmCall sid purpose now => track_llm_call sid purpose now t
  | TrackRshubTask sid task_name now => track_rshub_task sid task_name now t
  | ClearSession sid => clear_session sid t
  end.

Definition run (ops : list op) (t : sessions) : sessions := foldl (flip step) t ops.

Definition is_llm_call (sid : pystr) (o : op) : bool :=
  match o with
  | TrackLlmCall s _ _ => bool_decide (s = sid)
  | _ => false
  end.

Definition is_rshub_task (sid : pystr) (o : op) : bool :=
  match o with
  | TrackRshubTask s _ _ => bool_decide (s = sid)
  | _ => false
  end.

Definition is_clear (sid : pystr) (o : op) : bool :=
  match o with
  | ClearSession s => bool_decide (s = sid)
  | _ => false
  end.

Definition llm_calls_on (sid : pystr) (ops : list op) : nat :=
  length (filter (λ o, is_llm_call sid o = true) ops).

Definition rshub_tasks_on (sid : pystr) (ops : list op) : nat :=
  length (filter (λ o, is_rshub_task sid o = true) ops).

(** The report for [n] LLM calls and [m] submitted tasks. *)
Definition report_for (n m : nat) (llm_cost_factor rshub_cost_factor : Qc)
    : cost_report :=
  CostReport n m (Qc_of_nat n * llm_cost_factor)%Qc (Qc_of_nat m * rshub_cost_factor)%Qc
             (Qc_of_nat n * llm_cost_factor + Qc_of_nat m * rshub_cost_factor)%Qc.

(** The counts of a session in a tracker; a session it does not know has
    none. *)
Definition counts (sid : pystr) (t : sessions) : nat * nat :=
  match t !! sid with
  | Some c => (llm_calls c, rshub_tasks c)
  | None => (0, 0)
  end.

(** The bookkeeping of one counter: one detail entry per counted event. *)
Definition balanced (c : session_counter) : Prop :=
  length (details c) = llm_calls c + rshub_tasks c.

End BillingOps.

(** ** Progress channel: what a stopped generator holds, and the abort flag *)

Module ProgressOps.
Import Progress.

(** The messages a generator stopped at a [yield] of one of its [for]
    loops has already copied out of the buffer. *)
Definition pending (g : gen_state) : list progress_data :=
  match g with
  | GHistory rest | GNew rest _ => rest
  | _ => []
  end.

(** The steps of a schedule during which the subscriber of [session_id]
    stays: the client does not go away and nobody clears the session. *)
Definition stays (session_id : pystr) (a : action) : bool :=
  match a with
  | Env (Clear sid) => bool_decide (sid ≠ session_id)
  | Env (Publish _ _ _ _ _) | Resume => true
  | Close => false
  end.

(** The number of resumptions of a schedule. *)
Definition is_resume (a : action) : bool :=
  match a with Resume => true | _ => false end.

Definition resumptions (acts : list action) : nat :=
  length (filter (λ a, is_resume a = true) acts).

(** A generator that is stopped inside its [while] loop, whose connection
    is registered, and whose count of messages is a length that the buffer
    has had. *)
Definition listening (session_id connection_id : pystr) (g : gen_state)
    (st : state) : Prop :=
  connection_id ∈ connections st session_id
  ∧ match g with
    | GNew _ count | GSleep count | GHeartbeat count =>
        count ≤ length (buffer st session_id)
    | _ => False
    end.

(** The number of resumptions after which a generator in its loop has
    delivered what the buffer holds. *)
Definition todo (session_id : pystr) (g : gen_state) (st : state) : nat :=
  let news count := length (buffer st session_id) - count in
  match g with
  | GNew rest count =>
      length rest + (if decide (news count = 0) then 0 else news count + 2)
  | GSleep count => if decide (news count = 0) then 0 else news count + 1
  | GHeartbeat count => news count
  | _ => 0
  end.

(** The number of resumptions within which a generator whose connection
    is no longer registered has returned: it delivers what it has copied,
    and at most one more batch of at most 100 messages (10 for the
    history), before it checks its connection. *)
Definition resumptions_left (g : gen_state) : nat :=
  match g with
  | GStart => 12
  | GConnected => 11
  | GHistory rest | GNew rest _ => length rest + 1
  | GSleep _ => 102
  | GHeartbeat _ => 101
  | GClosed => 0
  end.

(** A call of one of the functions of the module that write one of its
    three dictionaries, outside the stream generator. *)
Inductive op :=
  | Abort (sid : pystr) (now : nat)
  | ClearAbortFlag (sid : pystr)
  | Report (sid message stage : pystr) (metadata : list (pystr * pystr)) (now : nat)
  | ClearProgress (sid : pystr).

Definition step (o : op) (st : state) : state :=
  match o with
  | Abort sid now => abort_session sid now st
  | ClearAbortFlag sid => clear_abort_flag sid st
  | Report sid m s md now => report_progress sid m s md now st
  | ClearProgress sid => clear_progress sid st
  end.

Definition run_ops (ops : list op) (st : state) : state := foldl (flip step) st ops.

(** What the calls say about the flag of [sid]: the last of the aborts and
    flag clears of that session decides; [flag] is the flag before. *)
Definition flag_after (sid : pystr) (ops : list op) (flag : bool) : bool :=
  foldl (λ flag o,
           match o with
           | Abort s _ => if decide (s = sid) then true else flag
           | ClearAbortFlag s => if decide (s = sid) then false else flag
           | Report _ _ _ _ _ | ClearProgress _ => flag
           end) flag ops.

End ProgressOps.

(** ** The turn: the session it continues and what it writes back *)

Section RecordStatements.
Import Agent ChatRouter.
Context (env : environment) (request : ChatRequest).

(** The stored session a turn continues: the one of the chat id of the
    request, or the latest one when the request names none. *)
Definition found : option ChatSession.session_data :=
  if Auth.truthy (chat_id request) then load_session_result env
  else find_latest_session_result env.

(** The session writes among the events of a trace: the user prompt and
    the answer handed to [create_session] or [update_session]. *)
Definition session_writes (tr : list event) : list (pystr * pystr) :=
  omap (λ ev, match ev with
              | CreateSession _ user_prompt ai_response
              | UpdateSession _ _ user_prompt ai_response =>
                  Some (user_prompt, ai_response)
              | _ => None
              end) tr.

Definition no_write (ev : event) : Prop :=
  match ev with
  | CreateSession _ _ _ | UpdateSession _ _ _ _ => False
  | _ => True
  end.

(** The statuses of the responses that carry an answer of the agent. *)
Definition answered : list status := [success; general_answer].

(** What a turn wrote to the session store, against what it answered:
    [evs] are the events the turn appended and [r] is its result. *)
Definition recorded (evs : list event) (r : result ChatResponse) : Prop :=
  match r with
  | Return resp =>
      if decide (status_ resp ∈ answered)
      then ∃ answer, response resp = text answer
                     ∧ session_writes evs = [(message request, answer)]
      else session_writes evs = []
  | Raise _ => session_writes evs = []
  end.

Definition records (m : M ChatResponse) : Prop :=
  ∀ w, ∃ evs, trace (m w).2 = trace w ++ evs ∧ recorded evs (m w).1.

End RecordStatements.

(** ** The cleanup of the session cache *)

Section CleanupStatements.
Import ChatSession SessionCleanup.

(** A list in ascending order of the time. *)
Fixpoint oldest_first (l : list (pystr * nat)) : Prop :=
  match l with
  | [] => True
  | x :: l' => Forall (λ y, x.2 ≤ y.2) l' ∧ oldest_first l'
  end.

(** The directory scan misses no file of the cache. *)
Definition scan_sees_all (glob : gmap pystr session_data → list pystr)
    (m : gmap pystr session_data) : Prop :=
  ∀ k, is_Some (m !! k) → k ∈ glob m.

(** The files of a directory in the order of their names' encoding, one
    possible order of a scan. *)
Definition glob_by_key (m : gmap pystr session_data) : list pystr :=
  (map_to_list m).*1.

End CleanupStatements.

(** ** Agent factory: histories of calls *)

Module FactoryOps.
Import AgentFactory.

Section Ops.
Context {agent_class : Type}.

(** A call of one of the two methods that change the factory. *)
Inductive op :=
  | Register (agent_type : pystr) (cls : agent_class) (config : AgentConfig)
  | SetDefault (agent_type : pystr).

(** A [set_default_agent_type] that raises leaves the factory as it
    was. *)
Definition step (o : op) (f : factory agent_class) : factory agent_class :=
  match o with
  | Register agent_type cls config => register_agent agent_type cls config f
  | SetDefault agent_type => default f (set_default_agent_type agent_type f)
  end.

Definition run (ops : list op) (f : factory agent_class) : factory agent_class :=
  foldl (flip step) f ops.

(** The invariant of the factory: the two dictionaries have the same
    keys, in the same order. *)
Definition aligned (f : factory agent_class) : Prop :=
  dict_keys (_agent_configs f) = dict_keys (_agent_classes f).

(** What every history of calls keeps. *)
Definition well_formed (f : factory agent_class) : Prop :=
  NoDup (list_agent_types f) ∧ aligned f.

End Ops.

Global Arguments op : clear implicits.

End FactoryOps.

(** * Properties of the session store *)

Section ChatSessionFacts.
Import ChatSession.
Context (svc : ChatSessionService) (io : io_outcome) (now : nat).






(** The log only grows, and each primitive appends at most one entry. *)
Lemma save_local_log mirror sid d st :
  ∃ evs, io_log (_save_session_to_local svc io now mirror sid d st).2 = io_log st ++ evs
         ∧ (∀ d', d' ∈ writes_of evs → mirror = false ∧ d' = d).
Proof.
  unfold _save_session_to_local.
  destruct (enable_local_cache svc); simpl.
  - destruct (local_write_ok io), mirror; simpl; eexists; (split; [done|]);
      intros d'; unfold writes_of; simpl; set_solver.
  - exists []. rewrite app_nil_r. split; [done|]. set_solver.
Qed.


Lemma load_session_log token sid st :
  ∃ evs, io_log (load_session svc io now token sid st).2 = io_log st ++ evs
         ∧ writes_of evs = [].
Proof.
  assert (Hnil : ∃ evs, io_log st = io_log st ++ evs ∧ writes_of evs = []).
  { exists []. by rewrite app_nil_r. }
  assert (Hmirror : ∀ d, ∃ evs,
    io_log (_save_session_to_local svc io now true sid d st).2 = io_log st ++ evs
    ∧ writes_of evs = []).
  { intros d. destruct (save_local_log true sid d st) as (evs & -> & Hw).
    exists evs. split; [done|].
    destruct (writes_of evs) as [|d' ?] eqn:E; [done|].
    assert (d' ∈ d' :: l) as Hd' by apply list_elem_of_here.
    by destruct (Hw d' Hd'). }
  unfold load_session.
  destruct (DEPLOYMENT_MODE _), (enable_local_cache svc) eqn:Hc; simpl;
    repeat (match goal with
            | |- context [match ?x with _ => _ end] => destruct x eqn:?
            end; simpl); auto.
Qed.

End ChatSessionFacts.

Section ChatSessionClaims.
Import ChatSession.





(** The success flag of a create is the outcome of the local write,
    whatever the mode and the remote outcome. *)
Lemma create_session_success svc io now i t tok u a st :
  cr_success (create_session svc io now i t tok u a st).1
  = enable_local_cache svc && local_write_ok io.
Proof.
  unfold create_session, _save_session_to_local, _save_session_to_rshub.
  by destruct (enable_local_cache svc), (local_write_ok io), (rshub_write_ok io).
Qed.

(** The remote store after a create holds the session exactly when the
    remote write went through (for a session id that was not there). *)
Lemma create_session_remote svc io now i t tok u a st :
  rshub st !! (tok, i) = None →
  is_Some (rshub (create_session svc io now i t tok u a st).2 !! (tok, i))
  ↔ rshub_write_ok io = true.
Proof.
  intros Hnew. unfold create_session, _save_session_to_local, _save_session_to_rshub.
  destruct (enable_local_cache svc), (local_write_ok io), (rshub_write_ok io);
    simpl; rewrite ?lookup_insert_eq, ?Hnew;
    (split; [try done; by intros [? [=]]|try done; by eexists]).
Qed.

(** C6 (defect in [create_session]).  The operation never looks at the
    deployment mode: for every input it reports what the local cache write
    returned.  In production, with the remote store failing, a create is
    reported as a success although the remote store does not hold the
    session; and with the local cache disabled a create is reported as a
    failure although the remote store holds it. *)
Theorem create_session_reports_local_write :
  (∀ svc io now i t tok u a st,
     cr_success (create_session svc io now i t tok u a st).1
     = enable_local_cache svc && local_write_ok io)
  ∧ let run cache io :=
      create_session (demo_service production cache) io 7
        (cps "1700000000000") (cps "title") (cps "tok") (cps "hello") (cps "hi")
        empty_stores in
    (cr_success (run true rshub_down).1 = true
     ∧ cr_rshub_sync (run true rshub_down).1 = Some false
     ∧ rshub (run true rshub_down).2 !! (cps "tok", cps "1700000000000") = None)
    ∧ (cr_success (run false all_up).1 = false
       ∧ is_Some (rshub (run false all_up).2 !! (cps "tok", cps "1700000000000"))).
Proof.
  split; [apply create_session_success|].
  vm_compute. split_and!; try done. by eexists.
Qed.

End ChatSessionClaims.

(** * Properties of the progress channel *)

Section ProgressFacts.
Import Progress.
Context (session_id connection_id : pystr) (now : nat).

Abbreviation run := (run session_id connection_id now).
Abbreviation resume := (resume session_id connection_id now).
Abbreviation published := (published session_id).
Abbreviation published_by := (published_by session_id).
Abbreviation backlog := (backlog session_id).

Lemma buffer_report sid m s md t st :
  buffer (report sid m s md t st) sid
  = drop (length (buffer st sid) + 1 - max_messages_per_session)
         (buffer st sid ++ [ProgressData sid m s t md]).
Proof.
  unfold report, buffer at 1, max_messages_per_session, slice_last. simpl.
  rewrite lookup_insert_eq. simpl. rewrite length_app. simpl.
  destruct (decide (100 < length (buffer st sid) + 1)).
  - destruct (decide (100 = 0)); [lia|done].
  - replace (length (buffer st sid) + 1 - 100) with 0 by lia. done.
Qed.

Lemma buffer_report_ne sid sid' m s md t st :
  sid' ≠ sid → buffer (report sid' m s md t st) sid = buffer st sid.
Proof.
  intros Hne. unfold report, buffer. simpl. by rewrite lookup_insert_ne.
Qed.

Lemma buffer_clear sid sid' st :
  buffer (clear_progress sid' st) sid
  = if decide (sid' = sid) then [] else buffer st sid.
Proof.
  unfold clear_progress, buffer. simpl.
  destruct (decide (sid' = sid)) as [->|Hne].
  - by rewrite lookup_delete_eq.
  - by rewrite lookup_delete_ne.
Qed.

Lemma drop_drop_sublist {A} (n k : nat) (l : list A) :
  drop n (drop k l) `sublist_of` drop n l.
Proof.
  rewrite drop_drop. replace (k + n) with (n + k) by lia.
  rewrite <- drop_drop. apply sublist_drop.
Qed.

(** Whatever the rest of the process does in one step, the part of the
    buffer from a given index on only gains what was just published. *)
Lemma env_step_backlog (e : env_action) (n : nat) (st : state) :
  drop n (buffer (env_step e st) session_id)
  `sublist_of` drop n (buffer st session_id) ++ published_by e.
Proof.
  destruct e as [sid m s md t|sid]; simpl.
  - unfold report_progress. destruct (decide (sid = session_id)) as [->|Hne].
    + rewrite buffer_report.
      etrans; [apply drop_drop_sublist|].
      rewrite drop_app. apply sublist_app; [done|apply sublist_drop].
    + rewrite buffer_report_ne by done. by rewrite app_nil_r.
  - rewrite buffer_clear, app_nil_r. destruct (decide (sid = session_id)).
    + rewrite drop_nil. apply sublist_nil_l.
    + done.
Qed.

Lemma backlog_env_step e g st bl :
  backlog g st = Some bl →
  ∃ bl', backlog g (env_step e st) = Some bl'
         ∧ bl' `sublist_of` bl ++ published_by e.
Proof.
  destruct g; simpl; intros [= <-]; eexists; (split; [done|]).
  - rewrite <- app_assoc. apply sublist_app; [done|apply env_step_backlog].
  - apply env_step_backlog.
  - apply env_step_backlog.
  - apply sublist_nil_l.
Qed.

Lemma buffer_finally st :
  ∀ n, drop n (buffer (finally session_id connection_id st) session_id)
       `sublist_of` drop n (buffer st session_id).
Proof.
  intros n. unfold finally. destruct (decide _); [|done].
  unfold buffer at 1. simpl. rewrite lookup_delete_eq. simpl.
  rewrite drop_nil. apply sublist_nil_l.
Qed.

Lemma after_new_messages_spec last st :
  ∃ g' st', after_new_messages session_id connection_id last st = (None, g', st')
            ∧ ∃ bl', backlog g' st' = Some bl'
                     ∧ bl' `sublist_of` drop last (buffer st session_id).
Proof.
  unfold after_new_messages. destruct (decide _).
  - do 2 eexists. split; [done|]. simpl. eauto.
  - do 2 eexists. split; [done|]. simpl. eexists. split; [done|apply sublist_nil_l].
Qed.

Lemma loop_spec last st :
  ∃ o g' st' bl',
    loop session_id connection_id last st = (o, g', st')
    ∧ backlog g' st' = Some bl'
    ∧ data_of (from_option (λ x, [x]) [] o) ++ bl'
        `sublist_of` drop last (buffer st session_id).
Proof.
  unfold loop. destruct (decide _) as [Hlt|Hge].
  - destruct (drop last (buffer st session_id)) as [|msg rest] eqn:Hdrop.
    + destruct (after_new_messages_spec (length (buffer st session_id)) st)
        as (g' & st' & -> & bl' & Hbl & Hsub).
      exists None, g', st', bl'. split_and!; [done|done|].
      rewrite drop_all in Hsub. simpl. by apply sublist_nil_r in Hsub as ->.
    + exists (Some (SseData msg)), (GNew rest (length (buffer st session_id))), st.
      eexists. split_and!; [done|done|]. simpl. by rewrite drop_all, app_nil_r.
  - destruct (after_new_messages_spec last st) as (g' & st' & -> & bl' & Hbl & Hsub).
    exists None, g', st', bl'. by split_and!.
Qed.

(** Live delivery: a generator inside its loop delivers a subsequence, in
    order, of its backlog followed by what is published from now on. *)
Lemma live_order (post : list action) :
  ∀ g st bl, backlog g st = Some bl →
    data_of (run post g st).1.1 `sublist_of` bl ++ published post.
Proof.
  induction post as [|a post IH]; intros g st bl Hbl.
  { simpl. apply sublist_nil_l. }
  destruct a as [e| |]; simpl.
  - destruct (backlog_env_step e g st bl Hbl) as (bl' & Hbl' & Hsub).
    etrans; [apply (IH _ _ _ Hbl')|].
    unfold published. simpl. fold (published post).
    rewrite app_assoc. by apply sublist_app.
  - assert (∃ o g' st' bl', resume g st = (o, g', st') ∧ backlog g' st' = Some bl'
              ∧ data_of (from_option (λ x, [x]) [] o) ++ bl' `sublist_of` bl)
      as (o & g' & st' & bl' & -> & Hbl' & Hsub).
    { destruct g as [| |rest|rest cur|last|last|]; simpl in Hbl; simplify_eq.
      - destruct rest as [|msg rest]; simpl.
        + destruct (after_new_messages_spec cur st) as (g' & st' & -> & bl' & ? & ?).
          by exists None, g', st', bl'.
        + exists (Some (SseData msg)), (GNew rest cur), st. eexists.
          by split_and!.
      - exists (Some SseHeartbeat), (GHeartbeat last), st. eexists. by split_and!.
      - simpl. apply loop_spec.
      - exists None, GClosed, st, []. by split_and!. }
    specialize (IH g' st' bl' Hbl').
    destruct (run post g' st') as [[os g''] st'']. simpl in *.
    unfold data_of in *. rewrite bind_app.
    etrans; [apply sublist_app; [done|apply IH]|].
    rewrite app_assoc. apply sublist_app; [done|].
    unfold published. by simpl.
  - assert (∃ g' st', close session_id connection_id g st = (g', st')
                      ∧ backlog g' st' = Some []) as (g' & st' & -> & Hbl').
    { destruct g; simpl; eauto. }
    etrans; [apply (IH _ _ _ Hbl')|].
    simpl. unfold published. simpl. apply sublist_inserts_l. done.
Qed.

(** A generator that has returned delivers nothing. *)
Lemma closed_silent (post : list action) :
  ∀ st, (run post GClosed st).1.1 = [].
Proof.
  induction post as [|[e| |] post IH]; intros st; simpl; [done|done| |done].
  specialize (IH st). by destruct (run post GClosed st) as [[os g] st'].
Qed.

(** Replay: a generator stopped in the history loop delivers the rest of its
    slice in order; live messages come only after the whole slice. *)
Lemma history_then_live (post : list action) :
  ∀ rest st, ∃ k live,
    data_of (run post (GHistory rest) st).1.1 = take k rest ++ live
    ∧ (live = [] ∨ length rest ≤ k)
    ∧ live `sublist_of` published post.
Proof.
  induction post as [|a post IH]; intros rest st.
  { exists 0, []. simpl. by split_and!; [|left|]. }
  destruct a as [e| |]; simpl.
  - destruct (IH rest (env_step e st)) as (k & live & -> & Hk & Hsub).
    exists k, live. split_and!; [done|done|].
    unfold published. simpl. by apply sublist_inserts_l.
  - destruct rest as [|msg rest]; simpl.
    + destruct (loop_spec (length (buffer st session_id)) st)
        as (o & g' & st' & bl' & -> & Hbl' & Hsub).
      rewrite drop_all in Hsub. apply sublist_nil_r in Hsub.
      apply app_eq_nil in Hsub as [Ho ->].
      pose proof (live_order post g' st' [] Hbl') as Hlive.
      destruct (run post g' st') as [[os g''] st'']. simpl in *.
      exists 0, (data_of os). unfold data_of in *. rewrite bind_app.
      rewrite Ho. simpl. split_and!; [done|right; lia|done].
    + destruct (IH rest st) as (k & live & Hd & Hk & Hsub).
      destruct (run post (GHistory rest) st) as [[os g''] st'']. simpl in *.
      exists (S k), live. rewrite Hd. simpl. split_and!; [done| |done].
      destruct Hk; [by left|right; lia].
  - exists 0, []. rewrite closed_silent. simpl.
    split_and!; [done|by left|apply sublist_nil_l].
Qed.

End ProgressFacts.

Section StreamFacts.
Import Progress ProgressOps.
Context (session_id connection_id : pystr) (now : nat).

Abbreviation run := (run session_id connection_id now).
Abbreviation resume := (resume session_id connection_id now).
Abbreviation close := (close session_id connection_id).
Abbreviation finally := (finally session_id connection_id).
Abbreviation after_new_messages := (after_new_messages session_id connection_id).
Abbreviation loop := (loop session_id connection_id).

Lemma env_step_bounded e st :
  length (buffer st session_id) ≤ max_messages_per_session →
  length (buffer (env_step e st) session_id) ≤ max_messages_per_session.
Proof.
  intros Hst. destruct e as [sid m s md t|sid]; simpl.
  - unfold report_progress. destruct (decide (sid = session_id)) as [->|Hne].
    + rewrite buffer_report, length_drop, length_app. simpl. lia.
    + by rewrite buffer_report_ne.
  - rewrite buffer_clear. destruct (decide _); [simpl; lia|done].
Qed.

Lemma finally_bounded st :
  length (buffer st session_id) ≤ max_messages_per_session →
  length (buffer (finally st) session_id) ≤ max_messages_per_session.
Proof.
  intros Hst. unfold Progress.finally. destruct (decide _); [|done].
  unfold buffer. simpl. rewrite lookup_delete_eq. simpl. lia.
Qed.

Lemma env_step_connections a e st :
  a = Env e → stays session_id a = true →
  connections (env_step e st) session_id = connections st session_id.
Proof.
  intros -> Hs. destruct e as [sid m s md t|sid]; [done|]. simpl in *.
  apply bool_decide_eq_true in Hs. unfold connections, clear_progress. simpl.
  destruct (decide _); [|done]. by rewrite lookup_insert_ne.
Qed.

Lemma env_step_abort_flags e st : abort_flags (env_step e st) = abort_flags st.
Proof. by destruct e. Qed.

Lemma finally_abort_flags st : abort_flags (finally st) = abort_flags st.
Proof. unfold Progress.finally. by destruct (decide _). Qed.

Lemma resume_abort_flags g st : abort_flags (resume g st).2 = abort_flags st.
Proof.
  assert (Hafter : ∀ last st0,
    abort_flags (after_new_messages last st0).2 = abort_flags st0).
  { intros last st0. unfold Progress.after_new_messages.
    destruct (decide _); [done|apply finally_abort_flags]. }
  assert (Hloop : ∀ last st0, abort_flags (loop last st0).2 = abort_flags st0).
  { intros last st0. unfold Progress.loop. destruct (decide _); [|apply Hafter].
    destruct (drop _ _); [apply Hafter|done]. }
  destruct g as [| |[|msg rest]|[|msg rest] cur|last|last|]; simpl; try done;
    try apply Hloop; try apply Hafter.
  destruct (if decide _ then _ else _); [apply Hloop|done].
Qed.

Lemma close_abort_flags g st : abort_flags (close g st).2 = abort_flags st.
Proof. destruct g; simpl; try done; apply finally_abort_flags. Qed.

Lemma run_abort_flags acts g st : abort_flags (run acts g st).2 = abort_flags st.
Proof.
  revert g st. induction acts as [|[e| |] acts IH]; intros g st; simpl.
  - done.
  - by rewrite IH, env_step_abort_flags.
  - pose proof (resume_abort_flags g st) as Hr.
    destruct (resume g st) as [[o g'] st']. specialize (IH g' st').
    destruct (run acts g' st') as [[os g''] st'']. simpl in *. congruence.
  - pose proof (close_abort_flags g st) as Hc.
    destruct (close g st) as [g' st']. rewrite IH. done.
Qed.

(** Delivering what a [for] loop has copied: one message per resumption,
    and nothing else happens. *)
Lemma run_history rest acts st :
  run (replicate (length rest) Resume ++ acts) (GHistory rest) st
  = let '(os, g, st') := run acts (GHistory []) st in
    ((SseData <$> rest) ++ os, g, st').
Proof.
  induction rest as [|msg rest IH]; simpl.
  - by destruct (run acts (GHistory []) st) as [[os g] st'].
  - rewrite IH. by destruct (run acts (GHistory []) st) as [[os g] st'].
Qed.

Lemma run_new rest cur acts st :
  run (replicate (length rest) Resume ++ acts) (GNew rest cur) st
  = let '(os, g, st') := run acts (GNew [] cur) st in
    ((SseData <$> rest) ++ os, g, st').
Proof.
  induction rest as [|msg rest IH]; simpl.
  - by destruct (run acts (GNew [] cur) st) as [[os g] st'].
  - rewrite IH. by destruct (run acts (GNew [] cur) st) as [[os g] st'].
Qed.

Lemma run_Resume acts g st :
  run (Resume :: acts) g st
  = let '(o, g', st') := resume g st in
    let '(os, g'', st'') := run acts g' st' in
    (from_option (λ x, [x]) [] o ++ os, g'', st'').
Proof. done. Qed.

Lemma run_closed n st : run (replicate n Resume) GClosed st = ([], GClosed, st).
Proof. induction n as [|n IH]; simpl; [done|]. by rewrite IH. Qed.

Lemma data_of_data l : data_of (SseData <$> l) = l.
Proof. induction l as [|d l IH]; simpl; [done|]. by f_equal. Qed.

Lemma connections_clear st : connections (clear_progress session_id st) session_id = ∅.
Proof.
  unfold connections, clear_progress. simpl. destruct (decide _) as [Hs|Hn].
  - by rewrite lookup_insert_eq.
  - destruct (active_connections st !! session_id) eqn:E; [|done].
    destruct Hn. by eexists.
Qed.

(** What the [finally] block leaves when no other subscriber is
    registered. *)
Lemma finally_last st :
  connections st session_id ⊆ {[connection_id]} →
  progress_storage (finally st) !! session_id = None
  ∧ active_connections (finally st) !! session_id = None.
Proof.
  intros Hc. unfold Progress.finally. destruct (decide _) as [_|Hne].
  - simpl. by rewrite !lookup_delete_eq.
  - destruct Hne. set_solver.
Qed.

(** A registered subscriber that is resumed stays in its loop and leaves
    the three dictionaries alone. *)
Lemma resume_registered g st :
  g ≠ GStart → g ≠ GClosed →
  connection_id ∈ connections st session_id →
  ∃ o g', resume g st = (o, g', st) ∧ g' ≠ GStart ∧ g' ≠ GClosed.
Proof.
  intros Hs Hc Hreg.
  assert (Hafter : ∀ last, after_new_messages last st = (None, GSleep last, st)).
  { intros last. unfold Progress.after_new_messages.
    destruct (decide _) as [_|Hn]; [done|by destruct Hn]. }
  assert (Hloop : ∀ last, ∃ o g',
    loop last st = (o, g', st) ∧ g' ≠ GStart ∧ g' ≠ GClosed).
  { intros last. unfold Progress.loop.
    destruct (decide _); [|by rewrite Hafter; eauto].
    destruct (drop _ _); [by rewrite Hafter; eauto|by eauto]. }
  destruct g as [| |[|msg rest]|[|msg rest] cur|last|last|]; simpl;
    try done; try apply Hloop; try (rewrite Hafter); eauto.
  destruct (if decide _ then _ else _); [apply Hloop|eauto].
Qed.

End StreamFacts.

Section FlagFacts.
Import Progress ProgressOps.

Lemma flag_step sid o st :
  is_session_aborted sid (step o st)
  = flag_after sid [o] (is_session_aborted sid st).
Proof.
  unfold is_session_aborted. destruct o as [s t|s|s m g md t|s]; simpl.
  - destruct (decide (s = sid)) as [->|Hne].
    + by rewrite lookup_insert_eq.
    + by rewrite lookup_insert_ne.
  - destruct (decide (s = sid)) as [->|Hne].
    + by rewrite lookup_delete_eq.
    + by rewrite lookup_delete_ne.
  - done.
  - done.
Qed.

End FlagFacts.

Section DeliveryFacts.
Import Progress ProgressOps.
Context (session_id connection_id : pystr) (now : nat).

Abbreviation run := (run session_id connection_id now).
Abbreviation resume := (resume session_id connection_id now).
Abbreviation after_new_messages := (after_new_messages session_id connection_id).
Abbreviation loop := (loop session_id connection_id).
Abbreviation published := (published session_id).
Abbreviation published_by := (published_by session_id).
Abbreviation listening := (listening session_id connection_id).
Abbreviation todo := (todo session_id).
Abbreviation stays := (stays session_id).

Lemma stream_run_app (a b : list action) (g : gen_state) (st : state) :
  run (a ++ b) g st
  = let '(o1, g1, st1) := run a g st in
    let '(o2, g2, st2) := run b g1 st1 in
    (o1 ++ o2, g2, st2).
Proof.
  revert g st. induction a as [|[e| |] a IH]; intros g st; simpl.
  - by destruct (run b g st) as [[o2 g2] st2].
  - apply IH.
  - destruct (resume g st) as [[o g'] st']. rewrite IH.
    destruct (run a g' st') as [[o1 g1] st1].
    destruct (run b g1 st1) as [[o2 g2] st2]. by rewrite app_assoc.
  - destruct (close session_id connection_id g st) as [g' st']. apply IH.
Qed.

Lemma run_envs (es : list env_action) (acts : list action) (g : gen_state)
    (st : state) :
  run ((Env <$> es) ++ acts) g st = run acts g (foldl (flip env_step) st es).
Proof. revert st. induction es as [|e es IH]; intros st; simpl; [done|]. by rewrite IH. Qed.

Lemma published_app (a b : list action) : published (a ++ b) = published a ++ published b.
Proof. unfold Progress.published. by rewrite bind_app. Qed.

Lemma published_resumes (n : nat) : published (replicate n Resume) = [].
Proof. induction n as [|n IH]; [done|]. simpl. exact IH. Qed.

Lemma data_of_app (o1 o2 : list sse) : data_of (o1 ++ o2) = data_of o1 ++ data_of o2.
Proof. unfold data_of. by rewrite bind_app. Qed.

(** While the buffer has room, a publish appends to it; what is done for
    other sessions leaves it alone. *)
Lemma buffer_env_step (e : env_action) (st : state) :
  stays (Env e) = true →
  length (buffer st session_id) + length (published_by e) ≤ max_messages_per_session →
  buffer (env_step e st) session_id = buffer st session_id ++ published_by e.
Proof.
  intros Hs Hroom. destruct e as [sid m s md t|sid]; simpl in *.
  - unfold report_progress. destruct (decide (sid = session_id)) as [->|Hne].
    + rewrite buffer_report. simpl in Hroom.
      replace (_ + 1 - _) with 0 by lia. done.
    + rewrite buffer_report_ne by done. by rewrite app_nil_r.
  - apply bool_decide_eq_true in Hs. rewrite buffer_clear, app_nil_r.
    by destruct (decide _).
Qed.

Lemma connections_env_step (e : env_action) (st : state) :
  stays (Env e) = true →
  connections (env_step e st) session_id = connections st session_id.
Proof. intros Hs. by eapply env_step_connections. Qed.

Lemma connections_env_steps (es : list env_action) (st : state) :
  Forall (λ e, stays (Env e) = true) es →
  connections (foldl (flip env_step) st es) session_id = connections st session_id.
Proof.
  intros Hes. revert st. induction Hes as [|e es He _ IH]; intros st; [done|].
  simpl. by rewrite IH, connections_env_step.
Qed.

Lemma after_new_messages_registered (count : nat) (st : state) :
  connection_id ∈ connections st session_id →
  after_new_messages count st = (None, GSleep count, st).
Proof.
  intros Hreg. unfold Progress.after_new_messages.
  destruct (decide _) as [_|Hn]; [done|by destruct Hn].
Qed.

(** Entering the [while] loop: the count starts at the length of the
    buffer, so nothing of what the buffer holds is new. *)
Lemma loop_entry (st : state) :
  connection_id ∈ connections st session_id →
  loop (length (buffer st session_id)) st
  = (None, GSleep (length (buffer st session_id)), st).
Proof.
  intros Hreg. unfold Progress.loop.
  destruct (decide _) as [Hlt|_]; [lia|]. by apply after_new_messages_registered.
Qed.

(** One step of the rest of the process, seen from a listening generator. *)
Lemma listening_env_step (e : env_action) (g : gen_state) (st : state)
    (bl : list progress_data) :
  listening g st → backlog session_id g st = Some bl → stays (Env e) = true →
  length (buffer st session_id) + length (published_by e) ≤ max_messages_per_session →
  listening g (env_step e st)
  ∧ backlog session_id g (env_step e st) = Some (bl ++ published_by e).
Proof.
  intros [Hreg Hcount] Hbl Hs Hroom.
  pose proof (buffer_env_step e st Hs Hroom) as Hbuf.
  unfold ProgressOps.listening, backlog in *.
  rewrite connections_env_step, Hbuf by done.
  destruct g as [| |rest|rest count|count|count|]; try done;
    simplify_eq; (split; [split; [done|rewrite length_app; lia]|]);
    rewrite drop_app_le by done; by rewrite ?app_assoc.
Qed.

(** One resumption of a listening generator: it delivers the head of its
    backlog or nothing, and stays listening. *)
Lemma listening_resume (g : gen_state) (st : state) (bl : list progress_data) :
  listening g st → backlog session_id g st = Some bl →
  ∃ o g', resume g st = (o, g', st) ∧ listening g' st
          ∧ (∃ bl', backlog session_id g' st = Some bl'
                    ∧ data_of (from_option (λ x, [x]) [] o) ++ bl' = bl)
          ∧ todo g' st ≤ todo g st - 1.
Proof.
  intros [Hreg Hcount] Hbl.
  unfold ProgressOps.listening, backlog, ProgressOps.todo in *.
  destruct g as [| |rest|[|msg rest] count|count|count|]; try done; simplify_eq.
  - exists None, (GSleep count). simpl.
    rewrite after_new_messages_registered by done.
    split_and!; [done|done|done|by eexists|].
    destruct (decide _); simpl; lia.
  - exists (Some (SseData msg)), (GNew rest count). simpl.
    split_and!; [done|done|done|by eexists|lia].
  - exists (Some SseHeartbeat), (GHeartbeat count). simpl.
    split_and!; [done|done|done|by eexists|].
    destruct (decide _); lia.
  - simpl. unfold Progress.loop.
    destruct (decide (count < length (buffer st session_id))) as [Hlt|Hge].
    + destruct (drop count (buffer st session_id)) as [|msg rest] eqn:Hdrop.
      { apply (f_equal length) in Hdrop. rewrite length_drop in Hdrop.
        simpl in Hdrop. lia. }
      exists (Some (SseData msg)), (GNew rest (length (buffer st session_id))).
      split_and!; [done|done|done| |].
      * eexists. split; [done|]. simpl. by rewrite drop_all, app_nil_r.
      * apply (f_equal length) in Hdrop. rewrite length_drop in Hdrop.
        simpl in Hdrop. rewrite Nat.sub_diag.
        destruct (decide (0 = 0)); [|done]. lia.
    + exists None, (GSleep count).
      rewrite after_new_messages_registered by done.
      split_and!; [done|done|done|by eexists|].
      destruct (decide _); lia.
Qed.

(** Nothing is lost and nothing comes twice while the buffer has room:
    what a listening generator has delivered and what it still has to
    deliver are, together, what it had to deliver and what has been
    published since. *)
Lemma listening_run (acts : list action) :
  ∀ g st bl,
    listening g st → backlog session_id g st = Some bl →
    Forall (λ a, stays a = true) acts →
    length (buffer st session_id) + length (published acts)
      ≤ max_messages_per_session →
    ∃ bl', listening (run acts g st).1.2 (run acts g st).2
           ∧ backlog session_id (run acts g st).1.2 (run acts g st).2 = Some bl'
           ∧ data_of (run acts g st).1.1 ++ bl' = bl ++ published acts
           ∧ length (buffer (run acts g st).2 session_id)
             = length (buffer st session_id) + length (published acts).
Proof.
  induction acts as [|a acts IH]; intros g st bl Hl Hbl Hstay Hroom.
  { exists bl. simpl. rewrite app_nil_r. split_and!; [done|done|done|lia]. }
  apply list.Forall_cons in Hstay as [Ha Hstay].
  destruct a as [e| |]; [| |done].
  - change (published (Env e :: acts)) with (published_by e ++ published acts) in *.
    rewrite length_app in Hroom.
    destruct (listening_env_step e g st bl Hl Hbl Ha ltac:(lia)) as [Hl' Hbl'].
    pose proof (buffer_env_step e st Ha ltac:(lia)) as Hbuf.
    destruct (IH g (env_step e st) _ Hl' Hbl' Hstay) as (bl' & ? & ? & Hd & Hlen).
    { rewrite Hbuf, length_app. lia. }
    exists bl'. simpl. split_and!; [done|done|by rewrite Hd, app_assoc|].
    rewrite Hlen, Hbuf, !length_app. lia.
  - change (published (Resume :: acts)) with (published acts) in *.
    destruct (listening_resume g st bl Hl Hbl)
      as (o & g' & Hr & Hl' & (bl1 & Hbl1 & Hd1) & _).
    destruct (IH g' st bl1 Hl' Hbl1 Hstay Hroom) as (bl' & Hl2 & Hbl2 & Hd & Hlen).
    exists bl'. simpl. rewrite Hr.
    destruct (run acts g' st) as [[os g''] st'']. simpl in *.
    split_and!; [done|done| |done].
    rewrite data_of_app, <- app_assoc, Hd, app_assoc, Hd1. done.
Qed.

(** A listening generator that is resumed often enough has delivered its
    backlog. *)
Lemma listening_drain (n : nat) :
  ∀ g st, listening g st → todo g st ≤ n →
          backlog session_id (run (replicate n Resume) g st).1.2
                  (run (replicate n Resume) g st).2 = Some [].
Proof.
  induction n as [|n IH]; intros g st Hl Htodo.
  - simpl. destruct Hl as [_ Hcount].
    unfold ProgressOps.todo, backlog in *.
    destruct g as [| |rest|rest count|count|count|]; try done.
    + destruct (decide _) as [Hz|]; [|lia].
      assert (rest = []) as -> by (destruct rest; [done|simpl in Htodo; lia]).
      rewrite drop_ge by lia. done.
    + destruct (decide _) as [Hz|]; [|lia]. by rewrite drop_ge by lia.
    + by rewrite drop_ge by lia.
  - destruct (backlog session_id g st) as [bl|] eqn:Hbl.
    2:{ destruct Hl as [_ Hcount]. by destruct g. }
    destruct (listening_resume g st bl Hl Hbl) as (o & g' & Hr & Hl' & _ & Hdec).
    specialize (IH g' st Hl' ltac:(lia)).
    simpl. rewrite Hr. by destruct (run (replicate n Resume) g' st) as [[os g''] st''].
Qed.

Lemma todo_backlog (g : gen_state) (st : state) (bl : list progress_data) :
  listening g st → backlog session_id g st = Some bl → todo g st ≤ length bl + 2.
Proof.
  intros [_ Hcount] Hbl.
  unfold ProgressOps.todo, backlog in *.
  destruct g as [| |rest|rest count|count|count|]; try done; simplify_eq;
    rewrite ?length_app, length_drop; try destruct (decide _); lia.
Qed.

(** Live delivery, exactly: a listening generator that is run against a
    schedule of publishes and resumptions during which the buffer has room,
    and is then resumed often enough, has delivered its backlog and then
    every message published meanwhile, once each and in the order of the
    publishes. *)
Lemma listening_delivers (acts : list action) (n : nat) (g : gen_state)
    (st : state) (bl : list progress_data) :
  listening g st → backlog session_id g st = Some bl →
  Forall (λ a, stays a = true) acts →
  length (buffer st session_id) + length (published acts)
    ≤ max_messages_per_session →
  length bl + length (published acts) + 2 ≤ n →
  data_of (run (acts ++ replicate n Resume) g st).1.1 = bl ++ published acts.
Proof.
  intros Hl Hbl Hstay Hroom Hn.
  destruct (listening_run acts g st bl Hl Hbl Hstay Hroom)
    as (bl1 & Hl1 & Hbl1 & Hd1 & Hlen1).
  rewrite stream_run_app. destruct (run acts g st) as [[o1 g1] st1]. simpl in *.
  assert (Hquiet : Forall (λ a, stays a = true) (replicate n Resume)).
  { apply Forall_replicate. done. }
  destruct (listening_run (replicate n Resume) g1 st1 bl1 Hl1 Hbl1 Hquiet)
    as (bl2 & Hl2 & Hbl2 & Hd2 & _).
  { rewrite published_resumes. simpl. lia. }
  assert (Hshort : length bl1 ≤ length bl + length (published acts)).
  { apply (f_equal length) in Hd1. rewrite !length_app in Hd1. lia. }
  rewrite listening_drain in Hbl2.
  2:{ done. }
  2:{ pose proof (todo_backlog g1 st1 bl1 Hl1 Hbl1). lia. }
  injection Hbl2 as <-.
  destruct (run (replicate n Resume) g1 st1) as [[o2 g2] st2]. simpl in *.
  rewrite published_resumes, !app_nil_r in Hd2.
  by rewrite data_of_app, Hd2.
Qed.

(** The replay of the history: the generator delivers the slice it has
    copied, one message for each resumption, whatever is published
    meanwhile. *)
Lemma replay_run (acts : list action) :
  ∀ rest st,
    Forall (λ a, stays a = true) acts →
    resumptions acts ≤ length rest →
    (run acts (GHistory rest) st).1.1 = SseData <$> take (resumptions acts) rest
    ∧ (run acts (GHistory rest) st).1.2 = GHistory (drop (resumptions acts) rest)
    ∧ connections (run acts (GHistory rest) st).2 session_id
      = connections st session_id
    ∧ (length (buffer st session_id) + length (published acts)
         ≤ max_messages_per_session →
       buffer (run acts (GHistory rest) st).2 session_id
       = buffer st session_id ++ published acts).
Proof.
  induction acts as [|a acts IH]; intros rest st Hstay Hres.
  { simpl. rewrite drop_0, app_nil_r. done. }
  apply list.Forall_cons in Hstay as [Ha Hstay].
  destruct a as [e| |]; [| |done].
  - change (resumptions (Env e :: acts)) with (resumptions acts) in *.
    change (published (Env e :: acts)) with (published_by e ++ published acts).
    destruct (IH rest (env_step e st) Hstay Hres) as (Ho & Hg & Hc & Hb).
    simpl. split_and!; [done|done|by rewrite Hc, connections_env_step|].
    rewrite length_app. intros Hroom.
    pose proof (buffer_env_step e st Ha ltac:(lia)) as Hbuf.
    rewrite Hb, Hbuf, ?app_assoc; [done|]. rewrite Hbuf, length_app. lia.
  - change (resumptions (Resume :: acts)) with (S (resumptions acts)) in *.
    change (published (Resume :: acts)) with (published acts).
    destruct rest as [|msg rest]; [simpl in Hres; lia|].
    destruct (IH rest st Hstay ltac:(simpl in Hres; lia)) as (Ho & Hg & Hc & Hb).
    simpl. destruct (run acts (GHistory rest) st) as [[os g'] st']. simpl in *.
    by rewrite Ho, Hg.
Qed.

(** A generator that sleeps delivers nothing until it is resumed. *)
Lemma run_no_resumption (acts : list action) :
  ∀ g st, Forall (λ a, stays a = true) acts → resumptions acts = 0 →
          (run acts g st).1.1 = [].
Proof.
  induction acts as [|a acts IH]; intros g st Hstay Hres; [done|].
  apply list.Forall_cons in Hstay as [Ha Hstay].
  destruct a as [e| |]; [|done|done]. simpl. by apply IH.
Qed.

(** The first resumption registers the connection and delivers the
    "connected" message; the second one, after the rest of the process has
    run, copies the slice of the ten most recent messages. *)
Lemma slice_taken (st : state) :
  (if decide (is_Some (progress_storage st !! session_id))
   then slice_last 10 (buffer st session_id) else [])
  = slice_last 10 (buffer st session_id).
Proof.
  destruct (decide _) as [|Hnone]; [done|].
  unfold buffer. destruct (progress_storage st !! session_id); [|done].
  destruct Hnone. by eexists.
Qed.

Lemma registered_start (st : state) :
  connection_id ∈ connections (resume GStart st).2 session_id.
Proof.
  simpl. unfold connections at 1. simpl. rewrite lookup_insert_eq. simpl.
  set_solver.
Qed.

(** The stream from its start to the end of the replay. *)
Lemma stream_replay (mid : list env_action) (r : list action) (st : state) :
  let st2 := foldl (flip env_step) (resume GStart st).2 mid in
  let slice := slice_last 10 (buffer st2 session_id) in
  Forall (λ a, stays a = true) r →
  resumptions r ≤ length slice - 1 →
  data_of (run (Resume :: (Env <$> mid) ++ Resume :: r) GStart st).1.1
  = initial_message session_id connection_id now :: take (S (resumptions r)) slice.
Proof.
  intros st2 slice Hr Hres.
  change (run (Resume :: (Env <$> mid) ++ Resume :: r) GStart st)
    with (let '(os, g, st') :=
            run ((Env <$> mid) ++ Resume :: r) GConnected (resume GStart st).2 in
          (SseData (initial_message session_id connection_id now) :: os, g, st')).
  rewrite run_envs. fold st2.
  rewrite run_Resume. cbn [Progress.resume]. rewrite slice_taken. fold slice.
  destruct slice as [|msg rest] eqn:Hslice.
  - simpl in Hres.
    destruct (loop (length (buffer st2 session_id)) st2) as [[o g'] st'] eqn:Hloop.
    pose proof (loop_spec session_id connection_id
                  (length (buffer st2 session_id)) st2)
      as (o0 & g0 & st0 & bl0 & Hl0 & _ & Hsub).
    rewrite Hloop in Hl0. injection Hl0 as <- <- <-.
    rewrite drop_all in Hsub. apply sublist_nil_r in Hsub.
    apply app_eq_nil in Hsub as [Ho _].
    rewrite (surjective_pairing (run r g' st')),
      (surjective_pairing (run r g' st').1).
    rewrite run_no_resumption by (done || lia).
    destruct o as [[d|]|]; simpl in *; [discriminate Ho|done|done].
  - destruct (replay_run r rest st2 Hr) as (Ho & _); [simpl in Hres; lia|].
    destruct (run r (GHistory rest) st2) as [[os g'] st']. simpl in *.
    rewrite Ho, data_of_data. done.
Qed.

(** The stream from its start to the live messages. *)
Lemma stream_delivery (mid : list env_action) (r post : list action) (n : nat)
    (st : state) :
  let st2 := foldl (flip env_step) (resume GStart st).2 mid in
  let slice := slice_last 10 (buffer st2 session_id) in
  Forall (λ e, stays (Env e) = true) mid →
  Forall (λ a, stays a = true) (r ++ post) →
  resumptions r = length slice - 1 →
  length (buffer st2 session_id) + length (published (r ++ post))
    ≤ max_messages_per_session →
  length (published (r ++ post)) + 2 ≤ n →
  data_of (run (Resume :: (Env <$> mid) ++ Resume :: r ++ Resume :: post
                ++ replicate n Resume) GStart st).1.1
  = initial_message session_id connection_id now :: slice
    ++ published (if decide (slice = []) then r ++ post else post).
Proof.
  intros st2 slice Hmid Hstay Hres Hroom Hn.
  apply list.Forall_app in Hstay as [Hr Hpost].
  rewrite published_app, length_app in Hroom, Hn.
  assert (Hreg : connection_id ∈ connections st2 session_id).
  { unfold st2. rewrite connections_env_steps by done. apply registered_start. }
  change (run (Resume :: (Env <$> mid) ++ Resume :: r ++ Resume :: post
               ++ replicate n Resume) GStart st)
    with (let '(os, g, st') :=
            run ((Env <$> mid) ++ Resume :: r ++ Resume :: post
                 ++ replicate n Resume) GConnected (resume GStart st).2 in
          (SseData (initial_message session_id connection_id now) :: os, g, st')).
  rewrite run_envs. fold st2.
  rewrite run_Resume. cbn [Progress.resume]. rewrite slice_taken. fold slice.
  destruct slice as [|msg rest] eqn:Hslice.
  - rewrite loop_entry by done. cbv beta iota.
    rewrite decide_True by done.
    assert (Hl : listening (GSleep (length (buffer st2 session_id))) st2) by done.
    assert (Hbl : backlog session_id (GSleep (length (buffer st2 session_id))) st2 = Some []).
    { simpl. by rewrite drop_all. }
    pose proof (listening_delivers (r ++ Resume :: post) n _ _ _ Hl Hbl) as Hd.
    rewrite <- app_assoc in Hd. simpl in Hd.
    rewrite (surjective_pairing (run _ _ _)), (surjective_pairing (run _ _ _).1).
    simpl. rewrite Hd.
    + by rewrite !published_app.
    + apply Forall_app. split; [done|]. by constructor.
    + rewrite published_app, length_app. simpl.
      change (published (Resume :: post)) with (published post). lia.
    + rewrite published_app, length_app. simpl.
      change (published (Resume :: post)) with (published post). lia.
  - rewrite decide_False by done. rewrite stream_run_app.
    simpl in Hres. rewrite Nat.sub_0_r in Hres.
    destruct (replay_run r rest st2 Hr ltac:(lia)) as (Ho & Hg & Hc & Hb).
    specialize (Hb ltac:(lia)).
    destruct (run r (GHistory rest) st2) as [[o1 g1] st3].
    cbn [fst snd] in Ho, Hg, Hc, Hb.
    rewrite Hres, drop_all in Hg. rewrite Hres, firstn_all in Ho. subst o1 g1.
    cbv beta iota. rewrite run_Resume. cbn [Progress.resume].
    rewrite loop_entry by (by rewrite Hc). cbv beta iota.
    assert (Hl : listening (GSleep (length (buffer st3 session_id))) st3).
    { split; [by rewrite Hc|done]. }
    assert (Hbl : backlog session_id (GSleep (length (buffer st3 session_id))) st3 = Some []).
    { simpl. by rewrite drop_all. }
    pose proof (listening_delivers post n _ _ _ Hl Hbl Hpost) as Hd.
    rewrite (surjective_pairing (run _ _ _)), (surjective_pairing (run _ _ _).1).
    simpl. rewrite !data_of_app, data_of_data, Hd.
    + done.
    + rewrite Hb, length_app. lia.
    + simpl. lia.
Qed.

End DeliveryFacts.

Section ProgressClaims.
Import Progress.

(** C8.  The progress buffer of a session never holds more than 100
    messages, and a publish that overflows it drops the oldest ones.  A
    subscriber of the event stream receives the synthetic "connected"
    message first, and then, one for each resumption, the messages of the
    slice of the (at most) 10 most recent buffered messages that it copies
    when it is resumed for the second time, whatever is published
    meanwhile.  Whatever the schedule, what it receives after the slice are
    messages published after the slice was taken, in the order in which they
    were published.  The live messages are delivered in full in the
    following case: when the subscriber stays connected, the session is not
    cleared and the buffer has room for what is published, a subscriber that
    is resumed often enough has received the slice and then every message
    published after it entered its loop, once each and in order.  Two kinds
    of live messages are not delivered.  A message that is published while
    the slice is replayed is counted as seen when the loop is entered, and
    is never delivered; and once the buffer holds 100 messages its length no
    longer changes, so that the generator, which compares lengths, delivers
    nothing any more.  The last two parts of the statement evaluate one
    stream of each kind. *)
Theorem progress_channel (session_id connection_id : pystr) (now : nat) :
  (∀ sid m s md t st,
     let buf := buffer (report_progress sid m s md t st) sid in
     length buf ≤ max_messages_per_session
     ∧ buf = drop (length (buffer st sid) + 1 - max_messages_per_session)
                  (buffer st sid ++ [ProgressData sid m s t md]))
  ∧ (∀ (pre mid : list (env_action)) (post : list action) (st : state),
       let acts := (Env <$> pre) ++ Resume :: (Env <$> mid) ++ Resume :: post in
       let st1 := foldl (flip env_step) st pre in
       let st2 := foldl (flip env_step)
                    (resume session_id connection_id now GStart st1).2 mid in
       let slice := slice_last 10 (buffer st2 session_id) in
       ∃ outs k live,
         (run session_id connection_id now acts GStart st).1.1
           = SseData (initial_message session_id connection_id now) :: outs
         ∧ data_of outs = take k slice ++ live
         ∧ length slice ≤ 10
         ∧ (live = [] ∨ length slice ≤ k)
         ∧ live `sublist_of` published session_id post)
  ∧ (∀ (mid : list env_action) (r : list action) (st : state),
       let st2 := foldl (flip env_step)
                    (resume session_id connection_id now GStart st).2 mid in
       let slice := slice_last 10 (buffer st2 session_id) in
       Forall (λ a, ProgressOps.stays session_id a = true) r →
       ProgressOps.resumptions r ≤ length slice - 1 →
       data_of (run session_id connection_id now
                  (Resume :: (Env <$> mid) ++ Resume :: r) GStart st).1.1
       = initial_message session_id connection_id now
         :: take (S (ProgressOps.resumptions r)) slice)
  ∧ (∀ (mid : list env_action) (r post : list action) (n : nat) (st : state),
       let st2 := foldl (flip env_step)
                    (resume session_id connection_id now GStart st).2 mid in
       let slice := slice_last 10 (buffer st2 session_id) in
       Forall (λ e, ProgressOps.stays session_id (Env e) = true) mid →
       Forall (λ a, ProgressOps.stays session_id a = true) (r ++ post) →
       ProgressOps.resumptions r = length slice - 1 →
       length (buffer st2 session_id) + length (published session_id (r ++ post))
         ≤ max_messages_per_session →
       length (published session_id (r ++ post)) + 2 ≤ n →
       data_of (run session_id connection_id now
                  (Resume :: (Env <$> mid) ++ Resume :: r ++ Resume :: post
                   ++ replicate n Resume) GStart st).1.1
       = initial_message session_id connection_id now :: slice
         ++ published session_id (if decide (slice = []) then r ++ post else post))
  ∧ (let sid := cps "s" in
     let d n := ProgressData sid [N.of_nat n] (cps "processing") n [] in
     let publish n := Env (Publish sid [N.of_nat n] (cps "processing") [] n) in
     data_of (run sid (cps "c") 0
                [publish 0; Resume; Resume; publish 1; Resume; publish 2;
                 Resume; Resume; Resume; Resume] GStart initial).1.1
     = [initial_message sid (cps "c") 0; d 0; d 2])
  ∧ (let sid := cps "s" in
     let d n := ProgressData sid [N.of_nat n] (cps "processing") n [] in
     let publish n := Env (Publish sid [N.of_nat n] (cps "processing") [] n) in
     let before := run sid (cps "c") 0
                     ((publish <$> seq 0 100) ++ replicate 12 Resume) GStart initial in
     data_of before.1.1 = initial_message sid (cps "c") 0 :: (d <$> seq 90 10)
     ∧ before.1.2 = GSleep 100
     ∧ data_of (run sid (cps "c") 0
                  [publish 100; Resume; Resume; publish 101; Resume; Resume;
                   Resume; Resume] before.1.2 before.2).1.1 = []).
Proof.
  split_and!.
  6:{ by vm_compute. }
  5:{ by vm_compute. }
  4:{ intros mid r post n st. by apply stream_delivery. }
  3:{ intros mid r st. by apply stream_replay. }
  - intros sid m s md t st. simpl. unfold report_progress.
    rewrite buffer_report. split; [|done].
    rewrite length_drop, length_app. simpl.
    unfold max_messages_per_session. lia.
  - intros pre mid post st. simpl.
    assert (Henv : ∀ es acts g st0,
      run session_id connection_id now ((Env <$> es) ++ acts) g st0
      = run session_id connection_id now acts g (foldl (flip env_step) st0 es)).
    { induction es as [|e es IH]; intros; simpl; [done|]. by rewrite IH. }
    rewrite Henv. simpl. rewrite Henv.
    set (st2 := foldl (flip env_step) _ mid).
    assert (Hslice : length (slice_last 10 (buffer st2 session_id)) ≤ 10).
    { unfold slice_last. simpl. rewrite length_drop. lia. }
    assert (Hkey : (if decide (is_Some (progress_storage st2 !! session_id))
                    then slice_last 10 (buffer st2 session_id) else [])
                   = slice_last 10 (buffer st2 session_id)).
    { destruct (decide _) as [|Hnone]; [done|].
      unfold buffer. destruct (progress_storage st2 !! session_id); [|done].
      destruct Hnone. by eexists. }
    simpl. rewrite Hkey.
    destruct (slice_last 10 (buffer st2 session_id)) as [|msg rest] eqn:Hsl.
    + destruct (loop_spec session_id connection_id (length (buffer st2 session_id)) st2)
        as (o & g' & st' & bl' & -> & Hbl' & Hsub).
      rewrite drop_all in Hsub. apply sublist_nil_r in Hsub.
      apply app_eq_nil in Hsub as [Ho ->].
      pose proof (live_order session_id connection_id now post g' st' [] Hbl') as Hlive.
      destruct (run session_id connection_id now post g' st') as [[os g''] st''].
      simpl in *.
      exists (from_option (λ x, [x]) [] o ++ os), 0, (data_of os).
      unfold data_of in *. rewrite bind_app, Ho. simpl.
      split_and!; [done|done|lia|right; lia|done].
    + destruct (history_then_live session_id connection_id now post rest st2)
        as (k & live & Hd & Hk & Hsub).
      destruct (run session_id connection_id now post (GHistory rest) st2)
        as [[os g''] st'']. simpl in *.
      exists (SseData msg :: os), (S k), live. simpl. rewrite Hd.
      split_and!; [done|done|done| |done].
      destruct Hk; [by left|right; lia].
Qed.

(** A buffer that is full keeps its length: the stream generator, which
    detects news by comparing lengths, then sees nothing new. *)
Example full_buffer_keeps_length :
  let e n := Publish (cps "s") [N.of_nat n] (cps "processing") [] n in
  let st := foldl (flip env_step) initial (e <$> seq 0 100) in
  length (buffer st (cps "s")) = 100
  ∧ length (buffer (env_step (e 100) st) (cps "s")) = 100.
Proof. vm_compute. done. Qed.

End ProgressClaims.

(** * Properties of the task classifier *)

Section MatcherFacts.
Import Classifier ClassifierSpec.
Context `{Unicode}.

Lemma existsb_Exists {A} (f : A → bool) (l : list A) :
  existsb f l = true ↔ Exists (λ x, f x = true) l.
Proof.
  induction l as [|x l IH]; simpl.
  - split; [done|]. by inversion 1.
  - rewrite orb_true_iff, IH, Exists_cons. done.
Qed.

Lemma starts_with_spec (p s : pystr) :
  starts_with p s = true ↔ ∃ rest, s = p ++ rest.
Proof.
  revert s. induction p as [|a p IH]; intros s; simpl.
  - split; [by eexists|done].
  - destruct s as [|b s]; [split; [done|by intros [? [=]]]|].
    destruct (decide (a = b)) as [->|Hne].
    + rewrite IH. split; [by intros [rest ->]; eexists|].
      intros [rest [= ->]]. by eexists.
    + split; [done|]. by intros [rest [= ? _]].
Qed.

Lemma contains_occurs (p s : pystr) : contains p s = true ↔ occurs p s.
Proof.
  unfold occurs. induction s as [|c s IH].
  - simpl. rewrite orb_false_r, starts_with_spec. split.
    + intros [rest ->]. by exists [], rest.
    + intros (before & after & Heq). symmetry in Heq.
      apply app_eq_nil in Heq as [-> Heq]. apply app_eq_nil in Heq as [-> ->].
      by exists [].
  - cbn [contains]. rewrite orb_true_iff, starts_with_spec, IH. split.
    + intros [[rest ->]|(before & after & ->)].
      * by exists [], rest.
      * by exists (c :: before), after.
    + intros ([|c' before] & after & Heq); simpl in Heq.
      * left. by exists after.
      * right. injection Heq as -> ->. by exists before, after.
Qed.

Lemma any_in_mentions (keywords : list pystr) (s : pystr) :
  any_in keywords s = true ↔ mentions keywords s.
Proof.
  unfold any_in, mentions. rewrite existsb_Exists, list.Exists_exists.
  split; intros (k & Hk & Ho); exists k; (split; [done|]); by apply contains_occurs.
Qed.

Lemma nil_app_decide {A} `{EqDecision A} (p1 p2 : list A) :
  bool_decide (p1 ++ p2 = []) = bool_decide (p1 = []) && bool_decide (p2 = []).
Proof. by destruct p1, p2. Qed.

Lemma match_star_spec (c : cclass) (s : pystr) :
  ∀ bol k,
    match_star c bol s k = true
    ↔ ∃ p s', s = p ++ s' ∧ Forall (λ x, in_class c x = true) p
              ∧ k (bol && bool_decide (p = [])) s' = true.
Proof.
  induction s as [|x s IH]; intros bol k.
  - simpl. rewrite orb_false_r. split.
    + intros Hk. exists [], []. by rewrite andb_true_r.
    + intros (p & s' & Heq & _ & Hk). symmetry in Heq.
      apply app_eq_nil in Heq as [-> ->]. by rewrite andb_true_r in Hk.
  - cbn [match_star]. rewrite orb_true_iff, andb_true_iff, IH. split.
    + intros [Hk|[Hx (p & s' & -> & Hp & Hk)]].
      * exists [], (x :: s). by rewrite andb_true_r.
      * exists (x :: p), s'. split_and!; [done|by constructor|].
        by rewrite andb_false_r.
    + intros ([|y p] & s' & Heq & Hp & Hk); simpl in Heq.
      * left. subst s'. by rewrite andb_true_r in Hk.
      * right. injection Heq as -> ->. apply list.Forall_cons in Hp as [Hx Hp].
        split; [done|]. exists p, s'. split_and!; [done|done|].
        by rewrite andb_false_r in Hk.
Qed.

Lemma match_rep_spec (n : nat) (c : cclass) :
  ∀ s bol k,
    match_rep n c bol s k = true
    ↔ ∃ p s', s = p ++ s' ∧ (length p = n ∧ Forall (λ x, in_class c x = true) p)
              ∧ k (bol && bool_decide (p = [])) s' = true.
Proof.
  induction n as [|n IH]; intros s bol k.
  - simpl. split.
    + intros Hk. exists [], s. by rewrite andb_true_r.
    + intros (p & s' & -> & [Hlen _] & Hk). destruct p; [|done].
      by rewrite andb_true_r in Hk.
  - cbn [match_rep]. destruct s as [|x s].
    + split; [done|]. intros (p & s' & Heq & [Hlen _] & _). by destruct p.
    + rewrite andb_true_iff, IH. split.
      * intros [Hx (p & s' & -> & [Hlen Hp] & Hk)].
        exists (x :: p), s'. split_and!; [done|by simpl; f_equal|by constructor|].
        by rewrite andb_false_r.
      * intros ([|y p] & s' & Heq & [Hlen Hp] & Hk); [done|]. simpl in *.
        injection Heq as -> ->. apply list.Forall_cons in Hp as [Hx Hp].
        split; [done|]. exists p, s'. split_and!; [done|lia|done|].
        by rewrite andb_false_r in Hk.
Qed.

(** The matcher finds a match exactly when the pattern has one. *)
Lemma re_match_spec (r : regex) :
  ∀ bol s k,
    re_match r bol s k = true
    ↔ ∃ p s', s = p ++ s' ∧ matches r bol p
              ∧ k (bol && bool_decide (p = [])) s' = true.
Proof.
  induction r as [|l|c|c|n c|r1 IH1 r2 IH2]; intros bol s k; cbn [re_match matches].
  - rewrite andb_true_iff. split.
    + intros [-> Hk]. by exists [], s.
    + intros (p & s' & -> & [-> ->] & Hk). by split.
  - rewrite andb_true_iff, starts_with_spec. split.
    + intros [[rest ->] Hk]. rewrite drop_app_length in Hk. by exists l, rest.
    + intros (p & s' & -> & -> & Hk). split; [by eexists|].
      by rewrite drop_app_length.
  - apply match_star_spec.
  - destruct s as [|x s].
    + split; [done|]. intros (p & s' & Heq & [Hne _] & _). by destruct p.
    + rewrite andb_true_iff, match_star_spec. split.
      * intros [Hx (p & s' & -> & Hp & Hk)].
        exists (x :: p), s'. split_and!; [done|done|by constructor|].
        by rewrite andb_false_r.
      * intros ([|y p] & s' & Heq & [Hne Hp] & Hk); [done|]. simpl in *.
        injection Heq as -> ->. apply list.Forall_cons in Hp as [Hx Hp].
        split; [done|]. exists p, s'. split_and!; [done|done|].
        by rewrite andb_false_r in Hk.
  - apply match_rep_spec.
  - rewrite IH1. split.
    + intros (p1 & s1 & -> & Hp1 & (p2 & s2 & -> & Hp2 & Hk)%IH2).
      exists (p1 ++ p2), s2. split_and!; [by rewrite app_assoc|by eauto|].
      by rewrite nil_app_decide, andb_assoc.
    + intros (p & s' & -> & (p1 & p2 & -> & Hp1 & Hp2) & Hk).
      exists p1, (p2 ++ s'). split_and!; [by rewrite app_assoc|done|].
      apply IH2. exists p2, s'. split_and!; [done|done|].
      by rewrite nil_app_decide, andb_assoc in Hk.
Qed.

(** [re.search] is true exactly when the pattern matches somewhere. *)
Lemma re_search_spec (r : regex) (s : pystr) :
  re_search r s = true
  ↔ ∃ before p after, s = before ++ p ++ after
                      ∧ matches r (bool_decide (before = [])) p.
Proof.
  unfold re_search.
  assert (Hgen : ∀ bol,
    search_from r bol s = true
    ↔ ∃ before p after, s = before ++ p ++ after
                        ∧ matches r (bol && bool_decide (before = [])) p).
  { induction s as [|x s IH]; intros bol.
    - simpl. rewrite orb_false_r, re_match_spec. split.
      + intros (p & s' & Heq & Hp & _). exists [], p, s'.
        by rewrite andb_true_r.
      + intros (before & p & after & Heq & Hp). symmetry in Heq.
        apply app_eq_nil in Heq as [-> Heq]. apply app_eq_nil in Heq as [-> ->].
        exists [], []. by rewrite andb_true_r in Hp.
    - cbn [search_from]. rewrite orb_true_iff, re_match_spec, IH. split.
      + intros [(p & s' & Heq & Hp & _)|(before & p & after & -> & Hp)].
        * exists [], p, s'. by rewrite andb_true_r.
        * exists (x :: before), p, after. split; [done|].
          by rewrite andb_false_r.
      + intros ([|y before] & p & after & Heq & Hp); simpl in Heq.
        * left. exists p, after. by rewrite andb_true_r in Hp.
        * right. injection Heq as -> ->. exists before, p, after.
          split; [done|]. by rewrite andb_false_r in Hp. }
  rewrite Hgen. by setoid_rewrite andb_true_l.
Qed.

Lemma digit_class (x : N) : in_class CDigit x = true ↔ digit x.
Proof. unfold in_class, digit. apply bool_decide_eq_true. Qed.

Lemma occurs_literal (l s : pystr) : re_search (RLit l) s = true ↔ occurs l s.
Proof.
  rewrite re_search_spec. unfold occurs. simpl. split.
  - intros (before & p & after & -> & ->). eauto.
  - intros (before & after & ->). by exists before, l, after.
Qed.

(** A pattern of the form [a\s*b] *)
Lemma occurs_spaced (a b s : pystr) :
  re_search (RSeq (RLit a) (RSeq (RStar CSpace) (RLit b))) s = true
  ↔ ∃ ws, spaces ws ∧ occurs (a ++ ws ++ b) s.
Proof.
  rewrite re_search_spec. unfold occurs, spaces. simpl. split.
  - intros (before & p & after & -> & p1 & p2 & -> & -> & ws & p4 & -> & Hws & ->).
    exists ws. split; [done|]. by exists before, after.
  - intros (ws & Hws & before & after & ->).
    exists before, (a ++ ws ++ b), after. split; [done|].
    exists a, (ws ++ b). split_and!; [done|done|]. by exists ws, b.
Qed.

(** The test that opens the extraction is the error signal. *)
Lemma error_signal_checks (response : pystr) :
  let response_lower := py_lower response in
  existsb (λ pattern, re_search pattern response_lower) error_patterns
  || existsb (λ code, contains code response_lower
                      && any_in error_context_words response_lower)
             isolated_error_codes
  = true ↔ error_signal response.
Proof.
  cbv zeta. unfold error_signal, error_patterns, isolated_error_codes,
    error_context_words, any_in. cbn [existsb]. rewrite !orb_false_r.
  rewrite !orb_true_iff, !andb_true_iff, !orb_true_iff, !occurs_literal,
    !occurs_spaced, !contains_occurs.
  set (text := py_lower response).
  assert (H1 : re_search (RSeq (RLit (cps "error code:"))
                            (RSeq (RStar CSpace) (RPlus CDigit))) text = true
               ↔ ∃ ws d, spaces ws ∧ digit d
                         ∧ occurs (cps "error code:" ++ ws ++ [d]) text).
  { rewrite re_search_spec. unfold occurs, spaces. cbn [matches]. split.
    - intros (before & p & after & -> & p1 & p2 & -> & -> & ws & ds & -> & Hws
              & Hne & Hds).
      destruct ds as [|d ds]; [done|]. apply list.Forall_cons in Hds as [Hd Hds].
      exists ws, d. split_and!; [done|by apply digit_class|].
      exists before, (ds ++ after). by rewrite <- !app_assoc.
    - intros (ws & d & Hws & Hd & before & after & ->).
      exists before, (cps "error code:" ++ ws ++ [d]), after. split; [done|].
      exists (cps "error code:"), (ws ++ [d]). split_and!; [done|done|].
      exists ws, [d]. split_and!; [done|done|done|].
      constructor; [by apply digit_class|constructor]. }
  assert (H2 : re_search (RSeq RBol (RSeq (RRep 3 CDigit)
                            (RSeq (RStar CSpace) (RLit (cps "error"))))) text = true
               ↔ ∃ d1 d2 d3 ws rest,
                   digit d1 ∧ digit d2 ∧ digit d3 ∧ spaces ws
                   ∧ text = [d1; d2; d3] ++ ws ++ cps "error" ++ rest).
  { rewrite re_search_spec. unfold spaces. cbn [matches]. split.
    - intros (before & p & after & Heq & p1 & p2 & -> & [Hbol ->] & ds & p3 & ->
              & [Hlen Hds] & ws & p4 & -> & Hws & ->).
      apply bool_decide_eq_true in Hbol as ->.
      destruct ds as [|d1 [|d2 [|d3 [|? ?]]]]; try done.
      apply list.Forall_cons in Hds as [Hd1 Hds]. apply list.Forall_cons in Hds as [Hd2 Hds].
      apply list.Forall_cons in Hds as [Hd3 _].
      exists d1, d2, d3, ws, after.
      split_and!; [by apply digit_class..|done|].
      rewrite Heq. simpl. by rewrite <- !app_assoc.
    - intros (d1 & d2 & d3 & ws & rest & Hd1 & Hd2 & Hd3 & Hws & ->).
      exists [], ([d1; d2; d3] ++ ws ++ cps "error"), rest.
      split; [by rewrite <- !app_assoc|].
      exists [], ([d1; d2; d3] ++ ws ++ cps "error"). split_and!; [done|done|done|].
      exists [d1; d2; d3], (ws ++ cps "error"). split_and!; [done|done| |].
      + repeat constructor; by apply digit_class.
      + by exists ws, (cps "error"). }
  rewrite H1, H2. tauto.
Qed.

Lemma error_signal_dec (response : pystr) : Decision (error_signal response).
Proof.
  destruct (existsb (λ pattern, re_search pattern (py_lower response)) error_patterns
            || existsb (λ code, contains code (py_lower response)
                                && any_in error_context_words (py_lower response))
                       isolated_error_codes) eqn:E.
  - left. by apply error_signal_checks.
  - right. intros Hs%error_signal_checks. cbv zeta in Hs. congruence.
Qed.

End MatcherFacts.

Section ClassifierFacts.
Import Classifier ClassifierSpec.
Context `{Unicode}.

Lemma mentions_dec (keywords : list pystr) (text : pystr) :
  Decision (mentions keywords text).
Proof.
  destruct (any_in keywords text) eqn:E.
  - left. by apply any_in_mentions.
  - right. intros Hm%any_in_mentions. congruence.
Qed.

(** The keyword matching that ends the extraction is the keyword rule. *)
Lemma keyword_match_rule (text : pystr) : keyword_rule text (keyword_match text).
Proof.
  unfold keyword_rule, keyword_match.
  destruct (any_in knowledge_keywords text) eqn:E1.
  { left. split; [by apply any_in_mentions|done]. }
  assert (Hn1 : ¬ mentions knowledge_keywords text).
  { intros Hm%any_in_mentions. congruence. }
  destruct (any_in modeling_keywords text) eqn:E2.
  { right. left. split_and!; [done|by apply any_in_mentions|done]. }
  assert (Hn2 : ¬ mentions modeling_keywords text).
  { intros Hm%any_in_mentions. congruence. }
  destruct (any_in result_keywords text && any_in context_keywords text) eqn:E3.
  - apply andb_true_iff in E3 as [E3 E4].
    right. right. left. split_and!; try done; by apply any_in_mentions.
  - right. right. right. split_and!; [done|done| |done].
    intros [E3'%any_in_mentions E4'%any_in_mentions]. by rewrite E3', E4' in E3.
Qed.

Lemma keyword_rule_functional (text : pystr) (z1 z2 : Z) :
  keyword_rule text z1 → keyword_rule text z2 → z1 = z2.
Proof. unfold keyword_rule. intros H1 H2. naive_solver. Qed.

Lemma keyword_rule_range (text : pystr) (z : Z) :
  keyword_rule text z → z ∈ allowed.
Proof. unfold keyword_rule, allowed. intros Hz. set_solver. Qed.

Lemma keyword_match_range (text : pystr) : keyword_match text ∈ [1; 2; 3]%Z.
Proof.
  unfold keyword_match.
  repeat (match goal with |- context [if ?b then _ else _] => destruct b end);
    set_solver.
Qed.

Lemma classify_by_keywords_range (prompt : pystr) :
  _classify_by_keywords prompt ∈ [1; 2; 3]%Z.
Proof.
  unfold _classify_by_keywords.
  repeat (match goal with |- context [if ?b then _ else _] => destruct b end);
    set_solver.
Qed.

Lemma well_formed_snoc tok d :
  well_formed_token tok ∨ tok = [minus] → is_digit d = true →
  well_formed_token (tok ++ [d]).
Proof.
  intros [Hwf| ->] Hd.
  - destruct tok as [|c ds]; [done|]. simpl in *.
    destruct Hwf as [(-> & Hne & Hall)|Hall].
    + left. split_and!; [done| |].
      * by destruct ds.
      * apply Forall_app. split; [done|]. by constructor.
    + right. rewrite app_comm_cons. apply Forall_app. split; [done|]. by constructor.
  - simpl. left. split_and!; [done|done|]. by constructor.
Qed.

Lemma findall_from_well_formed (s : pystr) :
  ∀ cur,
    from_option (λ tok, well_formed_token tok
                        ∨ (tok = [minus] ∧ from_option is_digit false (list.head s) = true))
                True cur →
    Forall well_formed_token (findall_from cur s).
Proof.
  induction s as [|c s IH]; intros cur Hcur.
  - destruct cur as [tok|]; simpl in *; [|constructor].
    constructor; [|constructor]. by destruct Hcur as [?|[_ ?]].
  - cbn [findall_from].
    set (start := if bool_decide (c = minus) && from_option is_digit false (list.head s)
                  then Some [c] else if is_digit c then Some [c] else None).
    assert (Hstart : from_option (λ tok, well_formed_token tok
               ∨ (tok = [minus] ∧ from_option is_digit false (list.head s) = true))
               True start).
    { subst start.
      destruct (bool_decide (c = minus)) eqn:Hc; simpl.
      - apply bool_decide_eq_true in Hc as ->.
        destruct (from_option is_digit false (list.head s)) eqn:Hs; simpl; [by right|].
        destruct (is_digit minus) eqn:Hd; simpl; [|done].
        left. right. by constructor.
      - destruct (is_digit c) eqn:Hd; simpl; [|done].
        left. destruct (decide (c = minus)) as [->|?].
        + by rewrite bool_decide_eq_true_2 in Hc.
        + right. by constructor. }
    destruct cur as [tok|]; simpl in Hcur.
    + destruct (is_digit c) eqn:Hd.
      * apply IH. simpl. left. apply well_formed_snoc; [|done].
        destruct Hcur as [?|[-> _]]; [by left|by right].
      * constructor; [|by apply IH].
        destruct Hcur as [?|[_ Hhd]]; [done|]. simpl in Hhd. congruence.
    + by apply IH.
Qed.

Lemma findall_ints_well_formed (s : pystr) :
  Forall well_formed_token (findall_ints s).
Proof. by apply findall_from_well_formed. Qed.

Lemma py_int_value (number : pystr) :
  py_int number ≠ ValueError → py_int number = Value (int_value number).
Proof. unfold py_int. by destruct (bool_decide _). Qed.

(** The loop over the lines is the loop over the numbers, run on the
    trailing integers of the non-empty lines. *)
Lemma lines_loop_scan (lines : list pystr) :
  lines_loop task_classifier lines
  = numbers_loop task_classifier
      (omap trailing_integer (filter (λ l, l ≠ []) (py_strip <$> lines))).
Proof.
  induction lines as [|line lines IH]; [done|].
  cbn [lines_loop fmap list_fmap]. rewrite filter_cons.
  destruct (py_strip line) as [|c rest] eqn:Hstrip.
  - destruct (decide _) as [Hne|_]; [done|]. apply IH.
  - destruct (decide _) as [_|Heq]; [|by destruct Heq].
    cbn [omap list_omap]. unfold trailing_integer at 1, signed_integers.
    destruct (list.last (findall_ints (c :: rest))) as [num|]; simpl.
    + destruct (py_int num); [|done]. by rewrite IH.
    + apply IH.
Qed.

Lemma numbers_loop_app (l1 l2 : list pystr) :
  numbers_loop task_classifier (l1 ++ l2)
  = match numbers_loop task_classifier l1 with
    | Value None => numbers_loop task_classifier l2
    | found_or_raised => found_or_raised
    end.
Proof.
  induction l1 as [|num l1 IH]; simpl; [done|].
  destruct (py_int num) as [z|]; [|done]. by destruct (bool_decide _).
Qed.

Lemma numbers_loop_found (numbers : list pystr) (z : Z) :
  numbers_loop task_classifier numbers = Value (Some z) →
  ∃ before number after,
    numbers = before ++ number :: after ∧ Forall (passed_over py_int) before
    ∧ py_int number = Value z ∧ z ∈ allowed.
Proof.
  induction numbers as [|num numbers IH]; simpl; [done|].
  destruct (py_int num) as [z'|] eqn:Hint; [|done].
  destruct (bool_decide _) eqn:Hin.
  - intros [= ->]. apply bool_decide_eq_true in Hin.
    by exists [], num, numbers.
  - apply bool_decide_eq_false in Hin.
    intros (before & number & after & -> & Hb & Hn & Hz)%IH.
    exists (num :: before), number, after. split_and!; [done| |done|done].
    constructor; [by exists z'|done].
Qed.

Lemma numbers_loop_raised (numbers : list pystr) :
  numbers_loop task_classifier numbers = ValueError →
  ∃ before number after,
    numbers = before ++ number :: after ∧ Forall (passed_over py_int) before
    ∧ py_int number = ValueError.
Proof.
  induction numbers as [|num numbers IH]; simpl; [done|].
  destruct (py_int num) as [z'|] eqn:Hint; [|by exists [], num, numbers].
  destruct (bool_decide _) eqn:Hin; [done|].
  apply bool_decide_eq_false in Hin.
  intros (before & number & after & -> & Hb & Hn)%IH.
  exists (num :: before), number, after. split_and!; [done| |done].
  constructor; [by exists z'|done].
Qed.

Lemma numbers_loop_none (numbers : list pystr) :
  numbers_loop task_classifier numbers = Value None →
  Forall (passed_over py_int) numbers.
Proof.
  induction numbers as [|num numbers IH]; simpl; [by constructor|].
  destruct (py_int num) as [z'|] eqn:Hint; [|done].
  destruct (bool_decide _) eqn:Hin; [done|].
  apply bool_decide_eq_false in Hin. intros Hn.
  constructor; [by exists z'|by apply IH].
Qed.

(** Without an error signal, the body of the [try] is one scan over the
    numbers of [examined], followed by the keyword matching. *)
Lemma try_extract_scan (response : pystr) :
  ¬ error_signal response →
  try_extract_task_type task_classifier response
  = match numbers_loop task_classifier (examined response) with
    | Value (Some t) => Value t
    | Value None => Value (keyword_match (py_lower response))
    | ValueError => ValueError
    end.
Proof.
  intros Hno. unfold try_extract_task_type.
  pose proof (error_signal_checks response) as Hsig. cbv zeta in Hsig.
  destruct (existsb _ error_patterns) eqn:E1; [destruct Hno; by apply Hsig|].
  destruct (existsb _ isolated_error_codes) eqn:E2; [destruct Hno; by apply Hsig|].
  unfold examined, nonempty_lines, signed_integers.
  rewrite lines_loop_scan, numbers_loop_app, fmap_reverse, filter_reverse.
  by destruct (numbers_loop _ (omap _ _)) as [[t|]|].
Qed.

Lemma first_stop_unique {A} (P : A → Prop) (b1 b2 : list A) (t1 t2 : A)
    (a1 a2 : list A) :
  b1 ++ t1 :: a1 = b2 ++ t2 :: a2 →
  Forall P b1 → Forall P b2 → ¬ P t1 → ¬ P t2 →
  b1 = b2 ∧ t1 = t2.
Proof.
  revert b2. induction b1 as [|x b1 IH]; intros [|y b2] Heq H1 H2 Ht1 Ht2;
    simpl in Heq.
  - by injection Heq as -> _.
  - injection Heq as -> _. by apply list.Forall_cons in H2 as [? _].
  - injection Heq as -> _. by apply list.Forall_cons in H1 as [? _].
  - injection Heq as -> Heq.
    apply list.Forall_cons in H1 as [_ H1]. apply list.Forall_cons in H2 as [_ H2].
    by destruct (IH b2 Heq H1 H2 Ht1 Ht2) as [-> ->].
Qed.

(** The rule determines the task code. *)
Lemma rule_functional (to_int : pystr → attempt Z) (response : pystr) (z1 z2 : Z) :
  rule to_int response z1 → rule to_int response z2 → z1 = z2.
Proof.
  assert (Hstop_value : ∀ number z,
    to_int number = Value z → z ∈ allowed → ¬ passed_over to_int number).
  { intros number z Hn Hz (z' & Hn' & Hz'). congruence. }
  assert (Hstop_error : ∀ number,
    to_int number = ValueError → ¬ passed_over to_int number).
  { intros number Hn (z' & Hn' & Hz'). congruence. }
  assert (Hmid : ∀ before number after,
    examined response = before ++ number :: after →
    Forall (passed_over to_int) (examined response) → passed_over to_int number).
  { intros before number after -> Hall. apply list.Forall_app in Hall as [_ Hall].
    by apply list.Forall_cons in Hall as [? _]. }
  intros [Hs1|b1 n1 a1 z1' Hno1 He1 Hb1 Hn1 Hz1|b1 n1 a1 Hno1 He1 Hb1 Hn1
          |z1' Hno1 Hall1 Hk1]
         [Hs2|b2 n2 a2 z2' Hno2 He2 Hb2 Hn2 Hz2|b2 n2 a2 Hno2 He2 Hb2 Hn2
          |z2' Hno2 Hall2 Hk2]; try done.
  - rewrite He1 in He2.
    destruct (first_stop_unique _ _ _ _ _ _ _ He2 Hb1 Hb2) as [_ ->]; eauto.
    congruence.
  - rewrite He1 in He2.
    destruct (first_stop_unique _ _ _ _ _ _ _ He2 Hb1 Hb2) as [_ ->]; eauto.
    congruence.
  - destruct (Hstop_value _ _ Hn1 Hz1). by eapply Hmid.
  - rewrite He1 in He2.
    destruct (first_stop_unique _ _ _ _ _ _ _ He2 Hb1 Hb2) as [_ ->]; eauto.
    congruence.
  - destruct (Hstop_error _ Hn1). by eapply Hmid.
  - destruct (Hstop_value _ _ Hn2 Hz2). by eapply Hmid.
  - destruct (Hstop_error _ Hn2). by eapply Hmid.
  - by eapply keyword_rule_functional.
Qed.

(** Two conversions that agree on the numbers of the response give the
    same rule. *)
Lemma rule_agree (to1 to2 : pystr → attempt Z) (response : pystr) (z : Z) :
  (∀ number, number ∈ examined response → to1 number = to2 number) →
  rule to1 response z → rule to2 response z.
Proof.
  intros Hagree.
  assert (Hpassed : ∀ numbers,
    (∀ number, number ∈ numbers → number ∈ examined response) →
    Forall (passed_over to1) numbers → Forall (passed_over to2) numbers).
  { intros numbers Hsub Hall. apply list.Forall_forall. intros number Hin.
    rewrite list.Forall_forall in Hall.
    destruct (Hall number Hin) as (z' & Hn & Hz). exists z'.
    by rewrite <- Hagree by auto. }
  intros [Hs|b n a z' Hno He Hb Hn Hz|b n a Hno He Hb Hn|z' Hno Hall Hk].
  - by apply rule_error_signal.
  - eapply rule_number; [done|done| | |done].
    + apply Hpassed; [|done]. intros number Hin. rewrite He. set_solver.
    + rewrite <- Hagree; [done|]. rewrite He. set_solver.
  - eapply rule_no_integer; [done|done| |].
    + apply Hpassed; [|done]. intros number Hin. rewrite He. set_solver.
    + rewrite <- Hagree; [done|]. rewrite He. set_solver.
  - apply rule_keywords; [done| |done]. by apply Hpassed.
Qed.

Lemma rule_range (to_int : pystr → attempt Z) (response : pystr) (z : Z) :
  rule to_int response z → z ∈ allowed.
Proof.
  intros [Hs|b n a z' Hno He Hb Hn Hz|b n a Hno He Hb Hn|z' Hno Hall Hk].
  - unfold allowed. set_solver.
  - done.
  - unfold allowed. set_solver.
  - by eapply keyword_rule_range.
Qed.

(** The extraction follows the rule of the code. *)
Lemma extract_rule (response : pystr) :
  amended_rule response (_extract_task_type_from_response task_classifier response).
Proof.
  unfold amended_rule, _extract_task_type_from_response.
  destruct (error_signal_dec response) as [Hyes|Hno].
  - pose proof Hyes as Hsig. apply error_signal_checks in Hsig. cbv zeta in Hsig.
    unfold try_extract_task_type.
    destruct (existsb _ error_patterns); [by apply rule_error_signal|].
    destruct (existsb _ isolated_error_codes); [by apply rule_error_signal|done].
  - rewrite try_extract_scan by done.
    destruct (numbers_loop task_classifier (examined response)) as [[t|]|] eqn:Hscan.
    + apply numbers_loop_found in Hscan as (b & n & a & He & Hb & Hn & Hz).
      by eapply rule_number.
    + apply numbers_loop_none in Hscan.
      apply rule_keywords; [done|done|apply keyword_match_rule].
    + apply numbers_loop_raised in Hscan as (b & n & a & He & Hb & Hn).
      by eapply rule_no_integer.
Qed.

Lemma extract_range (response : pystr) :
  _extract_task_type_from_response task_classifier response ∈ allowed.
Proof. eapply rule_range, extract_rule. Qed.

End ClassifierFacts.

Section ClassifierClaims.
Import Classifier ClassifierSpec.

(** C4 (as amended).  The extraction of the task type from an LLM response
    follows this rule, and the rule leaves no choice.  The result is -1
    when the response shows an error signal.  Otherwise the numbers of the
    response are looked at one after the other, first the trailing signed
    integer of each non-empty line, from the last line to the first, then
    every signed integer of the response, from the last to the first; the
    first number that [int] turns into a value of {1, 2, 3, -1} gives the
    result, and a number that [int] refuses before such a value is met (a
    number of more digits than the limit of the interpreter) ends the
    parse with -1.  When every number is passed over, the keyword rule
    gives the result, which is 1 when no keyword applies.  The result always
    lies in {1, 2, 3, -1}.  When [int] refuses none of the numbers, this is
    the rule as it is stated.  All of it holds for any character tables and
    any limit of the runtime. *)
Theorem extract_task_type_rule `{Unicode} (response : pystr) :
  let task_type := _extract_task_type_from_response task_classifier response in
  amended_rule response task_type
  ∧ (∀ z, amended_rule response z → z = task_type)
  ∧ task_type ∈ allowed
  ∧ ((∀ number, number ∈ examined response → py_int number ≠ ValueError) →
       stated_rule response task_type
       ∧ ∀ z, stated_rule response z → z = task_type).
Proof.
  cbv zeta. pose proof (extract_rule response) as Hrule. split_and!.
  - done.
  - intros z Hz. by eapply rule_functional.
  - apply extract_range.
  - intros Hfine.
    assert (Hstated : stated_rule response
              (_extract_task_type_from_response task_classifier response)).
    { eapply rule_agree; [|exact Hrule]. intros number Hin. simpl.
      by apply py_int_value, Hfine. }
    split; [done|]. intros z Hz. by eapply rule_functional.
Qed.

(** Scenario S4 and a few more responses, with the ASCII tables. *)
Example extract_examples :
  let extract s := @_extract_task_type_from_response ascii_tables task_classifier (cps s) in
  extract "Error code: 403 - {'error': {'code': 'AccountOverdueError'}}" = (-1)%Z
  ∧ extract "The user asks for a definition, so the task type is 1." = 1%Z
  ∧ extract "1 5" = 1%Z
  ∧ extract "model 7 or 2 ... final: -1" = (-1)%Z
  ∧ extract "no number at all" = 1%Z.
Proof. vm_compute. done. Qed.

End ClassifierClaims.

(** C4, as stated, fails on a response whose first line is 2 and whose last
    line is a number of 4301 digits, with the default limit of 4300 digits:
    by the rule as stated the long number is passed over and the result is 2;
    in the code the conversion of the long number raises, and the extraction
    returns -1. *)
Lemma long_number_ends_extraction :
  let response := cps "2" ++ [Classifier.newline] ++ replicate 4301 55%N in
  @ClassifierSpec.stated_rule ascii_tables response 2
  ∧ @Classifier._extract_task_type_from_response ascii_tables
      Classifier.task_classifier response = (-1)%Z
  ∧ ¬ @ClassifierSpec.stated_rule ascii_tables response (-1).
Proof.
  cbv zeta.
  assert (Hstated : @ClassifierSpec.stated_rule ascii_tables
                      (cps "2" ++ [Classifier.newline] ++ replicate 4301 55%N) 2).
  { apply (ClassifierSpec.rule_number _ _ [replicate 4301 55%N] (cps "2")
             [replicate 4301 55%N; cps "2"]).
    - intros Hs%error_signal_checks. lazy in Hs. discriminate Hs.
    - vm_compute. reflexivity.
    - constructor; [|constructor].
      exists (@Classifier.int_value ascii_tables (replicate 4301 55%N)).
      split; [reflexivity|]. apply (bool_decide_unpack _). vm_compute. exact I.
    - reflexivity.
    - unfold ClassifierSpec.allowed. set_solver. }
  split_and!; [exact Hstated| |].
  - lazy. reflexivity.
  - intros Hother.
    pose proof (rule_functional _ _ _ _ Hstated Hother). discriminate.
Qed.

(** * Properties of the turn pipeline *)

Section AgentFacts.
Import Classifier Agent.
Context `{Unicode} (env : environment) (sid : pystr).

Lemma appends_ret {A} φ (a : A) : appends φ (ret a).
Proof. intros w. exists []. by rewrite app_nil_r. Qed.

Lemma appends_raise {A} φ e : appends φ (@raise A e).
Proof. intros w. exists []. by rewrite app_nil_r. Qed.

Lemma appends_gets {A} φ (f : world → A) : appends φ (gets f).
Proof. intros w. exists []. by rewrite app_nil_r. Qed.

Lemma appends_with_billing φ f : appends φ (modify (with_billing f)).
Proof. intros w. exists []. simpl. by rewrite app_nil_r. Qed.

Lemma appends_bind {A B} φ (m : M A) (f : A → M B) :
  appends φ m → (∀ a, appends φ (f a)) → appends φ (bind m f).
Proof.
  intros Hm Hf w. unfold bind. destruct (Hm w) as (e1 & Ht1 & H1).
  destruct (m w) as [[a|e] w1]; simpl in *; [|by eauto].
  destruct (Hf a w1) as (e2 & Ht2 & H2).
  exists (e1 ++ e2). rewrite Ht2, Ht1, app_assoc. split; [done|].
  by apply Forall_app.
Qed.

Lemma appends_try_except {A} φ (m : M A) (h : exn → M A) :
  appends φ m → (∀ e, appends φ (h e)) → appends φ (try_except m h).
Proof.
  intros Hm Hh w. unfold try_except. destruct (Hm w) as (e1 & Ht1 & H1).
  destruct (m w) as [[a|e] w1]; simpl in *; [by eauto|].
  destruct (Hh e w1) as (e2 & Ht2 & H2).
  exists (e1 ++ e2). rewrite Ht2, Ht1, app_assoc. split; [done|].
  by apply Forall_app.
Qed.

Lemma appends_external φ ev :
  φ ev → φ (AbortRequested sid) → appends φ (external env sid ev).
Proof.
  intros Hev Hab w. eexists. split; [done|].
  constructor; [done|]. unfold abort_events. destruct (abort_during _ _); by repeat constructor.
Qed.

Lemma appends_clear_abort_flag φ :
  (∀ b, φ (AbortFlagCleared sid b)) → appends φ (clear_abort_flag sid).
Proof. intros Hφ w. eexists. split; [done|]. by repeat constructor. Qed.

Lemma appends_weaken {A} (φ ψ : event → Prop) (m : M A) :
  (∀ ev, φ ev → ψ ev) → appends φ m → appends ψ m.
Proof.
  intros Himp Hm w. destruct (Hm w) as (evs & ? & ?). exists evs.
  split; [done|]. by eapply Forall_impl.
Qed.

Ltac appends_tac :=
  repeat first
    [ apply appends_bind; [|intros ?]
    | apply appends_ret | apply appends_raise | apply appends_gets
    | apply appends_with_billing
    | apply appends_external; [done|done]
    | apply appends_clear_abort_flag; done
    | match goal with
      | |- appends _ (if ?b then _ else _) => destruct b
      | |- appends _ (match ?x with _ => _ end) => destruct x
      end ].

Lemma appends_classify_task prompt : appends agent_event (classify_task env sid prompt).
Proof. unfold classify_task, is_session_aborted, track_llm_calls. appends_tac. Qed.

Lemma appends_process_task mode prompt :
  appends agent_event (process_task env sid mode prompt).
Proof.
  unfold process_task, generate_general_answer, run_workflow, track_llm_calls,
    track_rshub_tasks.
  pose proof (appends_classify_task prompt). appends_tac; done.
Qed.

Lemma appends_run_analysis_agent mode prompt :
  appends agent_event (run_analysis_agent env sid mode prompt).
Proof.
  unfold run_analysis_agent. pose proof (appends_process_task mode prompt).
  appends_tac; done.
Qed.

Lemma appends_run_knowledge_query :
  appends agent_event (run_knowledge_query_with_sources env sid).
Proof. unfold run_knowledge_query_with_sources, track_llm_calls. appends_tac. Qed.

Lemma classify_error_range message prompt :
  classify_error message prompt ∈ [-101; -102; -103; 1; 2; 3]%Z.
Proof.
  unfold classify_error. pose proof (classify_by_keywords_range prompt).
  repeat (match goal with |- context [if ?b then _ else _] => destruct b end);
    set_solver.
Qed.

Lemma is_session_aborted_clear st :
  Progress.is_session_aborted sid (Progress.clear_abort_flag sid st) = false.
Proof.
  unfold Progress.is_session_aborted, Progress.clear_abort_flag. simpl.
  by rewrite lookup_delete_eq.
Qed.

Lemma first_stage_value prompt w r w' :
  run_analysis_agent env sid 0 prompt w = (r, w') →
  ∃ v, r = Return v ∧ classification_value v.
Proof.
  unfold run_analysis_agent, process_task, classify_task.
  repeat (destruct (decide _) as [?|?]; try set_solver; try lia); [].
  unfold bind at 1. simpl.
  destruct (classification_fault env) as [message|].
  { intros [= <- <-]. by eexists. }
  unfold bind, is_session_aborted, gets. simpl.
  rewrite is_session_aborted_clear. simpl.
  destruct (classification_llm env) as [response|message]; simpl; intros [= <- <-];
    eexists; (split; [done|]); simpl.
  - pose proof (extract_range response). set_solver.
  - pose proof (classify_error_range message prompt). set_solver.
Qed.

End AgentFacts.

Section RouterFacts.
Import Classifier Agent ChatRouter.
Context `{Unicode} (env : environment) (request : ChatRequest).

Abbreviation sid := (the_session_id env request).
Abbreviation mode := (DEPLOYMENT_MODE (settings_ env)).
Abbreviation off_settlement := (off_settlement env).

Lemma bind_Return {A B} (m : M A) (f : A → M B) w b w' :
  bind m f w = (Return b, w') →
  ∃ a w1, m w = (Return a, w1) ∧ f a w1 = (Return b, w').
Proof.
  unfold bind. destruct (m w) as [[a|e] w1]; [|done]. intros Hf. by exists a, w1.
Qed.

Lemma not_credit_off_settlement ev : not_credit ev → off_settlement ev.
Proof. unfold off_settlement. destruct mode; [|done]. by destruct ev. Qed.

Lemma agent_event_off_settlement ev : agent_event ev → off_settlement ev.
Proof. intros Hev. apply not_credit_off_settlement. by destruct ev. Qed.

Lemma update_credits_calls_app e1 e2 :
  update_credits_calls (e1 ++ e2) = update_credits_calls e1 ++ update_credits_calls e2.
Proof. apply omap_app. Qed.

Lemma check_credits_calls_app e1 e2 :
  check_credits_calls (e1 ++ e2) = check_credits_calls e1 ++ check_credits_calls e2.
Proof. apply omap_app. Qed.

Lemma no_update_calls evs : Forall not_update evs → update_credits_calls evs = [].
Proof.
  induction 1 as [|ev evs Hev _ IH]; [done|]. by destruct ev.
Qed.

Lemma no_credit_calls evs :
  Forall not_credit evs → update_credits_calls evs = [] ∧ check_credits_calls evs = [].
Proof.
  induction 1 as [|ev evs Hev _ [IH1 IH2]]; [done|]. by destruct ev.
Qed.

Lemma off_settlement_update evs :
  Forall off_settlement evs → update_credits_calls evs = [].
Proof.
  unfold off_settlement. destruct mode; intros Hall.
  - by apply no_update_calls.
  - by apply no_credit_calls.
Qed.

Lemma off_settlement_check evs :
  mode = local → Forall off_settlement evs → check_credits_calls evs = [].
Proof. unfold off_settlement. intros ->. apply no_credit_calls. Qed.

Lemma abort_events_not_credit n : Forall not_credit (abort_events env sid n).
Proof. unfold abort_events. destruct (abort_during _ _); by repeat constructor. Qed.

(** *** The stages of the router *)

Lemma load_history_returns tok w :
  ∃ vars, (load_history env request tok w).1 = Return vars.
Proof.
  unfold load_history. destruct (Auth.truthy _); unfold bind; simpl.
  - destruct (load_session_result env); simpl; eauto.
  - destruct (find_latest_session_result env); simpl; eauto.
Qed.

Lemma appends_load_history tok : appends not_credit (load_history env request tok).
Proof.
  unfold load_history.
  repeat first
    [ apply appends_bind; [|intros ?]
    | apply appends_ret
    | apply appends_external; [done|done]
    | match goal with
      | |- appends _ (if ?b then _ else _) => destruct b
      | |- appends _ (match ?x with _ => _ end) => destruct x
      end ].
Qed.

Lemma persist_session_spec tok vars result w :
  ∃ vars' evs,
    (persist_session env request tok vars result w).1 = Return vars'
    ∧ trace (persist_session env request tok vars result w).2 = trace w ++ evs
    ∧ billing (persist_session env request tok vars result w).2 = billing w
    ∧ Forall not_credit evs.
Proof.
  unfold persist_session. destruct (is_new_chat vars); unfold bind; simpl.
  - destruct (create_session_result env) as [[ok new_id] new_title].
    destruct ok; simpl; do 2 eexists; (split_and!; [done|done|done|]);
      (constructor; [done|apply abort_events_not_credit]).
  - do 2 eexists. split_and!; [done|done|done|].
    constructor; [done|apply abort_events_not_credit].
Qed.

Lemma calculate_cost_formula (t : Billing.sessions) :
  let report := Billing.calculate_cost sid (LLM_COST_FACTOR (settings_ env))
                  (RSHUB_TASK_COST_FACTOR (settings_ env)) t in
  Billing.total_cost report
  = (Billing.Qc_of_nat (Billing.counted_llm_calls report) * LLM_COST_FACTOR (settings_ env)
     + Billing.Qc_of_nat (Billing.counted_rshub_tasks report)
       * RSHUB_TASK_COST_FACTOR (settings_ env))%Qc.
Proof.
  unfold Billing.calculate_cost. destruct (t !! sid); simpl; [done|].
  change (Billing.Qc_of_nat 0) with 0%Qc. ring.
Qed.

(** The settlement block, step by step. *)
Lemma settle_spec tok w :
  let report := Billing.calculate_cost sid (LLM_COST_FACTOR (settings_ env))
                  (RSHUB_TASK_COST_FACTOR (settings_ env)) (billing w) in
  ∃ info w',
    settle env request tok w = (Return (report, info), w')
    ∧ match mode with
      | production =>
          if Qc_positive (Billing.total_cost report)
          then trace w' = trace w ++ UpdateCredits tok (- Billing.total_cost report)%Qc
                                     :: abort_events env sid (external_calls w)
               ∧ billing w' = Billing.clear_session sid (billing w)
          else w' = w
      | local => w' = w
      end.
Proof.
  intros report. unfold settle, bind, gets. fold report.
  destruct mode.
  - destruct (Qc_positive (Billing.total_cost report)) eqn:Hpos.
    + unfold external, modify.
      destruct (Credit.update_credits _) as [ok remaining]. simpl.
      do 2 eexists. by split.
    + do 2 eexists. by split.
  - do 2 eexists. by split.
Qed.

End RouterFacts.

Section Settlement.
Import Classifier Agent ChatRouter.
Context `{Unicode} (env : environment) (request : ChatRequest).

Abbreviation sid := (the_session_id env request).
Abbreviation mode := (DEPLOYMENT_MODE (settings_ env)).
Abbreviation off_settlement := (off_settlement env).
Abbreviation settled := (settled env request).
Abbreviation settles := (settles env request).

Lemma settled_prefix tok e1 e2 r w' :
  Forall off_settlement e1 → settled tok e2 r w' → settled tok (e1 ++ e2) r w'.
Proof.
  intros He1. unfold settled.
  rewrite update_credits_calls_app, (off_settlement_update env e1 He1). simpl.
  destruct r as [resp|e]; [|done].
  destruct (billing_info resp) as [report|]; [|done].
  destruct mode eqn:Hmode; [done|].
  by rewrite check_credits_calls_app, (off_settlement_check env e1 Hmode He1).
Qed.

Lemma settles_bind {A} tok (m : M A) (f : A → M ChatResponse) :
  appends off_settlement m → (∀ a, settles tok (f a)) → settles tok (bind m f).
Proof.
  intros Hm Hf w. unfold bind. destruct (Hm w) as (e1 & Ht1 & H1).
  destruct (m w) as [[a|e] w1]; simpl in *.
  - destruct (Hf a w1) as (e2 & Ht2 & H2).
    exists (e1 ++ e2). rewrite Ht2, Ht1, app_assoc. split; [done|].
    by apply settled_prefix.
  - exists e1. split; [done|]. by apply (off_settlement_update env).
Qed.

Lemma settles_ret_failed tok r st tt vars :
  st ∈ failed → settles tok (ret (respond env request r st tt vars None None)).
Proof. intros Hst w. exists []. rewrite app_nil_r. by split. Qed.

Lemma settles_raise tok e : settles tok (raise e).
Proof. intros w. exists []. rewrite app_nil_r. by split. Qed.

Lemma settled_after_settle tok w info w1 evs w' :
  let report := Billing.calculate_cost sid (LLM_COST_FACTOR (settings_ env))
                  (RSHUB_TASK_COST_FACTOR (settings_ env)) (billing w) in
  match mode with
  | production =>
      if Qc_positive (Billing.total_cost report)
      then trace w1 = trace w ++ UpdateCredits tok (- Billing.total_cost report)%Qc
                                 :: abort_events env sid (external_calls w)
           ∧ billing w1 = Billing.clear_session sid (billing w)
      else w1 = w
  | local => w1 = w
  end →
  Forall not_credit evs →
  trace w' = trace w1 ++ evs → billing w' = billing w1 →
  ∀ r st tt vars src, st ∈ completed →
    ∃ evs', trace w' = trace w ++ evs'
            ∧ settled tok evs'
                (Return (respond env request r st tt vars src (Some (report, info)))) w'.
Proof.
  intros report Hsettle Hevs Htrace Hbilling r st tt vars src Hst.
  destruct (no_credit_calls evs Hevs) as [Hu Hc].
  unfold settled. simpl.
  pose proof (calculate_cost_formula env request (billing w)) as Hcost.
  simpl in Hcost. fold report in Hcost.
  destruct mode.
  - destruct (Qc_positive (Billing.total_cost report)).
    + destruct Hsettle as [Ht1 Hb1]. rewrite Ht1 in Htrace.
      eexists. rewrite <- app_assoc in Htrace. split; [exact Htrace|].
      split_and!; [done|done| |].
      * rewrite update_credits_calls_app. simpl.
        destruct (no_credit_calls _ (abort_events_not_credit env request (external_calls w)))
          as [Ha _].
        change (update_credits_calls (UpdateCredits tok ?q :: ?l))
          with ((tok, q) :: update_credits_calls l).
        by rewrite Ha, Hu.
      * rewrite Hbilling, Hb1. apply lookup_delete_eq.
    + subst w1. exists evs. by split_and!.
  - subst w1. exists evs. by split_and!.
Qed.

(** Settlement followed by the session write and the response: lines
    332-424 and 496-591. *)
Lemma settles_settle_persist tok vars result r st tt src :
  st ∈ completed →
  settles tok (bind (settle env request tok) (λ money,
               bind (persist_session env request tok vars result) (λ vars',
               ret (respond env request r st tt vars' src (Some money))))).
Proof.
  intros Hst w. unfold bind.
  destruct (settle_spec env request tok w) as (info & w1 & -> & Hsettle).
  destruct (persist_session_spec env request tok vars result w1)
    as (vars' & evs & Hr & Ht & Hb & Hevs).
  destruct (persist_session env request tok vars result w1) as [rp wp].
  simpl in *. subst rp. simpl.
  exact (settled_after_settle tok w info w1 evs wp Hsettle Hevs Ht Hb
           r st tt vars' src Hst).
Qed.

(** Settlement followed by the response: lines 249-314. *)
Lemma settles_settle_respond tok vars r st tt src :
  st ∈ completed →
  settles tok (bind (settle env request tok) (λ money,
               ret (respond env request r st tt vars src (Some money)))).
Proof.
  intros Hst w. unfold bind.
  destruct (settle_spec env request tok w) as (info & w1 & -> & Hsettle).
  simpl.
  refine (settled_after_settle tok w info w1 [] w1 Hsettle _ _ eq_refl
            r st tt vars src Hst); [done|].
  by rewrite app_nil_r.
Qed.

Lemma appends_preflight tok : appends off_settlement (preflight env request tok).
Proof.
  unfold preflight, off_settlement. destruct mode; [|apply appends_ret].
  apply appends_bind; [by apply appends_external|]. intros _.
  destruct (Credit.check_credits _) as [[] ?]; [apply appends_ret|apply appends_raise].
Qed.

Lemma appends_agent z :
  appends off_settlement (run_analysis_agent env sid z (message request)).
Proof.
  eapply appends_weaken; [|apply appends_run_analysis_agent].
  apply agent_event_off_settlement.
Qed.

Lemma appends_knowledge :
  appends off_settlement (run_knowledge_query_with_sources env sid).
Proof.
  eapply appends_weaken; [|apply appends_run_knowledge_query].
  apply agent_event_off_settlement.
Qed.

Lemma settles_second_stage tok vars v :
  settles tok (second_stage env request tok vars v).
Proof.
  unfold second_stage. apply settles_bind.
  - destruct (decide _).
    + apply appends_bind; [apply appends_knowledge|]. intros ?. apply appends_ret.
    + apply appends_bind; [apply appends_agent|]. intros [z|s];
        [apply appends_raise|apply appends_ret].
  - intros [result src]. apply settles_settle_persist. unfold completed. set_solver.
Qed.

Lemma settles_dispatch tok vars v : settles tok (dispatch env request tok vars v).
Proof.
  pose proof appends_agent as Hagent.
  unfold dispatch.
  do 4 (destruct (decide (v = _)) as [?|?];
        [apply settles_ret_failed; unfold failed; set_solver|]).
  destruct (decide (v = PInt 3 ∧ _)) as [?|?]; [|destruct (decide (v = _)) as [?|?]].
  - apply settles_settle_respond. unfold completed. set_solver.
  - apply settles_bind; [apply Hagent|]. intros result.
    apply settles_settle_persist. unfold completed. set_solver.
  - apply settles_bind; [apply appends_preflight|]. intros _.
    apply settles_second_stage.
Qed.

Lemma settles_classify_and_dispatch tok vars :
  settles tok (classify_and_dispatch env request tok vars).
Proof.
  unfold classify_and_dispatch.
  apply settles_bind; [apply appends_with_billing|]. intros _.
  apply settles_bind.
  - eapply appends_weaken; [|apply appends_run_analysis_agent].
    apply agent_event_off_settlement.
  - intros v. apply settles_dispatch.
Qed.

Lemma settles_try_except tok vars (m : M ChatResponse) :
  settles tok m → settles tok (try_except m (on_exception env request vars)).
Proof.
  intros Hm w. unfold try_except. destruct (Hm w) as (evs & Ht & Hs).
  destruct (m w) as [[resp|[code|message]] w1]; simpl in *.
  - by exists evs.
  - by exists evs.
  - exists evs. split; [done|]. split; [|done]. unfold failed. set_solver.
Qed.

Lemma settles_agent_chat tok :
  Auth.get_rshub_token (settings_ env) (token request) = Some tok →
  settles tok (agent_chat env request).
Proof.
  intros Htok. unfold agent_chat. rewrite Htok.
  apply settles_bind.
  - eapply appends_weaken; [|apply appends_load_history].
    apply not_credit_off_settlement.
  - intros vars. apply settles_try_except, settles_classify_and_dispatch.
Qed.

End Settlement.

(** * What the turn returns *)

Section Results.
Import Classifier Agent ChatRouter.
Context `{Unicode} (env : environment) (request : ChatRequest).

Abbreviation sid := (the_session_id env request).

Lemma yields_ret {A} (P : A → Prop) Q a : P a → yields P Q (ret a).
Proof. by intros Ha w. Qed.

Lemma yields_raise {A} (P : A → Prop) (Q : exn → Prop) e : Q e → yields P Q (raise e).
Proof. by intros He w. Qed.

Lemma yields_bind {A B} (P' : A → Prop) (P : B → Prop) Q (m : M A) (f : A → M B) :
  yields P' Q m → (∀ a, P' a → yields P Q (f a)) → yields P Q (bind m f).
Proof.
  intros Hm Hf w. unfold bind. specialize (Hm w).
  destruct (m w) as [[a|e] w1]; simpl in *; [by apply Hf|done].
Qed.

Lemma yields_weaken {A} (P P' : A → Prop) (Q Q' : exn → Prop) (m : M A) :
  (∀ a, P a → P' a) → (∀ e, Q e → Q' e) → yields P Q m → yields P' Q' m.
Proof.
  intros HP HQ Hm w. specialize (Hm w). destruct ((m w).1); [by apply HP|by apply HQ].
Qed.

Lemma returns_bind {A B} (P : B → Prop) Q (m : M A) (f : A → M B) :
  returns m → (∀ a, yields P Q (f a)) → yields P Q (bind m f).
Proof.
  intros Hm Hf. eapply yields_bind; [|by intros a _].
  eapply yields_weaken; [| |exact Hm]; [done|by intros e []].
Qed.

Lemma returns_external ev : returns (external env sid ev).
Proof. by intros w. Qed.

Lemma returns_with_billing f : returns (modify (with_billing f)).
Proof. by intros w. Qed.

Lemma returns_settle tok : returns (settle env request tok).
Proof.
  intros w. by destruct (settle_spec env request tok w) as (info & w1 & -> & _).
Qed.

Lemma returns_persist_session tok vars result :
  returns (persist_session env request tok vars result).
Proof.
  intros w. destruct (persist_session_spec env request tok vars result w)
    as (vars' & evs & -> & _). done.
Qed.

Lemma agent_raises_ordinary z prompt :
  yields (λ _, True) ordinary (run_analysis_agent env sid z prompt).
Proof.
  intros w. destruct ((run_analysis_agent env sid z prompt w).1) as [v|e] eqn:E; [done|].
  revert E. unfold run_analysis_agent.
  repeat (destruct (decide _) as [?|?]; [by intros [= <-]|]).
  unfold process_task, bind, clear_abort_flag, modify. simpl.
  repeat (destruct (decide _) as [?|?]); simpl; try done.
  - destruct (classification_fault env); [done|].
    unfold classify_task, bind, is_session_aborted, gets. simpl.
    destruct (Progress.is_session_aborted _ _); [done|]. simpl.
    by destruct (classification_llm env).
  - unfold generate_general_answer, bind. simpl. by destruct (general_answer_llm env).
Qed.

Lemma knowledge_raises_ordinary :
  yields (λ _, True) ordinary (run_knowledge_query_with_sources env sid).
Proof.
  intros w. unfold run_knowledge_query_with_sources, bind. simpl.
  by destruct (knowledge_chain env).
Qed.

Lemma first_stage_yields prompt :
  yields classification_value ordinary (run_analysis_agent env sid 0 prompt).
Proof.
  intros w. destruct (run_analysis_agent env sid 0 prompt w) as [r w'] eqn:E.
  destruct (first_stage_value env sid prompt w r w' E) as (v & -> & Hv). done.
Qed.

Lemma yields_settle_persist tok vars result r st z src :
  st ≠ error → z ∈ returned_codes →
  yields coded payment_required
    (bind (settle env request tok) (λ money,
     bind (persist_session env request tok vars result) (λ vars',
     ret (respond env request r st (Some (PInt z)) vars' src (Some money))))).
Proof.
  intros Hst Hz. apply returns_bind; [apply returns_settle|]. intros money.
  apply returns_bind; [apply returns_persist_session|]. intros vars'.
  apply yields_ret. split; [done|]. by exists z.
Qed.

Lemma dispatch_yields tok vars v :
  classification_value v →
  yields coded payment_required (dispatch env request tok vars v).
Proof.
  intros Hv. unfold dispatch.
  do 4 (destruct (decide (v = _)) as [->|?];
        [apply yields_ret; (split; [done|]); eexists; (split; [done|]);
         unfold returned_codes; set_solver|]).
  destruct (decide (v = PInt 3 ∧ _)) as [?|?]; [|destruct (decide (v = _)) as [->|?]].
  - apply returns_bind; [apply returns_settle|]. intros money.
    apply yields_ret. split; [done|]. exists 3%Z. unfold returned_codes. set_solver.
  - eapply yields_bind.
    { eapply yields_weaken; [| |apply agent_raises_ordinary]; [done|by right]. }
    intros result _. apply yields_settle_persist; [done|unfold returned_codes; set_solver].
  - unfold preflight, second_stage. eapply (yields_bind (λ _, True)).
    { destruct (DEPLOYMENT_MODE (settings_ env)); [|by apply yields_ret].
      apply returns_bind; [apply returns_external|]. intros _.
      destruct (Credit.check_credits _) as [[] ?];
        [by apply yields_ret|apply yields_raise; by left]. }
    intros _ _.
    assert (Hsafe : match v with PInt z => z | PStr _ => 1%Z end ∈ returned_codes).
    { destruct v as [z|s]; [exact Hv|unfold returned_codes; set_solver]. }
    eapply (yields_bind (λ _, True)).
    + destruct (decide _).
      * eapply yields_bind.
        { eapply yields_weaken; [| |apply knowledge_raises_ordinary]; [done|by right]. }
        intros answer _. by apply yields_ret.
      * eapply yields_bind.
        { eapply yields_weaken; [| |apply agent_raises_ordinary]; [done|by right]. }
        intros [z|s] _; [apply yields_raise; by right|by apply yields_ret].
    + intros [result src] _. by apply yields_settle_persist.
Qed.

Lemma classify_and_dispatch_yields tok vars :
  yields coded payment_required (classify_and_dispatch env request tok vars).
Proof.
  unfold classify_and_dispatch.
  apply returns_bind; [apply returns_with_billing|]. intros _.
  eapply yields_bind.
  - eapply yields_weaken; [| |apply first_stage_yields]; [done|by right].
  - intros v Hv. by apply dispatch_yields.
Qed.

End Results.

(** * The balance check and the second stage *)

Section Stages.
Import Classifier Agent ChatRouter.
Context `{Unicode} (env : environment) (request : ChatRequest).

Abbreviation sid := (the_session_id env request).

Lemma handler_events_abort n : handler_events (abort_events env sid n) = [].
Proof. unfold abort_events. by destruct (abort_during env n). Qed.

Lemma update_credits_calls_abort n :
  update_credits_calls (abort_events env sid n) = [].
Proof. unfold abort_events. by destruct (abort_during env n). Qed.

Lemma preflight_production tok w :
  DEPLOYMENT_MODE (settings_ env) = production →
  preflight env request tok w
  = (if (Credit.check_credits (check_credits_http env)).1
     then Return tt else Raise (HTTPException 402),
     after_external env sid (CheckCredits tok 1) w).
Proof.
  intros Hmode. unfold preflight. rewrite Hmode. unfold bind, external, modify.
  by destruct (Credit.check_credits _) as [[] ?].
Qed.

Lemma preflight_local tok w :
  DEPLOYMENT_MODE (settings_ env) = local →
  preflight env request tok w = (Return tt, w).
Proof. intros Hmode. unfold preflight. by rewrite Hmode. Qed.

(** The branches of [dispatch] that come after the balance check. *)
Lemma dispatch_second_stage tok vars v :
  v ∉ [PInt (-100); PInt (-101); PInt (-102); PInt (-103); PInt (-1)] →
  ¬ (v = PInt 3 ∧ length (chat_history vars) = 0) →
  dispatch env request tok vars v
  = bind (preflight env request tok) (λ _, second_stage env request tok vars v).
Proof.
  intros Hv Hguide. unfold dispatch.
  repeat (destruct (decide _) as [?|?]; [exfalso; set_solver|]). done.
Qed.

Lemma knowledge_query_returns answer w :
  knowledge_chain env = inl answer →
  ∃ w', run_knowledge_query_with_sources env sid w = (Return (wf_result answer), w')
        ∧ trace w' = trace w ++ Workflow 1 :: abort_events env sid (external_calls w).
Proof.
  intros Hchain. unfold run_knowledge_query_with_sources. rewrite Hchain.
  unfold bind, external, modify, track_llm_calls, modify. simpl. by eexists.
Qed.

Lemma settle_persist_returns tok vars result r st tt src w :
  ∃ money vars',
    (bind (settle env request tok) (λ money,
     bind (persist_session env request tok vars result) (λ vars',
     ret (respond env request r st tt vars' src (Some money)))) w).1
    = Return (respond env request r st tt vars' src (Some money)).
Proof.
  unfold bind.
  destruct (settle_spec env request tok w) as (info & w1 & -> & _).
  destruct (persist_session_spec env request tok vars result w1)
    as (vars' & evs & Hr & _).
  destruct (persist_session env request tok vars result w1) as [rp wp].
  simpl in *. subst. by eexists _, _.
Qed.

(** The second stage on a task code that is 1 after the type guard, when
    the knowledge chain returns. *)
Lemma second_stage_knowledge tok vars v answer w :
  match v with PInt z => z | PStr _ => 1%Z end = 1%Z →
  knowledge_chain env = inl answer →
  ∃ resp evs,
    (second_stage env request tok vars v w).1 = Return resp
    ∧ task_type resp = Some (PInt 1)
    ∧ status_ resp = success
    ∧ response resp = text (wf_result answer)
    ∧ trace (second_stage env request tok vars v w).2 = trace w ++ Workflow 1 :: evs.
Proof.
  intros Hsafe Hchain.
  destruct (knowledge_query_returns answer w Hchain) as (w1 & Hrun & Ht1).
  assert (Heq : second_stage env request tok vars v w
                = bind (settle env request tok) (λ money,
                  bind (persist_session env request tok vars (wf_result answer))
                    (λ vars',
                  ret (respond env request (text (wf_result answer)) success
                         (Some (PInt 1)) vars' (Some []) (Some money)))) w1).
  { unfold second_stage. cbv zeta. rewrite Hsafe, decide_True by done.
    unfold bind at 1 2. by rewrite Hrun. }
  rewrite Heq.
  destruct (settle_persist_returns tok vars (wf_result answer)
              (text (wf_result answer)) success (Some (PInt 1)) (Some []) w1)
    as (money & vars' & ->).
  destruct (settles_settle_persist env request tok vars (wf_result answer)
              (text (wf_result answer)) success (Some (PInt 1)) (Some [])
              ltac:(unfold completed; set_solver) w1) as (evs & -> & _).
  rewrite Ht1, <- app_assoc. simpl. by eexists _, _.
Qed.

End Stages.

Section AbortFlag.
Import Classifier Agent.
Context `{Unicode} (env : environment) (sid : pystr).

(** Every call of [process_task] starts by dropping the abort flag. *)
Lemma process_task_clears mode prompt w :
  ∃ evs,
    trace (process_task env sid mode prompt w).2
    = trace w ++ AbortFlagCleared sid (Progress.is_session_aborted sid (progress w))
              :: evs.
Proof.
  unfold process_task. unfold bind at 1. unfold clear_abort_flag at 1, modify.
  cbv beta iota.
  set (w1 := World _ _ _ _).
  assert (Hrest : ∀ m : M pyval, appends (agent_event) m →
            ∃ evs, trace (m w1).2
                   = trace w ++ AbortFlagCleared sid
                                  (Progress.is_session_aborted sid (progress w)) :: evs).
  { intros m Hm. destruct (Hm w1) as (evs & -> & _). exists evs.
    subst w1. simpl. by rewrite <- app_assoc. }
  apply Hrest.
  pose proof (appends_classify_task env sid prompt) as Hclassify.
  unfold generate_general_answer, run_workflow, track_llm_calls, track_rshub_tasks.
  repeat first
    [ apply appends_bind; [|intros ?]
    | apply appends_ret | apply appends_raise | apply appends_gets
    | apply appends_with_billing
    | apply appends_external; [done|done]
    | exact Hclassify
    | match goal with
      | |- appends _ (if ?b then _ else _) => destruct b
      | |- appends _ (match ?x with _ => _ end) => destruct x
      end ].
Qed.

Lemma first_stage_never_aborted prompt w :
  (run_analysis_agent env sid 0 prompt w).1 ≠ Return (PInt (-100)).
Proof.
  intros Hr. destruct (run_analysis_agent env sid 0 prompt w) as [r w'] eqn:E.
  destruct (first_stage_value env sid prompt w r w' E) as (v & -> & Hv).
  simpl in Hr. injection Hr as ->. simpl in Hv. set_solver.
Qed.

End AbortFlag.

(** * The turn of POST /agent/chat: settlement, preflight, task codes *)

Section RouterClaims.
Import Classifier Agent ChatRouter.
Context `{Unicode}.

(** C1 (as amended).  A turn that passes authentication settles exactly
    when it runs to its end.  When the response has one of the statuses
    success, general_answer or guidance_provided, it carries a billing
    report whose total is llm_calls * LLM_COST_FACTOR + rshub_tasks *
    RSHUB_TASK_COST_FACTOR; in production mode the turn has then issued
    exactly one update_credits(token, -total) and has cleared the billing
    counter of the session if the total is positive, and has issued no
    update_credits call if the total is zero; in local mode it has made no
    credit call at all.  When the response has any other status (the
    upstream codes -100 to -103 and the caught exception), or when the turn
    ends with an HTTP error, no update_credits call has been issued and the
    response carries no billing report. *)
Theorem settlement_discipline (env : environment) (request : ChatRequest)
    (tok : pystr) (w : world) :
  Auth.get_rshub_token (settings_ env) (token request) = Some tok →
  ∃ evs,
    trace (agent_chat env request w).2 = trace w ++ evs ∧
    match (agent_chat env request w).1 with
    | Return resp =>
        (status_ resp ∈ completed →
           ∃ report,
             billing_info resp = Some report
             ∧ Billing.total_cost report
               = (Billing.Qc_of_nat (Billing.counted_llm_calls report)
                    * LLM_COST_FACTOR (settings_ env)
                  + Billing.Qc_of_nat (Billing.counted_rshub_tasks report)
                    * RSHUB_TASK_COST_FACTOR (settings_ env))%Qc
             ∧ match DEPLOYMENT_MODE (settings_ env) with
               | production =>
                   if Qc_positive (Billing.total_cost report)
                   then update_credits_calls evs
                        = [(tok, (- Billing.total_cost report)%Qc)]
                        ∧ billing (agent_chat env request w).2
                            !! the_session_id env request = None
                   else update_credits_calls evs = []
               | local =>
                   update_credits_calls evs = [] ∧ check_credits_calls evs = []
               end)
        ∧ (status_ resp ∉ completed →
             billing_info resp = None ∧ update_credits_calls evs = [])
    | Raise _ => update_credits_calls evs = []
    end.
Proof.
  intros Htok.
  destruct (settles_agent_chat env request tok Htok w) as (evs & Ht & Hs).
  exists evs. split; [done|]. unfold settled in Hs.
  destruct ((agent_chat env request w).1) as [resp|e]; [|done].
  destruct (billing_info resp) as [report|].
  - destruct Hs as (Hst & Hcost & Hmode). split; [|done].
    intros _. by exists report.
  - destruct Hs as [Hst Hno]. split; [|done].
    intros Hc. exfalso. revert Hst Hc. unfold failed, completed.
    destruct (status_ resp); set_solver.
Qed.

(** C3 (as amended).  A turn either returns a response or ends with the
    HTTP error 401 (authentication) or 402 (balance).  In a returned
    response with the status error, which is the one the caught exception
    produces, the field task_type is absent; with any other status it is an
    integer of the set {-103, -102, -101, -100, -1, 1, 2, 3}.  So 0 is never
    returned. *)
Theorem task_type_closure (env : environment) (request : ChatRequest) (w : world) :
  match (agent_chat env request w).1 with
  | Return resp =>
      if decide (status_ resp = error) then task_type resp = None
      else ∃ z, task_type resp = Some (PInt z)
                ∧ z ∈ [-103; -102; -101; -100; -1; 1; 2; 3]%Z
  | Raise e => e = HTTPException 401 ∨ e = HTTPException 402
  end.
Proof.
  unfold agent_chat.
  destruct (Auth.get_rshub_token _ _) as [tok|]; [|by left].
  unfold bind.
  destruct (load_history_returns env request tok w) as (vars & Hload).
  destruct (load_history env request tok w) as [r w1]. simpl in Hload. subst r.
  unfold try_except.
  pose proof (classify_and_dispatch_yields env request tok vars w1) as Hy.
  destruct (classify_and_dispatch env request tok vars w1) as [[resp|e] w2];
    simpl in *.
  - destruct Hy as [Hst (z & Hz & Hin)]. destruct (decide _); [done|].
    exists z. split; [done|]. unfold returned_codes in Hin. set_solver.
  - destruct Hy as [->|Hord]; [by right|].
    by destruct e as [code|message].
Qed.

(** C2 (as amended).  In production mode, when the classified task code
    is 1 or 2, or is 3 on a session that has history, the first thing the
    router does after the classification is the remote call
    check_credits(token, 1): every call of the branch handler comes after
    it.  When the balance check reports insufficient credit, the turn ends
    with the HTTP error 402, no handler has run, no update_credits call has
    been made and the billing counter is as it was.  (Task code -1, and
    task code 3 without history, run and settle without a balance check.) *)
Theorem credit_preflight (env : environment) (request : ChatRequest) (tok : pystr)
    (vars : chat_vars) (z : Z) (w : world) :
  DEPLOYMENT_MODE (settings_ env) = production →
  z = 1%Z ∨ z = 2%Z ∨ (z = 3%Z ∧ chat_history vars ≠ []) →
  ∃ rest,
    trace (dispatch env request tok vars (PInt z) w).2
    = trace w ++ CheckCredits tok 1 :: rest
    ∧ ((Credit.check_credits (check_credits_http env)).1 = false →
         (dispatch env request tok vars (PInt z) w).1 = Raise (HTTPException 402)
         ∧ handler_events rest = []
         ∧ update_credits_calls rest = []
         ∧ billing (dispatch env request tok vars (PInt z) w).2 = billing w).
Proof.
  intros Hmode Hz. rewrite dispatch_second_stage; cycle 1.
  { rewrite !elem_of_cons, elem_of_nil. intros Hv.
    destruct Hz as [->|[->|[-> _]]]; naive_solver. }
  { intros [[= ->] Hlen]. destruct Hz as [?|[?|[_ Hne]]]; [lia|lia|].
    by destruct (chat_history vars). }
  unfold bind. rewrite preflight_production by done.
  destruct (Credit.check_credits (check_credits_http env)) as [[] remaining]; simpl.
  - destruct (settles_second_stage env request tok vars (PInt z)
                (after_external env (the_session_id env request)
                   (CheckCredits tok 1) w)) as (evs & -> & _).
    simpl. rewrite <- app_assoc. by eexists.
  - eexists. split; [done|]. intros _.
    by rewrite handler_events_abort, update_credits_calls_abort.
Qed.

(** C9 (as amended).  When the first stage returns a value that is not an
    integer, and the balance check passes (production) or is skipped
    (local), and the knowledge chain returns, the router runs the knowledge
    branch and returns its answer with task_type 1 and the status success. *)
Theorem non_integer_classification (env : environment) (request : ChatRequest)
    (tok : pystr) (vars : chat_vars) (s : pystr) (answer : workflow_outcome)
    (w : world) :
  (DEPLOYMENT_MODE (settings_ env) = production →
     (Credit.check_credits (check_credits_http env)).1 = true) →
  knowledge_chain env = inl answer →
  ∃ resp evs,
    (dispatch env request tok vars (PStr s) w).1 = Return resp
    ∧ task_type resp = Some (PInt 1)
    ∧ status_ resp = success
    ∧ response resp = text (wf_result answer)
    ∧ trace (dispatch env request tok vars (PStr s) w).2 = trace w ++ evs
    ∧ Workflow 1 ∈ evs.
Proof.
  intros Hcheck Hchain. rewrite dispatch_second_stage; [|set_solver|naive_solver].
  unfold bind.
  destruct (DEPLOYMENT_MODE (settings_ env)) eqn:Hmode.
  - rewrite preflight_production, Hcheck by done.
    destruct (second_stage_knowledge env request tok vars (PStr s) answer
                (after_external env (the_session_id env request)
                   (CheckCredits tok 1) w) eq_refl Hchain)
      as (resp & evs & Hr & Htt & Hst & Htext & Ht).
    exists resp. eexists. split_and!; [done..| |].
    + rewrite Ht. simpl. by rewrite <- app_assoc.
    + set_solver.
  - rewrite preflight_local by done.
    destruct (second_stage_knowledge env request tok vars (PStr s) answer w
                eq_refl Hchain)
      as (resp & evs & Hr & Htt & Hst & Htext & Ht).
    exists resp. eexists. split_and!; [done..|set_solver].
Qed.

End RouterClaims.

(** A turn in production that settles: the classification and the knowledge
    chain each made one LLM call, the factors are 1, and the turn has issued
    the one call update_credits(token, -2) and dropped the counter. *)
Lemma settlement_discipline_witness :
  let env := Scenario.turn production (Classifier.LlmResponse (cps "1")) None
               (inl Scenario.an_answer) Scenario.enough Scenario.never in
  Auth.get_rshub_token (Agent.settings_ env) (ChatRouter.token Scenario.the_request)
  = Some Scenario.the_token
  ∧ ∃ evs,
      Agent.trace (Scenario.chat env).2 = Agent.trace Scenario.idle ++ evs
      ∧ (λ c, (c.1, this c.2)) <$> ChatRouter.update_credits_calls evs
        = [(Scenario.the_token, (-2)%Q)]
      ∧ Agent.billing (Scenario.chat env).2 !! cps "s1" = None.
Proof.
  intros env. split; [reflexivity|].
  destruct (@settlement_discipline ascii_tables env Scenario.the_request
              Scenario.the_token Scenario.idle eq_refl) as (evs & Ht & Hs).
  exists evs. split; [exact Ht|].
  unfold Scenario.chat.
  destruct (ChatRouter.agent_chat env Scenario.the_request Scenario.idle)
    as [[resp|e] w'] eqn:E; vm_compute in E; [|done].
  injection E as <- <-.
  destruct Hs as [Hc _].
  destruct Hc as (report & [= <-] & _ & Hm); [unfold completed; set_solver|].
  simpl in Hm. destruct Hm as [-> Hb]. split; [vm_compute; reflexivity|exact Hb].
Defined.

(** C1, as stated, fails on the caught-exception path.  In production the
    classification call is counted, the balance check passes, and the
    knowledge query raises: the exception handler drops the counter and
    returns the status error, and no update_credits call is ever made for the
    LLM call that was counted. *)
Lemma caught_exception_is_not_settled :
  let env := Scenario.turn production (Classifier.LlmResponse (cps "1")) None
               (inr (cps "boom")) Scenario.enough Scenario.never in
  let vars := ChatRouter.ChatVars [] None None true in
  let first := @Agent.run_analysis_agent ascii_tables env (cps "s1") 0
                 (ChatRouter.message Scenario.the_request)
                 (Agent.with_billing (Billing.init_session (cps "s1") 7) Scenario.idle) in
  let out := Scenario.chat env in
  first.1 = Agent.Return (Agent.PInt 1)
  ∧ Billing.llm_calls <$> Agent.billing first.2 !! cps "s1" = Some 1
  ∧ Scenario.outcome out = inl (ChatRouter.error, None)
  ∧ ChatRouter.update_credits_calls (Agent.trace out.2) = []
  ∧ Agent.billing out.2 !! cps "s1" = None.
Proof. vm_compute. done. Qed.

(** C3, as stated, fails on the same turn: the response of the exception
    handler has no task_type. *)
Lemma caught_exception_has_no_task_type :
  let env := Scenario.turn production (Classifier.LlmResponse (cps "1")) None
               (inr (cps "boom")) Scenario.enough Scenario.never in
  ∃ resp, (Scenario.chat env).1 = Agent.Return resp
          ∧ ChatRouter.status_ resp = ChatRouter.error
          ∧ ChatRouter.task_type resp = None.
Proof. eexists. vm_compute. done. Qed.

(** C2, as stated, fails for the task code -1.  In production, with a balance
    check that would report insufficient credit, the classification returns
    -1: no check_credits call is made, the general-answer handler makes its
    LLM call, and the turn settles. *)
Lemma general_answer_skips_preflight :
  let env := Scenario.turn production (Classifier.LlmResponse (cps "-1")) None
               (inl Scenario.an_answer) Scenario.not_enough Scenario.never in
  let out := Scenario.chat env in
  (Credit.check_credits (Agent.check_credits_http env)).1 = false
  ∧ Scenario.outcome out = inl (ChatRouter.general_answer, Some (Agent.PInt (-1)))
  ∧ ChatRouter.check_credits_calls (Agent.trace out.2) = []
  ∧ ChatRouter.handler_events (Agent.trace out.2)
    = [Agent.LlmCall (cps "general_answer")]
  ∧ (λ c, (c.1, this c.2)) <$> ChatRouter.update_credits_calls (Agent.trace out.2)
    = [(Scenario.the_token, (-2)%Q)].
Proof. vm_compute. done. Qed.

(** The balance check on task code 1 with insufficient credit: the turn ends
    with 402 after the one call check_credits(token, 1). *)
Lemma credit_preflight_witness :
  let env := Scenario.turn production (Classifier.LlmResponse (cps "1")) None
               (inl Scenario.an_answer) Scenario.not_enough Scenario.never in
  let vars := ChatRouter.ChatVars [] None None true in
  let out := @ChatRouter.dispatch ascii_tables env Scenario.the_request
               Scenario.the_token vars (Agent.PInt 1) Scenario.idle in
  DEPLOYMENT_MODE (Agent.settings_ env) = production
  ∧ (Credit.check_credits (Agent.check_credits_http env)).1 = false
  ∧ out.1 = Agent.Raise (Agent.HTTPException 402)
  ∧ ∃ rest, Agent.trace out.2
            = Agent.trace Scenario.idle
              ++ Agent.CheckCredits Scenario.the_token 1 :: rest
            ∧ ChatRouter.handler_events rest = []
            ∧ ChatRouter.update_credits_calls rest = [].
Proof.
  intros env vars out.
  destruct (@credit_preflight ascii_tables env Scenario.the_request
              Scenario.the_token vars 1 Scenario.idle eq_refl (or_introl eq_refl))
    as (rest & Ht & Hpoor).
  destruct (Hpoor eq_refl) as (Hr & Hh & Hu & _).
  split; [reflexivity|]. split; [reflexivity|]. split; [exact Hr|].
  exists rest. split; [exact Ht|]. split; [exact Hh|exact Hu].
Defined.

(** C9, as stated, fails in production when the balance is insufficient: the
    first stage returns a string (the apology [process_task] builds from a
    fault), the balance check comes before the type guard, and the turn ends
    with the HTTP error 402. *)
Lemma non_integer_classification_can_fail :
  let env := Scenario.turn production (Classifier.LlmResponse (cps "1"))
               (Some (cps "fault")) (inl Scenario.an_answer)
               Scenario.not_enough Scenario.never in
  let first := @Agent.run_analysis_agent ascii_tables env (cps "s1") 0
                 (ChatRouter.message Scenario.the_request)
                 (Agent.with_billing (Billing.init_session (cps "s1") 7) Scenario.idle) in
  first.1 = Agent.Return (Agent.PStr (cps "fault"))
  ∧ Scenario.outcome (Scenario.chat env) = inr (Agent.HTTPException 402).
Proof. vm_compute. done. Qed.

(** The same first stage with a balance check that passes. *)
Lemma non_integer_classification_witness :
  let env := Scenario.turn production (Classifier.LlmResponse (cps "1"))
               (Some (cps "fault")) (inl Scenario.an_answer)
               Scenario.enough Scenario.never in
  let vars := ChatRouter.ChatVars [] None None true in
  let out := @ChatRouter.dispatch ascii_tables env Scenario.the_request
               Scenario.the_token vars (Agent.PStr (cps "fault")) Scenario.idle in
  (Credit.check_credits (Agent.check_credits_http env)).1 = true
  ∧ Agent.knowledge_chain env = inl Scenario.an_answer
  ∧ ∃ resp, out.1 = Agent.Return resp
            ∧ ChatRouter.task_type resp = Some (Agent.PInt 1)
            ∧ ChatRouter.status_ resp = ChatRouter.success.
Proof.
  intros env vars out.
  destruct (@non_integer_classification ascii_tables env Scenario.the_request
              Scenario.the_token vars (cps "fault") Scenario.an_answer Scenario.idle
              (λ _, eq_refl) eq_refl)
    as (resp & evs & Hr & Htt & Hst & _).
  split; [reflexivity|]. split; [reflexivity|].
  exists resp. split; [exact Hr|]. split; [exact Htt|exact Hst].
Defined.

(** C5: what the code does with an abort request.

    [process_task] drops the abort flag at the start of every call, and the
    router calls it once per stage.  So the flag is dropped in the middle of
    a turn; the classifier reads it right after it has been dropped, so the
    first stage never returns -100; and an abort request that arrives while
    the classification call is in flight is dropped by the second stage.  In
    the turn below the request arrives during the classification call on
    session s1 and the classification is -1: the general-answer call and the
    session write are still made, the response has task code -1 and not
    -100, and the flag is down when the turn ends. *)
Theorem abort_request_is_dropped :
  (∀ (tables : Unicode) env sid prompt w,
     (@Agent.run_analysis_agent tables env sid 0 prompt w).1
     ≠ Agent.Return (Agent.PInt (-100)))
  ∧ (∀ (tables : Unicode) env sid mode prompt w,
       ∃ evs,
         Agent.trace (@Agent.process_task tables env sid mode prompt w).2
         = Agent.trace w
           ++ Agent.AbortFlagCleared sid
                (Progress.is_session_aborted sid (Agent.progress w)) :: evs)
  ∧ let env := Scenario.turn local (Classifier.LlmResponse (cps "-1")) None
                 (inl Scenario.an_answer) Scenario.enough
                 (λ n, bool_decide (n = 1)) in
    let out := Scenario.chat env in
    Scenario.outcome out = inl (ChatRouter.general_answer, Some (Agent.PInt (-1)))
    ∧ Agent.trace out.2
      = [Agent.FindLatestSession Scenario.the_token;
         Agent.AbortFlagCleared (cps "s1") false;
         Agent.LlmCall (cps "task_classification");
         Agent.AbortRequested (cps "s1");
         Agent.AbortFlagCleared (cps "s1") true;
         Agent.LlmCall (cps "general_answer");
         Agent.CreateSession Scenario.the_token (cps "what is soil moisture?")
           (cps "a general answer")]
    ∧ Progress.is_session_aborted (cps "s1") (Agent.progress out.2) = false.
Proof.
  split_and!.
  - intros tables env sid prompt w. apply first_stage_never_aborted.
  - intros tables env sid mode prompt w. apply process_task_clears.
  - vm_compute. done.
Qed.

(** * The billing tracker *)

Section BillingFacts.
Import Billing BillingOps.

Lemma calculate_cost_counts sid f1 f2 t :
  calculate_cost sid f1 f2 t = report_for (counts sid t).1 (counts sid t).2 f1 f2.
Proof.
  unfold calculate_cost, counts, report_for. destruct (t !! sid) as [c|]; simpl; [done|].
  change (Qc_of_nat 0) with 0%Qc. f_equal; ring.
Qed.

Lemma counts_init sid sid' now t : counts sid (init_session sid' now t) = counts sid t.
Proof.
  unfold counts, init_session. destruct (t !! sid') as [c'|] eqn:E; [done|].
  destruct (decide (sid' = sid)) as [->|Hne].
  - by rewrite lookup_insert_eq, E.
  - by rewrite lookup_insert_ne.
Qed.

Lemma init_session_is_Some sid now t : is_Some (init_session sid now t !! sid).
Proof.
  unfold init_session. destruct (t !! sid) as [c|] eqn:E; [by rewrite E|].
  rewrite lookup_insert_eq. by eexists.
Qed.

Lemma counts_step sid o t :
  is_clear sid o = false →
  counts sid (step o t)
  = ((counts sid t).1 + (if is_llm_call sid o then 1 else 0),
     (counts sid t).2 + (if is_rshub_task sid o then 1 else 0)).
Proof.
  intros Hclear. destruct o as [s now|s purpose now|s task now|s]; simpl in *.
  - rewrite counts_init. destruct (counts sid t). simpl. f_equal; lia.
  - unfold track_llm_call. case_bool_decide as Hs.
    + subst s. pose proof (init_session_is_Some sid now t) as [c Hc].
      pose proof (counts_init sid sid now t) as Hi.
      unfold counts at 1 in Hi. rewrite Hc in Hi. rewrite <- Hi.
      unfold counts. rewrite lookup_alter_eq, Hc. simpl. f_equal; lia.
    + rewrite <- (counts_init sid s now t). unfold counts.
      rewrite lookup_alter_ne by done.
      destruct (init_session s now t !! sid); simpl; f_equal; lia.
  - unfold track_rshub_task. case_bool_decide as Hs.
    + subst s. pose proof (init_session_is_Some sid now t) as [c Hc].
      pose proof (counts_init sid sid now t) as Hi.
      unfold counts at 1 in Hi. rewrite Hc in Hi. rewrite <- Hi.
      unfold counts. rewrite lookup_alter_eq, Hc. simpl. f_equal; lia.
    + rewrite <- (counts_init sid s now t). unfold counts.
      rewrite lookup_alter_ne by done.
      destruct (init_session s now t !! sid); simpl; f_equal; lia.
  - case_bool_decide as Hs; [done|]. unfold counts, clear_session.
    rewrite lookup_delete_ne by done. destruct (t !! sid); simpl; f_equal; lia.
Qed.

Lemma counts_run sid ops t :
  Forall (λ o, is_clear sid o = false) ops →
  counts sid (run ops t)
  = ((counts sid t).1 + llm_calls_on sid ops, (counts sid t).2 + rshub_tasks_on sid ops).
Proof.
  unfold run, llm_calls_on, rshub_tasks_on.
  revert t. induction ops as [|o ops IH]; intros t Hops; simpl.
  - destruct (counts sid t). simpl. f_equal; lia.
  - inversion Hops as [|? ? Ho Hops']; subst. rewrite IH by done.
    unfold flip. rewrite counts_step by done. simpl.
    rewrite !filter_cons.
    destruct (is_llm_call sid o), (is_rshub_task sid o); simpl;
      repeat case_decide; try done; simpl; f_equal; lia.
Qed.

Lemma counts_clear sid t : counts sid (clear_session sid t) = (0, 0).
Proof. unfold counts, clear_session. by rewrite lookup_delete_eq. Qed.

Lemma run_app ops1 ops2 t : run (ops1 ++ ops2) t = run ops2 (run ops1 t).
Proof. unfold run. by rewrite foldl_app. Qed.

Lemma balanced_init sid now t :
  map_Forall (λ _, balanced) t → map_Forall (λ _, balanced) (init_session sid now t).
Proof.
  intros Ht. unfold init_session. destruct (t !! sid); [done|].
  apply map_Forall_insert_2; [done|done].
Qed.

Lemma balanced_alter (sid : pystr) (f : session_counter → session_counter)
    (t : sessions) :
  (∀ c, balanced c → balanced (f c)) →
  map_Forall (λ _, balanced) t → map_Forall (λ _, balanced) (alter f sid t).
Proof.
  intros Hf Ht k c. destruct (decide (sid = k)) as [->|Hk].
  - rewrite lookup_alter_eq. destruct (t !! k) as [c0|] eqn:E; simpl; [|done].
    intros [= <-]. apply Hf. by eapply Ht.
  - rewrite lookup_alter_ne by done. apply Ht.
Qed.

Lemma balanced_step o t :
  map_Forall (λ _, balanced) t → map_Forall (λ _, balanced) (step o t).
Proof.
  intros Ht. destruct o as [s now|s purpose now|s task now|s]; simpl.
  - by apply balanced_init.
  - apply balanced_alter; [|by apply balanced_init].
    intros c Hc. unfold balanced in *. simpl. rewrite length_app. simpl. lia.
  - apply balanced_alter; [|by apply balanced_init].
    intros c Hc. unfold balanced in *. simpl. rewrite length_app. simpl. lia.
  - by apply map_Forall_delete.
Qed.

End BillingFacts.

Section BillingProperties.
Import Billing BillingOps.

(** Counting.  On a tracker that does not know the session, after any
    history of calls that does not clear the session, the report of the
    session counts exactly the LLM calls and the task submissions that were
    tracked for it, whatever was done for other sessions in between, and
    prices them with the two factors. *)
Theorem report_counts_tracked_calls (sid : pystr) (ops : list op) (t : sessions)
    (llm_cost_factor rshub_cost_factor : Qc) :
  t !! sid = None →
  Forall (λ o, is_clear sid o = false) ops →
  calculate_cost sid llm_cost_factor rshub_cost_factor (run ops t)
  = report_for (llm_calls_on sid ops) (rshub_tasks_on sid ops)
      llm_cost_factor rshub_cost_factor.
Proof.
  intros Hnew Hops. rewrite calculate_cost_counts, counts_run by done.
  unfold counts. by rewrite Hnew.
Qed.

(** [clear_session] starts the session over: after a clear, the report
    counts what was tracked since, whatever came before. *)
Theorem clear_session_starts_over (sid : pystr) (before after : list op)
    (t : sessions) (llm_cost_factor rshub_cost_factor : Qc) :
  Forall (λ o, is_clear sid o = false) after →
  calculate_cost sid llm_cost_factor rshub_cost_factor
    (run (before ++ ClearSession sid :: after) t)
  = report_for (llm_calls_on sid after) (rshub_tasks_on sid after)
      llm_cost_factor rshub_cost_factor.
Proof.
  intros Hops. rewrite run_app. change (run (?o :: ?l) ?t) with (run l (step o t)).
  rewrite calculate_cost_counts, counts_run by done. simpl.
  by rewrite counts_clear.
Qed.

(** Every counter of a tracker that started empty has one detail entry per
    counted event. *)
Theorem details_match_counts (ops : list op) :
  map_Forall (λ _ c, length (details c) = llm_calls c + rshub_tasks c) (run ops ∅).
Proof.
  assert (H : ∀ t, map_Forall (λ _, balanced) t → map_Forall (λ _, balanced) (run ops t)).
  { unfold run. induction ops as [|o ops IH]; intros t Ht; simpl; [done|].
    apply IH. by apply balanced_step. }
  apply H, map_Forall_empty.
Qed.

End BillingProperties.

Lemma report_counts_tracked_calls_witness :
  Billing.calculate_cost (cps "a") 1%Qc 1%Qc
    (BillingOps.run
       [BillingOps.TrackLlmCall (cps "a") (cps "classification") 1;
        BillingOps.TrackLlmCall (cps "b") (cps "classification") 2;
        BillingOps.ClearSession (cps "b");
        BillingOps.TrackRshubTask (cps "a") (cps "task") 3;
        BillingOps.TrackLlmCall (cps "a") (cps "answer") 4] ∅)
  = BillingOps.report_for 2 1 1%Qc 1%Qc.
Proof.
  apply (report_counts_tracked_calls (cps "a")); [done|].
  repeat constructor.
Defined.

Lemma clear_session_starts_over_witness :
  Billing.calculate_cost (cps "a") 1%Qc 1%Qc
    (BillingOps.run
       ([BillingOps.TrackLlmCall (cps "a") (cps "classification") 1]
        ++ BillingOps.ClearSession (cps "a")
        :: [BillingOps.TrackRshubTask (cps "a") (cps "task") 3]) ∅)
  = BillingOps.report_for 0 1 1%Qc 1%Qc.
Proof.
  apply (clear_session_starts_over (cps "a")
           [BillingOps.TrackLlmCall (cps "a") (cps "classification") 1]
           [BillingOps.TrackRshubTask (cps "a") (cps "task") 3]).
  repeat constructor.
Defined.

(** * Authentication and the credit service *)

Section AuthProperties.
Import Auth.

(** In production the token a request is served with is the one it
    carried, and it is served exactly when [validate_token] accepts that
    token (so it has at least ten characters).  In local mode a configured
    token always wins, whatever the request carries, and is not checked. *)
Theorem token_selection (s : settings) (request_token : option pystr) :
  (DEPLOYMENT_MODE s = production →
     ∀ tok, get_rshub_token s request_token = Some tok
            ↔ request_token = Some tok ∧ validate_token tok = true)
  ∧ (DEPLOYMENT_MODE s = local → RSHUB_TOKEN s ≠ [] →
       get_rshub_token s request_token = Some (RSHUB_TOKEN s)).
Proof.
  unfold get_rshub_token, validate_token. split; intros ->.
  - intros tok. destruct request_token as [[|c t]|]; simpl.
    + split; [done|]. by intros [[= <-] ?].
    + destruct (decide (S (length t) < 10)) as [Hlt|Hge].
      * split; [done|]. intros [[= <-] Hv]. simpl in Hv.
        by rewrite bool_decide_eq_true_2 in Hv.
      * split.
        -- intros [= <-]. split; [done|]. simpl. by rewrite bool_decide_eq_false_2.
        -- by intros [[= <-] _].
    + split; [done|]. by intros [? ?].
  - intros Hne. by destruct (RSHUB_TOKEN s).
Qed.

End AuthProperties.

Section CreditFacts.
Import Classifier Credit.
Context `{Unicode}.

Lemma findall_digits_run cur ds post :
  Forall (λ c, is_digit c = true) ds →
  Forall (λ c, is_digit c = false) post →
  findall_digits_from cur (ds ++ post)
  = match cur, ds with
    | None, [] => []
    | _, _ => [default [] cur ++ ds]
    end.
Proof.
  intros Hds. revert cur. induction Hds as [|c ds Hc Hds IH]; intros cur Hpost; simpl.
  - induction Hpost as [|c post Hc Hpost IH]; simpl.
    + destruct cur; [by rewrite app_nil_r|done].
    + rewrite Hc. destruct cur as [tok|]; simpl.
      * specialize (IH). rewrite app_nil_r.
        assert (findall_digits_from None post = []) as ->; [|done].
        clear IH. induction Hpost as [|c' post' Hc' Hpost' IH']; simpl; [done|].
        by rewrite Hc'.
      * clear IH. induction Hpost as [|c' post' Hc' Hpost' IH']; simpl; [done|].
        by rewrite Hc'.
  - rewrite Hc, IH by done. simpl. rewrite <- app_assoc. simpl.
    by destruct cur, ds.
Qed.

Lemma findall_digits_none cur s :
  Forall (λ c, is_digit c = false) s →
  findall_digits_from cur s = from_option (λ tok, [tok]) [] cur.
Proof.
  intros Hs. pose proof (findall_digits_run cur [] s (Forall_nil _) Hs) as Hrun.
  simpl in Hrun. rewrite Hrun. destruct cur; simpl; [by rewrite app_nil_r|done].
Qed.

(** The run that ends the scan is the last match, when the character
    before it is not a digit. *)
Lemma findall_digits_last cur pre ds post :
  ds ≠ [] →
  Forall (λ c, is_digit c = true) ds →
  Forall (λ c, is_digit c = false) post →
  match list.last pre with
  | Some c => is_digit c = false
  | None => cur = None
  end →
  list.last (findall_digits_from cur (pre ++ ds ++ post)) = Some ds.
Proof.
  intros Hne Hds Hpost. revert cur.
  induction pre as [|c pre IH]; intros cur Hpre; simpl in *.
  - subst cur. rewrite findall_digits_run by done. by destruct ds.
  - assert (Hnext : ∀ cur', (pre = [] → cur' = None) →
              list.last (findall_digits_from cur' (pre ++ ds ++ post)) = Some ds).
    { intros cur' Hcur'. apply IH. destruct pre as [|c' pre']; [by apply Hcur'|].
      rewrite last_cons_cons in Hpre.
      destruct (list.last (c' :: pre')) eqn:E; [done|]. by apply last_None in E. }
    assert (Hc : pre = [] → is_digit c = false).
    { by intros ->. }
    destruct (is_digit c) eqn:Hd.
    + apply Hnext. intros Hnil. by specialize (Hc Hnil).
    + assert (Hrest : list.last (findall_digits_from None (pre ++ ds ++ post)) = Some ds).
      { by apply Hnext. }
      destruct cur as [tok|]; [|done].
      destruct (findall_digits_from None (pre ++ ds ++ post)) as [|t l] eqn:E; [done|].
      done.
Qed.

Lemma int_of_float_opp q : int_of_float (- q)%Qc = (- int_of_float q)%Z.
Proof.
  unfold int_of_float. destruct q as [q Hc]. unfold Qcopp, Q2Qc. cbn [this].
  rewrite Qred_opp, Hc. destruct q as [n d]. cbn [Qopp Qnum Qden].
  by rewrite <- Z.quot_opp_l by lia.
Qed.

Lemma Qcle_float_of_int z q :
  (float_of_int z <= q)%Qc ↔ (z * Zpos (Qden q) ≤ Qnum q)%Z.
Proof.
  unfold Qcle, float_of_int, Q2Qc. cbn [this]. rewrite (Qred_correct (inject_Z z)).
  unfold Qle. simpl. lia.
Qed.

Lemma Qclt_float_of_int z q :
  (q < float_of_int z)%Qc ↔ (Qnum q < z * Zpos (Qden q))%Z.
Proof.
  unfold Qclt, float_of_int, Q2Qc. cbn [this]. rewrite (Qred_correct (inject_Z z)).
  unfold Qlt. simpl. lia.
Qed.

Lemma int_of_float_bounds q :
  (0 <= q)%Qc →
  (0 ≤ int_of_float q)%Z ∧ (float_of_int (int_of_float q) <= q)%Qc
  ∧ (q < float_of_int (int_of_float q + 1))%Qc.
Proof.
  intros Hq. rewrite Qcle_float_of_int, Qclt_float_of_int.
  assert (Hn : (0 ≤ Qnum q)%Z).
  { unfold Qcle, Qle in Hq. simpl in Hq. lia. }
  unfold int_of_float. rewrite Z.quot_div_nonneg by lia.
  pose proof (Z.mul_div_le (Qnum q) (Zpos (Qden q)) ltac:(lia)).
  pose proof (Z.mul_succ_div_gt (Qnum q) (Zpos (Qden q)) ltac:(lia)).
  split; [apply Z.div_pos; lia|]. split; lia.
Qed.

End CreditFacts.

Section CreditProperties.
Import Classifier Credit.

(** The balance [get_remaining_credits] reports is the last run of digits
    of the message the service answered with: the text before it, the sign
    and a decimal point included, plays no part. *)
Theorem remaining_credits_is_last_number `{Unicode} (pre ds post : pystr) :
  ds ≠ [] →
  Forall (λ c, is_digit c = true) ds →
  Forall (λ c, is_digit c = false) post →
  from_option (λ c, is_digit c = false) True (list.last pre) →
  get_remaining_credits (Balance200 (pre ++ ds ++ post)) = (true, float_of_digits ds).
Proof.
  intros Hne Hds Hpost Hpre. unfold get_remaining_credits, findall_digits.
  rewrite findall_digits_last; [|done|done|done|by destruct (list.last pre)].
  destruct pre; [by destruct ds|done].
Qed.

(** When the answer carries no digit, or the call fails, the balance is
    the marker -1; the call is reported as a success whenever the service
    answered with status 200. *)
Theorem remaining_credits_marker `{Unicode} :
  (∀ message, Forall (λ c, is_digit c = false) message →
     get_remaining_credits (Balance200 message) = (true, minus_one))
  ∧ (∀ message, (get_remaining_credits (Balance200 message)).1 = true)
  ∧ (∀ code, get_remaining_credits (BalanceStatus code) = (false, minus_one))
  ∧ get_remaining_credits BalanceFailure = (false, minus_one).
Proof.
  split_and!; try done.
  - intros message Hm. unfold get_remaining_credits, findall_digits.
    rewrite findall_digits_none by done. by destruct message.
  - intros message. unfold get_remaining_credits.
    destruct message; [done|]. by destruct (list.last _).
Qed.

(** What is charged.  For a cost that is not negative, the change the
    service is asked for is minus the whole part of the cost: the fraction
    of a cost is never charged, and a cost below one charges nothing. *)
Theorem charge_is_whole_part (token : pystr) (cost : Qc) :
  (0 <= cost)%Qc →
  ∃ whole : Z,
    request_body token (- cost)%Qc = (token, (- whole)%Z)
    ∧ (0 ≤ whole)%Z
    ∧ (float_of_int whole <= cost)%Qc ∧ (cost < float_of_int (whole + 1))%Qc.
Proof.
  intros Hcost. exists (int_of_float cost). unfold request_body.
  rewrite int_of_float_opp. split; [done|]. by apply int_of_float_bounds.
Qed.

End CreditProperties.

(** The answer "Remaining credits: -12.5" is read as a balance of 5. *)
Lemma remaining_credits_is_last_number_witness :
  @Credit.get_remaining_credits ascii_tables
    (Credit.Balance200 (cps "Remaining credits: -12." ++ cps "5" ++ cps " (approx.)"))
  = (true, Credit.float_of_digits (cps "5")).
Proof.
  apply (@remaining_credits_is_last_number ascii_tables
           (cps "Remaining credits: -12.") (cps "5") (cps " (approx.)")).
  - done.
  - repeat constructor.
  - repeat constructor.
  - reflexivity.
Defined.

(** A cost of 5/2 asks for a change of -2. *)
Lemma charge_is_whole_part_witness :
  ∃ whole : Z,
    Credit.request_body (cps "token") (- Q2Qc (5 # 2))%Qc = (cps "token", (- whole)%Z)
    ∧ (0 ≤ whole)%Z
    ∧ (Credit.float_of_int whole <= Q2Qc (5 # 2))%Qc
    ∧ (Q2Qc (5 # 2) < Credit.float_of_int (whole + 1))%Qc.
Proof.
  apply (charge_is_whole_part (cps "token") (Q2Qc (5 # 2))). by vm_compute.
Defined.

(** * More of the progress channel *)

Section ClearFacts.
Import Progress ProgressOps.
Context (session_id connection_id : pystr) (now : nat).

Abbreviation run := (run session_id connection_id now).
Abbreviation resume := (resume session_id connection_id now).
Abbreviation close := (close session_id connection_id).
Abbreviation finally := (finally session_id connection_id).
Abbreviation after_new_messages := (after_new_messages session_id connection_id).
Abbreviation loop := (loop session_id connection_id).
Abbreviation published := (published session_id).
Abbreviation published_by := (published_by session_id).

(** The connection is not registered (any more), and the buffer is within
    its capacity. *)
Let gone (st : state) : Prop :=
  (connection_id ∉ connections st session_id)
  ∧ length (buffer st session_id) ≤ max_messages_per_session.

Lemma gone_env_step (e : env_action) (st : state) : gone st → gone (env_step e st).
Proof.
  intros [Hc Hb]. split; [|by apply env_step_bounded].
  destruct e as [sid m s md t|sid]; [done|]. simpl.
  unfold connections, clear_progress in *. simpl.
  destruct (decide _) as [_|_]; [|done].
  destruct (decide (sid = session_id)) as [->|Hne].
  - rewrite lookup_insert_eq. set_solver.
  - by rewrite lookup_insert_ne.
Qed.

Lemma gone_finally (st : state) : gone st → gone (finally st).
Proof.
  intros [Hc Hb]. split; [|by apply finally_bounded].
  unfold Progress.finally, connections at 1. destruct (decide _) as [_|_]; simpl.
  - rewrite lookup_delete_eq. set_solver.
  - rewrite lookup_insert_eq. set_solver.
Qed.

Lemma after_new_messages_gone (count : nat) (st : state) :
  gone st → after_new_messages count st = (None, GClosed, finally st).
Proof.
  intros [Hc _]. unfold Progress.after_new_messages.
  destruct (decide _) as [Hin|_]; [by destruct Hc|done].
Qed.

Lemma resume_gone (g : gen_state) (st : state) :
  gone st → g ≠ GStart →
  gone (resume g st).2 ∧ (resume g st).1.2 ≠ GStart
  ∧ resumptions_left (resume g st).1.2 ≤ resumptions_left g - 1.
Proof.
  intros Hgone Hg.
  assert (Hloop : ∀ count bound, 100 ≤ bound →
    gone (loop count st).2 ∧ (loop count st).1.2 ≠ GStart
    ∧ resumptions_left (loop count st).1.2 ≤ bound).
  { intros count bound Hbound. unfold Progress.loop.
    destruct (decide _) as [Hlt|_].
    - destruct (drop count (buffer st session_id)) as [|msg rest] eqn:Hdrop.
      + rewrite after_new_messages_gone by done. simpl.
        split_and!; [by apply gone_finally|done|lia].
      + simpl. split_and!; [done|done|].
        apply (f_equal length) in Hdrop. rewrite length_drop in Hdrop.
        simpl in Hdrop. destruct Hgone as [_ Hb].
        unfold max_messages_per_session in Hb. lia.
    - rewrite after_new_messages_gone by done. simpl.
      split_and!; [by apply gone_finally|done|lia]. }
  assert (Hentry : ∀ count,
    gone (loop count st).2 ∧ (loop count st).1.2 ≠ GStart
    ∧ (length (buffer st session_id) ≤ count →
       resumptions_left (loop count st).1.2 = 0)).
  { intros count. unfold Progress.loop. destruct (decide _) as [Hlt|_].
    - destruct (drop count (buffer st session_id)) as [|msg rest] eqn:Hdrop.
      + rewrite after_new_messages_gone by done. simpl.
        split_and!; [by apply gone_finally|done|done].
      + simpl. split_and!; [done|done|lia].
    - rewrite after_new_messages_gone by done. simpl.
      split_and!; [by apply gone_finally|done|done]. }
  destruct g as [| |[|msg rest]|[|msg rest] count|count|count|]; [done|..].
  - cbn [Progress.resume]. rewrite slice_taken.
    destruct (slice_last 10 (buffer st session_id)) as [|msg rest] eqn:Hslice.
    + destruct (Hentry (length (buffer st session_id))) as (? & ? & Hz).
      split_and!; [done|done|]. rewrite Hz by done. simpl. lia.
    + simpl. split_and!; [done|done|].
      apply (f_equal length) in Hslice. unfold slice_last in Hslice.
      simpl in Hslice. rewrite length_drop in Hslice. lia.
  - cbn [Progress.resume].
    destruct (Hentry (length (buffer st session_id))) as (? & ? & Hz).
    split_and!; [done|done|]. rewrite Hz by done. simpl. lia.
  - simpl. split_and!; [done|done|lia].
  - cbn [Progress.resume]. rewrite after_new_messages_gone by done. simpl.
    split_and!; [by apply gone_finally|done|lia].
  - simpl. split_and!; [done|done|lia].
  - simpl. split_and!; [done|done|lia].
  - cbn [Progress.resume]. destruct (Hloop count 100) as (? & ? & ?); [lia|].
    split_and!; [done|done|]. simpl. lia.
  - simpl. split_and!; [done|done|lia].
Qed.

Lemma run_from_closed (acts : list action) (st : state) :
  (run acts GClosed st).1.2 = GClosed.
Proof.
  revert st. induction acts as [|[e| |] acts IH]; intros st; simpl; [done|done| |done].
  specialize (IH st). by destruct (run acts GClosed st) as [[os g] st'].
Qed.

(** A generator whose connection is not registered returns within the
    resumptions it is left. *)
Lemma run_gone (acts : list action) :
  ∀ g st, gone st → g ≠ GStart →
          resumptions_left g ≤ resumptions acts →
          (run acts g st).1.2 = GClosed.
Proof.
  induction acts as [|a acts IH]; intros g st Hgone Hg Hleft.
  - change (resumptions []) with 0 in Hleft.
    destruct g as [| |rest|rest count|count|count|]; simpl in *; try lia.
    done.
  - destruct a as [e| |].
    + simpl. apply IH; [by apply gone_env_step|done|done].
    + change (resumptions (Resume :: acts)) with (S (resumptions acts)) in Hleft.
      destruct (resume_gone g st Hgone Hg) as (Hgone' & Hg' & Hdec).
      simpl. destruct (resume g st) as [[o g'] st']. simpl in *.
      specialize (IH g' st' Hgone' Hg' ltac:(lia)).
      by destruct (run acts g' st') as [[os g''] st''].
    + simpl. destruct g; simpl; apply run_from_closed.
Qed.

Lemma buffer_env_steps_sublist (e : env_action) (st : state)
    (pre : list progress_data) :
  buffer st session_id `sublist_of` pre →
  buffer (env_step e st) session_id `sublist_of` pre ++ published_by e.
Proof.
  intros Hsub. pose proof (env_step_backlog session_id e 0 st) as Hstep.
  rewrite !drop_0 in Hstep. etrans; [exact Hstep|]. by apply sublist_app.
Qed.

(** A generator that has not copied its history yet delivers messages of
    the buffer and messages that are published from now on, in order. *)
Lemma connected_order (acts : list action) :
  ∀ st pre, buffer st session_id `sublist_of` pre →
            data_of (run acts GConnected st).1.1 `sublist_of` pre ++ published acts.
Proof.
  induction acts as [|a acts IH]; intros st pre Hpre.
  { simpl. apply sublist_nil_l. }
  destruct a as [e| |].
  - change (published (Env e :: acts)) with (published_by e ++ published acts).
    simpl. rewrite app_assoc. apply IH. by apply buffer_env_steps_sublist.
  - change (published (Resume :: acts)) with (published acts).
    rewrite run_Resume. cbn [Progress.resume]. rewrite slice_taken.
    assert (Hslice : slice_last 10 (buffer st session_id) `sublist_of` pre).
    { etrans; [|exact Hpre]. unfold slice_last.
      destruct (decide _); [done|apply sublist_drop]. }
    destruct (slice_last 10 (buffer st session_id)) as [|msg rest].
    + destruct (loop_spec session_id connection_id
                  (length (buffer st session_id)) st)
        as (o & g' & st' & bl' & -> & Hbl' & Hsub).
      rewrite drop_all in Hsub. apply sublist_nil_r in Hsub.
      apply app_eq_nil in Hsub as [Ho ->].
      pose proof (live_order session_id connection_id now acts g' st' [] Hbl')
        as Hlive.
      destruct (run acts g' st') as [[os g''] st'']. simpl in *.
      rewrite data_of_app, Ho. simpl. by apply sublist_inserts_l.
    + destruct (history_then_live session_id connection_id now acts rest st)
        as (k & live & Hd & _ & Hlive).
      destruct (run acts (GHistory rest) st) as [[os g''] st'']. simpl in *.
      rewrite Hd. apply (sublist_app (msg :: take k rest)); [|done].
      etrans; [|exact Hslice]. apply sublist_skip, sublist_take.
  - simpl. rewrite closed_silent. apply sublist_nil_l.
Qed.

(** After a clear, what a subscriber still delivers is what it had copied
    and what is published from then on. *)
Lemma cleared_order (acts : list action) (g : gen_state) (st : state) :
  g ≠ GStart → buffer st session_id = [] →
  data_of (run acts g st).1.1 `sublist_of` pending g ++ published acts.
Proof.
  intros Hg Hbuf.
  destruct g as [| |rest|rest count|count|count|]; [done| | | | | |].
  - apply connected_order. by rewrite Hbuf.
  - destruct (history_then_live session_id connection_id now acts rest st)
      as (k & live & -> & _ & Hlive).
    apply sublist_app; [apply sublist_take|done].
  - pose proof (live_order session_id connection_id now acts (GNew rest count) st _
                  eq_refl) as Hlive.
    by rewrite Hbuf, drop_nil, app_nil_r in Hlive.
  - pose proof (live_order session_id connection_id now acts (GSleep count) st _
                  eq_refl) as Hlive.
    by rewrite Hbuf, drop_nil in Hlive.
  - pose proof (live_order session_id connection_id now acts (GHeartbeat count) st _
                  eq_refl) as Hlive.
    by rewrite Hbuf, drop_nil in Hlive.
  - rewrite closed_silent. apply sublist_nil_l.
Qed.

Lemma cleared_gone (st : state) : gone (clear_progress session_id st).
Proof.
  split.
  - rewrite connections_clear. set_solver.
  - rewrite buffer_clear. destruct (decide _); [simpl; lia|done].
Qed.

Lemma cleared_returns (acts : list action) (g : gen_state) (st : state) :
  g ≠ GStart → resumptions_left g ≤ resumptions acts →
  (run acts g (clear_progress session_id st)).1.2 = GClosed.
Proof. intros Hg Hleft. apply run_gone; [apply cleared_gone|done|done]. Qed.

End ClearFacts.

Section ProgressProperties.
Import Progress ProgressOps.

(** A subscriber that has counted as many messages as the buffer can hold
    receives no progress message any more, whatever is published and
    however long it stays connected: the buffer no longer grows, and the
    generator looks at its length only. *)
Theorem full_buffer_silences_stream (session_id connection_id : pystr) (now : nat)
    (post : list action) (g : gen_state) (st : state) (last : nat) :
  length (buffer st session_id) ≤ max_messages_per_session →
  max_messages_per_session ≤ last →
  g = GSleep last ∨ g = GHeartbeat last →
  data_of (run session_id connection_id now post g st).1.1 = [].
Proof.
  intros Hst Hlast Hg.
  assert (Hgen : g = GSleep last ∨ g = GHeartbeat last ∨ g = GClosed) by naive_solver.
  clear Hg. revert g st Hst Hgen.
  induction post as [|a post IH]; intros g st Hst Hg; [done|].
  destruct a as [e| |]; simpl.
  - apply IH; [by apply env_step_bounded|done].
  - destruct Hg as [->|[->| ->]]; simpl.
    + specialize (IH (GHeartbeat last) st Hst ltac:(auto)).
      by destruct (run _ _ _ post (GHeartbeat last) st) as [[os g'] st'].
    + unfold loop. destruct (decide _) as [Hlt|_]; [lia|].
      unfold after_new_messages. destruct (decide _).
      * specialize (IH (GSleep last) st Hst ltac:(auto)).
        by destruct (run _ _ _ post (GSleep last) st) as [[os g'] st'].
      * specialize (IH GClosed _ (finally_bounded session_id connection_id _ Hst)
                       ltac:(auto)).
        by destruct (run _ _ _ post GClosed _) as [[os g'] st'].
    + specialize (IH GClosed st Hst ltac:(auto)).
      by destruct (run _ _ _ post GClosed st) as [[os g'] st'].
  - destruct Hg as [->|[->| ->]]; simpl; apply IH; auto using finally_bounded.
Qed.

(** DELETE /progress/clear ends the streams of the session.  A subscriber
    that is resumed after the clear, with nothing happening in between,
    delivers what it had already copied out of the buffer and nothing else,
    then returns; with it go the buffer and the registration of the
    session.  When the rest of the process goes on meanwhile (it may publish
    and clear again), the subscriber has returned after the number of
    resumptions that [resumptions_left] gives, and what it delivers until
    then is, in order, what it had copied and messages that were published
    after the clear: nothing that the buffer held at the clear. *)
Theorem clear_ends_stream (session_id connection_id : pystr) (now : nat)
    (g : gen_state) (st : state) :
  g ≠ GStart →
  (∀ more : nat,
     let resumptions := replicate (length (pending g) + 2 + more) Resume in
     let end_ := run session_id connection_id now resumptions g
                     (clear_progress session_id st) in
     data_of end_.1.1 = pending g
     ∧ end_.1.2 = GClosed
     ∧ buffer end_.2 session_id = []
     ∧ connections end_.2 session_id = ∅)
  ∧ (∀ acts : list action,
       let end_ := run session_id connection_id now acts g
                       (clear_progress session_id st) in
       data_of end_.1.1 `sublist_of` pending g ++ published session_id acts
       ∧ (resumptions_left g ≤ resumptions acts → end_.1.2 = GClosed)).
Proof.
  intros Hg. split.
  2:{ intros acts. simpl. split.
      - apply cleared_order; [done|]. rewrite buffer_clear. by destruct (decide _).
      - by apply cleared_returns. }
  intros more. revert Hg.
  intros Hg. simpl.
  set (st0 := clear_progress session_id st).
  assert (Hbuf : buffer st0 session_id = []).
  { unfold st0. rewrite buffer_clear. by destruct (decide _). }
  assert (Hconn : connections st0 session_id = ∅) by apply connections_clear.
  assert (Hstore : progress_storage st0 !! session_id = None).
  { unfold st0, clear_progress. simpl. by rewrite lookup_delete_eq. }
  clearbody st0.
  assert (Hfin : buffer (finally session_id connection_id st0) session_id = []
                 ∧ connections (finally session_id connection_id st0) session_id = ∅).
  { destruct (finally_last session_id connection_id st0) as [Hs Ha].
    - rewrite Hconn. set_solver.
    - unfold buffer, connections. by rewrite Hs, Ha. }
  assert (Hafter : ∀ last, after_new_messages session_id connection_id last st0
                           = (None, GClosed, finally session_id connection_id st0)).
  { intros last. unfold after_new_messages. rewrite Hconn.
    destruct (decide _) as [Hin|_]; [set_solver|done]. }
  assert (Hloop : ∀ last, loop session_id connection_id last st0
                          = (None, GClosed, finally session_id connection_id st0)).
  { intros last. unfold loop. rewrite Hbuf.
    destruct (decide _) as [Hlt|_]; [simpl in Hlt; lia|apply Hafter]. }
  destruct Hfin as [Hfb Hfc].
  assert (Hconnected : resume session_id connection_id now GConnected st0
                       = (None, GClosed, finally session_id connection_id st0)).
  { simpl. rewrite Hstore. destruct (decide _) as [[? [=]]|_]. apply Hloop. }
  assert (Hsplit : ∀ n, replicate (n + 2 + more) Resume
            = replicate n Resume ++ Resume :: replicate (S more) Resume).
  { intros n. by rewrite <- Nat.add_assoc, replicate_add. }
  assert (Hzero : replicate (0 + 2 + more) Resume
                  = Resume :: Resume :: replicate more Resume) by done.
  destruct g as [| |rest|rest cur|last|last|]; cbn [pending length].
  - done.
  - rewrite Hzero, run_Resume, Hconnected, (run_closed _ _ _ (S more)).
    simpl. by rewrite Hfb, Hfc.
  - rewrite Hsplit, run_history, run_Resume.
    change (resume session_id connection_id now (GHistory []) st0)
      with (loop session_id connection_id (length (buffer st0 session_id)) st0).
    rewrite Hloop, run_closed. simpl.
    by rewrite app_nil_r, data_of_data, Hfb, Hfc.
  - rewrite Hsplit, run_new, run_Resume.
    change (resume session_id connection_id now (GNew [] cur) st0)
      with (after_new_messages session_id connection_id cur st0).
    rewrite Hafter, run_closed. simpl.
    by rewrite app_nil_r, data_of_data, Hfb, Hfc.
  - rewrite Hzero, run_Resume.
    change (resume session_id connection_id now (GSleep last) st0)
      with (Some SseHeartbeat, GHeartbeat last, st0).
    cbv beta iota. rewrite run_Resume.
    change (resume session_id connection_id now (GHeartbeat last) st0)
      with (loop session_id connection_id last st0).
    rewrite Hloop, run_closed. simpl. by rewrite Hfb, Hfc.
  - rewrite Hzero, run_Resume.
    change (resume session_id connection_id now (GHeartbeat last) st0)
      with (loop session_id connection_id last st0).
    rewrite Hloop, (run_closed _ _ _ (S more)). simpl. by rewrite Hfb, Hfc.
  - rewrite run_closed. simpl. by rewrite Hbuf, Hconn.
Qed.

(** When its only subscriber goes away, the session loses its buffer: what
    was published for it, before or while the subscriber listened, is
    replayed to nobody who connects later.  The rest of the process may
    publish on any session meanwhile. *)
Theorem last_disconnect_drops_buffer (session_id connection_id : pystr) (now : nat)
    (acts : list action) (st : state) :
  connections st session_id ⊆ {[connection_id]} →
  Forall (λ a, stays session_id a = true) acts →
  let st' := (run session_id connection_id now (Resume :: acts ++ [Close]) GStart st).2 in
  progress_storage st' !! session_id = None
  ∧ active_connections st' !! session_id = None.
Proof.
  intros Hconn Hacts. simpl.
  set (st1 := State _ _ _).
  assert (Hreg : connections st1 session_id = {[connection_id]}).
  { unfold connections at 1, st1. simpl. rewrite lookup_insert_eq. simpl. set_solver. }
  clearbody st1. clear st Hconn.
  assert (Hgen : ∀ g st, g ≠ GStart → g ≠ GClosed →
            connections st session_id = {[connection_id]} →
            progress_storage
              (run session_id connection_id now (acts ++ [Close]) g st).2
              !! session_id = None
            ∧ active_connections
                (run session_id connection_id now (acts ++ [Close]) g st).2
                !! session_id = None).
  { induction Hacts as [|a acts Ha _ IH]; intros g st Hs Hc Hreg'.
    - simpl. destruct g; try done; simpl; apply finally_last; by rewrite Hreg'.
    - destruct a as [e| |]; simpl in *.
      + apply IH; [done|done|].
        by rewrite (env_step_connections session_id (Env e) e st eq_refl Ha).
      + destruct (resume_registered session_id connection_id now g st Hs Hc)
          as (o & g' & -> & Hs' & Hc'); [rewrite Hreg'; set_solver|].
        specialize (IH g' st Hs' Hc' Hreg').
        by destruct (run _ _ _ (acts ++ [Close]) g' st) as [[os g''] st''].
      + done. }
  specialize (Hgen GConnected st1 ltac:(done) ltac:(done) Hreg).
  by destruct (run _ _ _ (acts ++ [Close]) GConnected st1) as [[os g''] st''].
Qed.

(** The abort flag of a session is what the last abort or flag clear of
    that session made it: publishing, clearing the progress of a session
    and whatever is done for other sessions leave it alone, and so does
    every step of an event stream. *)
Theorem abort_flag_last_writer (sid : pystr) (ops : list op) (st : state) :
  is_session_aborted sid (run_ops ops st)
  = flag_after sid ops (is_session_aborted sid st)
  ∧ ∀ session_id connection_id now acts g,
      is_session_aborted sid (run session_id connection_id now acts g st).2
      = is_session_aborted sid st.
Proof.
  split.
  - unfold run_ops, flag_after. revert st.
    induction ops as [|o ops IH]; intros st; simpl; [done|].
    rewrite IH. f_equal. exact (flag_step sid o st).
  - intros. unfold is_session_aborted. by rewrite run_abort_flags.
Qed.

End ProgressProperties.

(** A session on which 100 messages were published, and a subscriber that
    has connected, read its ten messages of history and gone to sleep: the
    next two messages never reach it, even though it is resumed after each. *)
Lemma full_buffer_silences_stream_witness :
  let sid := cps "s" in
  let publish n := Progress.Env (Progress.Publish sid [N.of_nat n] (cps "processing") [] n) in
  let before :=
    Progress.run sid (cps "c") 0
      ((publish <$> seq 0 100) ++ replicate 12 Progress.Resume) Progress.GStart
      Progress.initial in
  before.1.2 = Progress.GSleep 100
  ∧ Progress.data_of
      (Progress.run sid (cps "c") 0
         [publish 100; Progress.Resume; Progress.Resume; publish 101;
          Progress.Resume; Progress.Resume]
         before.1.2 before.2).1.1 = [].
Proof.
  cbv zeta. split; [by vm_compute|].
  apply (full_buffer_silences_stream (cps "s") (cps "c") 0 _ _ _ 100).
  - vm_compute. lia.
  - done.
  - left. by vm_compute.
Defined.

Lemma clear_ends_stream_witness :
  let d n := Progress.ProgressData (cps "s") [N.of_nat n] (cps "processing") n [] in
  let g := Progress.GNew [d 1; d 2] 7 in
  let end_ := Progress.run (cps "s") (cps "c") 0 (replicate 4 Progress.Resume) g
                (Progress.clear_progress (cps "s") Progress.initial) in
  Progress.data_of end_.1.1 = [d 1; d 2]
  ∧ end_.1.2 = Progress.GClosed
  ∧ Progress.buffer end_.2 (cps "s") = []
  ∧ Progress.connections end_.2 (cps "s") = ∅.
Proof.
  cbv zeta.
  assert (Hg : Progress.GNew
                 [Progress.ProgressData (cps "s") [1%N] (cps "processing") 1 [];
                  Progress.ProgressData (cps "s") [2%N] (cps "processing") 2 []] 7
               ≠ Progress.GStart) by discriminate.
  destruct (clear_ends_stream (cps "s") (cps "c") 0 _ Progress.initial Hg) as [Hquiet _].
  exact (Hquiet 0).
Defined.

Lemma last_disconnect_drops_buffer_witness :
  let sid := cps "s" in
  let publish n := Progress.Env (Progress.Publish sid [N.of_nat n] (cps "processing") [] n) in
  let st := Progress.report sid (cps "before") (cps "processing") [] 0 Progress.initial in
  let st' := (Progress.run sid (cps "c") 0
                (Progress.Resume :: [Progress.Resume; publish 1; Progress.Resume]
                 ++ [Progress.Close]) Progress.GStart st).2 in
  Progress.progress_storage st' !! sid = None
  ∧ Progress.active_connections st' !! sid = None.
Proof.
  cbv zeta.
  apply (last_disconnect_drops_buffer (cps "s") (cps "c") 0
           [Progress.Resume;
            Progress.Env (Progress.Publish (cps "s") [1%N] (cps "processing") [] 1);
            Progress.Resume]).
  - by vm_compute.
  - repeat constructor.
Defined.

(** * More of the session store *)

Section StoreFacts.
Import ChatSession.
Context (svc : ChatSessionService) (io : io_outcome) (now : nat).

Lemma save_local_rshub mirror sid d st :
  rshub (_save_session_to_local svc io now mirror sid d st).2 = rshub st.
Proof.
  unfold _save_session_to_local.
  by destruct (enable_local_cache svc), (local_write_ok io).
Qed.

(** The cache after a local save: what was there, less what the cleanup
    evicted, and possibly the saved session under its id. *)
Lemma save_local_cache mirror sid d st k d' :
  local_cache (_save_session_to_local svc io now mirror sid d st).2 !! k = Some d' →
  local_cache st !! k = Some d' ∨ (k = sid ∧ d' = d).
Proof.
  unfold _save_session_to_local.
  destruct (enable_local_cache svc), (local_write_ok io); simpl; auto.
  intros Hk.
  pose proof (lookup_weaken _ _ _ _ Hk (cleanup_only_deletes _ _ _)) as Hk'.
  destruct (decide (sid = k)) as [->|Hne].
  - rewrite lookup_insert_eq in Hk'. right. by simplify_eq.
  - rewrite lookup_insert_ne in Hk' by done. by left.
Qed.

Lemma load_from_rshub_Some token sid st d :
  _load_session_from_rshub io token sid st = Some d → rshub st !! (token, sid) = Some d.
Proof. unfold _load_session_from_rshub. by destruct (rshub_read_ok io). Qed.

Lemma load_from_local_Some sid st d :
  _load_session_from_local svc io sid st = Some d → local_cache st !! sid = Some d.
Proof.
  unfold _load_session_from_local.
  by destruct (enable_local_cache svc), (local_read_ok io).
Qed.

(** The shape of a load: either nothing changes, or what was read from the
    remote store is copied to the cache. *)
Lemma load_session_cases token sid st :
  (∃ r, load_session svc io now token sid st = (r, st)
        ∧ ∀ d, r = Some d →
               rshub st !! (token, sid) = Some d ∨ local_cache st !! sid = Some d)
  ∨ (∃ d, rshub st !! (token, sid) = Some d
          ∧ load_session svc io now token sid st
            = (Some d, (_save_session_to_local svc io now true sid d st).2)).
Proof.
  unfold load_session.
  destruct (DEPLOYMENT_MODE _), (enable_local_cache svc) eqn:Hc; simpl.
  - destruct (_load_session_from_rshub io token sid st) as [d|] eqn:Er.
    + right. exists d. split; [by apply load_from_rshub_Some|done].
    + left. destruct (_load_session_from_local svc io sid st) as [d|] eqn:El.
      * eexists. split; [done|]. intros ? [= <-]. right. by apply load_from_local_Some.
      * eexists. split; [done|]. by intros ? [=].
  - left. destruct (_load_session_from_rshub io token sid st) as [d|] eqn:Er.
    + eexists. split; [done|]. intros ? [= <-]. left. by apply load_from_rshub_Some.
    + eexists. split; [done|]. by intros ? [=].
  - destruct (_load_session_from_local svc io sid st) as [d|] eqn:El.
    + left. eexists. split; [done|]. intros ? [= <-]. right.
      by apply load_from_local_Some.
    + destruct (_load_session_from_rshub io token sid st) as [d|] eqn:Er.
      * right. exists d. split; [by apply load_from_rshub_Some|done].
      * left. eexists. split; [done|]. by intros ? [=].
  - left. destruct (_load_session_from_rshub io token sid st) as [d|] eqn:Er.
    + eexists. split; [done|]. intros ? [= <-]. left. by apply load_from_rshub_Some.
    + eexists. split; [done|]. by intros ? [=].
Qed.

Lemma load_session_rshub token sid st :
  rshub (load_session svc io now token sid st).2 = rshub st.
Proof.
  destruct (load_session_cases token sid st) as [(r & -> & _)|(d & _ & ->)]; [done|].
  apply save_local_rshub.
Qed.

End StoreFacts.

Section StoreProperties.
Import ChatSession.

(** A load only reads.  It never writes the remote store, it issues no
    write of its own (only the copy of what it read), what it returns is
    what one of the two stores holds for the session, and the cache after
    it holds nothing new but, possibly, the session it returned. *)
Theorem load_session_only_reads svc io now (token sid : pystr) (st : stores) :
  let res := load_session svc io now token sid st in
  rshub res.2 = rshub st
  ∧ writes_of (drop (length (io_log st)) (io_log res.2)) = []
  ∧ (∀ d, res.1 = Some d →
       rshub st !! (token, sid) = Some d ∨ local_cache st !! sid = Some d)
  ∧ (∀ k d, local_cache res.2 !! k = Some d →
       local_cache st !! k = Some d ∨ (k = sid ∧ res.1 = Some d)).
Proof.
  simpl. split_and!.
  - apply load_session_rshub.
  - destruct (load_session_log svc io now token sid st) as (evs & -> & Hw).
    by rewrite drop_app_length.
  - destruct (load_session_cases svc io now token sid st)
      as [(r & -> & Hr)|(d & Hd & ->)]; simpl; [done|].
    intros ? [= <-]. by left.
  - destruct (load_session_cases svc io now token sid st)
      as [(r & -> & Hr)|(d & Hd & ->)]; simpl; [by left|].
    intros k d' Hk. apply save_local_cache in Hk as [?|[-> ->]]; auto.
Qed.

(** The cache is keyed by the session id alone.  A session that sits in
    the local cache is returned to whatever token asks for its id: always
    in local mode, and in production whenever the remote store has nothing
    to give for that token. *)
Theorem local_cache_ignores_token svc io now (token sid : pystr) (st : stores)
    (d : session_data) :
  enable_local_cache svc = true →
  local_read_ok io = true →
  local_cache st !! sid = Some d →
  DEPLOYMENT_MODE (settings_ svc) = local
  ∨ _load_session_from_rshub io token sid st = None →
  load_session svc io now token sid st = (Some d, st).
Proof.
  intros Hc Hr Hd Hmode. unfold load_session, _load_session_from_local.
  rewrite Hc, Hr, Hd. simpl.
  destruct (DEPLOYMENT_MODE _); [|done].
  destruct Hmode as [?| ->]; done.
Qed.


(** A turn that is reported as saved and then lost.  In production with
    the local cache on, an update whose remote write fails falls back on the
    cache and reports success; the next load that reaches the remote store
    returns the session as it was before the update, and writes that old
    copy over the cache entry. *)
Theorem unsynced_update_is_lost svc io1 io2 now1 now2 (token sid p a : pystr)
    (st : stores) (old : session_data) :
  DEPLOYMENT_MODE (settings_ svc) = production →
  enable_local_cache svc = true →
  rshub_write_ok io1 = false →
  local_write_ok io1 = true →
  rshub st !! (token, sid) = Some old →
  rshub_read_ok io2 = true →
  let upd := update_session svc io1 now1 token sid p a st in
  let reload := load_session svc io2 now2 token sid upd.2 in
  ur_success upd.1 = true
  ∧ ur_rshub_sync upd.1 = Some false
  ∧ reload.1 = Some old
  ∧ (local_write_ok io2 = true →
     ∀ d, local_cache reload.2 !! sid = Some d → d = old).
Proof.
  intros Hmode Hc Hw Hl Hold Hr. simpl. unfold update_session.
  pose proof (load_session_rshub svc io1 now1 token sid st) as Hrs.
  destruct (load_session svc io1 now1 token sid st) as [loaded st0]. simpl in *.
  set (d1 := SessionData _ _ _ _ _). clearbody d1.
  rewrite Hmode, Hc. unfold _save_session_to_rshub. rewrite Hw. simpl.
  set (st1 := Stores _ _ _).
  assert (Hst1 : rshub st1 = rshub st) by done. clearbody st1.
  unfold _save_session_to_local. rewrite Hc, Hl. simpl.
  set (st2 := Stores _ _ _).
  assert (Hst2 : rshub st2 = rshub st1) by done. clearbody st2.
  assert (Hlook : rshub st2 !! (token, sid) = Some old) by congruence.
  split_and!; [done|done| |].
  - unfold load_session, _load_session_from_rshub. by rewrite Hmode, Hr, Hlook, Hc.
  - intros Hl2 d. unfold load_session, _load_session_from_rshub.
    rewrite Hmode, Hr, Hlook, Hc. simpl.
    unfold _save_session_to_local. rewrite Hc, Hl2. simpl. intros Hd.
    pose proof (lookup_weaken _ _ _ _ Hd (cleanup_only_deletes _ _ _)) as Hd'.
    rewrite lookup_insert_eq in Hd'. by simplify_eq.
Qed.

End StoreProperties.

(** A session cached for one token is handed to another. *)
Lemma local_cache_ignores_token_witness :
  let st := (ChatSession.create_session (demo_service local true) all_up 7
               (cps "1700000000000") (cps "title") (cps "token of A")
               (cps "hello") (cps "hi") empty_stores).2 in
  ∃ d, ChatSession.load_session (demo_service local true) rshub_down 8
         (cps "token of B") (cps "1700000000000") st = (Some d, st)
       ∧ ChatSession.messages d
         = [ChatSession.Message ChatSession.user (cps "hello") 7;
            ChatSession.Message ChatSession.assistant (cps "hi") 7].
Proof.
  cbv zeta. eexists. split.
  - apply (local_cache_ignores_token (demo_service local true) rshub_down 8
             (cps "token of B") (cps "1700000000000")).
    + done.
    + done.
    + by vm_compute.
    + by left.
  - done.
Defined.


Lemma unsynced_update_is_lost_witness :
  let svc := demo_service production true in
  let upd := ChatSession.update_session svc rshub_down 7
               (cps "tok") (cps "s6") (cps "q") (cps "a") s6_stores in
  let reload := ChatSession.load_session svc all_up 8 (cps "tok") (cps "s6") upd.2 in
  ChatSession.ur_success upd.1 = true
  ∧ ChatSession.ur_rshub_sync upd.1 = Some false
  ∧ reload.1 = Some s6_session
  ∧ (ChatSession.local_write_ok all_up = true →
     ∀ d, ChatSession.local_cache reload.2 !! cps "s6" = Some d → d = s6_session).
Proof.
  cbv zeta.
  apply (unsynced_update_is_lost (demo_service production true) rshub_down all_up 7 8
           (cps "tok") (cps "s6") (cps "q") (cps "a") s6_stores s6_session); done.
Defined.

(** * Titles and the latest session *)

Section TitleFacts.
Import Classifier ChatSessionMore.
Context `{Unicode}.

Lemma replace_newline s : Forall (λ c, c ≠ newline) (replace_char newline space s).
Proof.
  unfold replace_char. apply Forall_fmap, list.Forall_forall. intros c _. simpl.
  by destruct (decide (c = newline)).
Qed.

Lemma remove_char_removed old s : Forall (λ c, c ≠ old) (remove_char old s).
Proof.
  unfold remove_char. apply list.Forall_forall. intros c Hc.
  by apply list_elem_of_filter in Hc as [? _].
Qed.

Lemma remove_char_keeps (P : N → Prop) old s :
  Forall P s → Forall P (remove_char old s).
Proof.
  unfold remove_char. rewrite !list.Forall_forall. intros HP c Hc.
  apply list_elem_of_filter in Hc as [_ Hc]. by apply HP.
Qed.

End TitleFacts.

Section LatestFacts.
Import ChatSession ChatSessionMore.

Lemma insert_desc_not_nil x l : insert_desc x l ≠ [].
Proof. destruct l as [|y l]; simpl; [done|]. by destruct (decide _). Qed.

Lemma sort_nil l : sort_by_updated_at_desc l = [] → l = [].
Proof.
  destruct l as [|x l]; [done|]. simpl. intros E.
  by destruct (insert_desc_not_nil x (sort_by_updated_at_desc l)).
Qed.

(** The first element of the sorted list is one of the list with the
    greatest key. *)
Lemma sort_head l m rest :
  sort_by_updated_at_desc l = m :: rest →
  m ∈ l ∧ ∀ y, y ∈ l → sm_updated_at y ≤ sm_updated_at m.
Proof.
  revert m rest. induction l as [|x l IH]; intros m rest; [done|]. simpl.
  destruct (sort_by_updated_at_desc l) as [|y s] eqn:E; simpl.
  - apply sort_nil in E as ->. intros [= <- <-]. split; [left|].
    intros y Hy. apply list_elem_of_singleton in Hy as ->. done.
  - destruct (IH y s eq_refl) as [Hy Hmax].
    destruct (decide _) as [Hlt|Hge]; intros [= <- <-].
    + split; [by right|]. intros z [->|Hz]%elem_of_cons; [lia|auto].
    + split; [left|]. intros z [->|Hz]%elem_of_cons; [done|].
      specialize (Hmax z Hz). lia.
Qed.

End LatestFacts.

Section TitleProperties.
Import Classifier ChatSession ChatSessionMore.

(** The title of a new session.  When the LLM answers, the title is never
    empty, has at most 23 characters (20 and the dots) and holds no line
    break and no quote.  When the LLM fails and the prompt has at most three
    words, the title is the prompt, cut to 20 characters and the dots. *)
Theorem session_title_shape `{Unicode} (llm : llm_outcome) (user_prompt : pystr) :
  let title := _generate_session_title llm user_prompt in
  (∀ response, llm = LlmResponse response →
     1 ≤ length title ≤ 23
     ∧ Forall (λ c, c ∉ [newline; double_quote; single_quote]) title)
  ∧ (∀ message, llm = LlmError message → length (py_split user_prompt) ≤ 3 →
       length title ≤ 23 ∧ (length user_prompt ≤ 20 → title = user_prompt)).
Proof.
  simpl. split.
  - intros response ->. simpl.
    set (t := remove_char single_quote _).
    assert (Ht : Forall (λ c, c ∉ [newline; double_quote; single_quote]) t).
    { assert (H1 : Forall (λ c, c ≠ newline) t).
      { apply remove_char_keeps, remove_char_keeps, replace_newline. }
      assert (H2 : Forall (λ c, c ≠ double_quote) t).
      { apply remove_char_keeps, remove_char_removed. }
      assert (H3 : Forall (λ c, c ≠ single_quote) t) by apply remove_char_removed.
      rewrite list.Forall_forall in *. intros c Hc. specialize (H1 c Hc).
      specialize (H2 c Hc). specialize (H3 c Hc). set_solver. }
    clearbody t.
    assert (Hdots : length dots = 3) by done.
    destruct (decide (20 < length t)) as [Hlong|Hshort].
    + destruct (take 20 t ++ dots) as [|c l] eqn:E.
      { apply (f_equal length) in E. rewrite length_app, length_take, Hdots in E.
        simpl in E. lia. }
      rewrite <- E. split.
      * rewrite length_app, length_take, Hdots. lia.
      * apply Forall_app. split; [by apply Forall_take|].
        repeat constructor; unfold newline, double_quote, single_quote; set_solver.
    + destruct t as [|c l].
      * split; [simpl; lia|].
        repeat constructor; unfold newline, double_quote, single_quote; set_solver.
      * split; [simpl in *; lia|done].
  - intros message -> Hwords. simpl.
    destruct (decide (3 < _)) as [?|_]; [lia|].
    destruct (decide (20 < length user_prompt)).
    + split; [|lia]. rewrite length_app, length_take.
      change (length dots) with 3. lia.
    + split; [lia|done].
Qed.

End TitleProperties.

Section LatestProperties.
Import ChatSession ChatSessionMore.

(** Without a chat id, a request continues the most recently updated
    session of the local cache, whoever it belongs to: when the directory
    scan finds a cached session, [find_latest_session] returns a cached
    session with the greatest [updated_at] of the scan for every token, in
    local mode always and in production whenever the remote store gives
    nothing for that token. *)
Theorem latest_session_ignores_token svc io now (listing rshub_session_ids : list pystr)
    (token : pystr) (st : stores) :
  enable_local_cache svc = true →
  local_read_ok io = true →
  (∀ k d, local_cache st !! k = Some d → session_id d = k) →
  (∃ k, k ∈ listing ∧ is_Some (local_cache st !! k)) →
  DEPLOYMENT_MODE (settings_ svc) = local
  ∨ (∀ k, _load_session_from_rshub io token k st = None) →
  ∃ d, find_latest_session svc io now listing rshub_session_ids token st = (Some d, st)
       ∧ session_id d ∈ listing
       ∧ local_cache st !! session_id d = Some d
       ∧ ∀ k d', k ∈ listing → local_cache st !! k = Some d' →
                 updated_at d' ≤ updated_at d.
Proof.
  intros Hc Hr Hcons (k0 & Hk0 & [d0 Hd0]) Hmode.
  unfold find_latest_session, _list_local_sessions. rewrite Hc. simpl.
  set (ls := omap _ listing).
  assert (Hls : ∀ s, s ∈ ls ↔ ∃ k d, k ∈ listing ∧ local_cache st !! k = Some d
                                    ∧ s = summary d).
  { intros s. unfold ls. rewrite list_elem_of_omap. split.
    - intros (k & Hk & Hs). destruct (local_cache st !! k) as [d|] eqn:E; [|done].
      simpl in Hs. exists k, d. by simplify_eq.
    - intros (k & d & Hk & Hd & ->). exists k. by rewrite Hd. }
  assert (Hin : summary d0 ∈ ls) by (apply Hls; eauto).
  clearbody ls.
  destruct ls as [|s0 ls0] eqn:Els; [by apply elem_of_nil in Hin|].
  rewrite <- Els in *. clear Els s0 ls0.
  destruct (sort_by_updated_at_desc ls) as [|latest rest] eqn:Es.
  { apply sort_nil in Es. subst ls. by apply elem_of_nil in Hin. }
  apply sort_head in Es as [Hl Hmax].
  apply Hls in Hl as (k & d & Hk & Hd & ->).
  pose proof (Hcons k d Hd) as Hid. simpl.
  exists d. rewrite Hid. split_and!; [|done|done|].
  - unfold load_session, _load_session_from_local. rewrite Hc, Hr, Hd. simpl.
    destruct (DEPLOYMENT_MODE _); [|done].
    destruct Hmode as [?|Hnone]; [done|]. by rewrite Hnone.
  - intros k' d' Hk' Hd'.
    apply (Hmax (summary d')). apply Hls. eauto.
Qed.

End LatestProperties.

Section ListingFacts.
Import ChatSession ChatSessionMore.
Context (svc : ChatSessionService) (io : io_outcome).

Lemma insert_desc_perm x l : insert_desc x l ≡ₚ x :: l.
Proof.
  induction l as [|y l IH]; simpl; [done|].
  destruct (decide _); [|done]. rewrite IH. apply Permutation_swap.
Qed.

Lemma sort_perm l : sort_by_updated_at_desc l ≡ₚ l.
Proof.
  induction l as [|x l IH]; simpl; [done|]. by rewrite insert_desc_perm, IH.
Qed.

Lemma insert_desc_sorted x l : newest_first l → newest_first (insert_desc x l).
Proof.
  induction l as [|y l IH]; simpl; [done|]. intros [Hy Hl].
  destruct (decide _) as [Hlt|Hge]; simpl.
  - split; [|by apply IH]. rewrite insert_desc_perm. constructor; [lia|done].
  - split; [|done]. constructor; [lia|].
    eapply list.Forall_impl; [exact Hy|]. simpl. intros z Hz. lia.
Qed.

Lemma sort_sorted l : newest_first (sort_by_updated_at_desc l).
Proof. induction l as [|x l IH]; simpl; [done|]. by apply insert_desc_sorted. Qed.

(** What the loop over the remote ids adds: one entry for each listed id
    that is not there yet and that the remote store can give. *)
Lemma add_rshub_sessions_spec token st ids seen sessions :
  ∃ extra,
    add_rshub_sessions io token st ids seen sessions = sessions ++ extra
    ∧ NoDup (sm_session_id <$> extra)
    ∧ Forall (λ s, sm_session_id s ∈ ids ∧ (sm_session_id s ∉ seen)
                   ∧ ∃ d, rshub st !! (token, sm_session_id s) = Some d
                          ∧ s = SessionSummary (sm_session_id s) (title d)
                                  (created_at d) (updated_at d) (length (messages d)))
             extra.
Proof.
  revert seen sessions. induction ids as [|i ids IH]; intros seen sessions; simpl.
  - exists []. rewrite app_nil_r. split_and!; [done|apply base.NoDup_nil_2|done].
  - assert (Hskip : ∀ extra,
      Forall (λ s, sm_session_id s ∈ ids ∧ (sm_session_id s ∉ seen)
                   ∧ ∃ d, rshub st !! (token, sm_session_id s) = Some d
                          ∧ s = SessionSummary (sm_session_id s) (title d)
                                  (created_at d) (updated_at d) (length (messages d)))
             extra →
      Forall (λ s, sm_session_id s ∈ i :: ids ∧ (sm_session_id s ∉ seen)
                   ∧ ∃ d, rshub st !! (token, sm_session_id s) = Some d
                          ∧ s = SessionSummary (sm_session_id s) (title d)
                                  (created_at d) (updated_at d) (length (messages d)))
             extra).
    { intros extra Hx. eapply list.Forall_impl; [exact Hx|]. simpl.
      intros s (? & ? & ?). split_and!; [by right|done|done]. }
    destruct (decide (i ∈ seen)) as [Hin|Hnew].
    { destruct (IH seen sessions) as (extra & -> & Hnd & Hall).
      exists extra. split_and!; [done|done|by apply Hskip]. }
    destruct (_load_session_from_rshub io token i st) as [d|] eqn:E.
    + destruct (IH ({[i]} ∪ seen)
                  (sessions ++ [SessionSummary i (title d) (created_at d)
                                  (updated_at d) (length (messages d))]))
        as (extra & -> & Hnd & Hall).
      eexists (_ :: extra). rewrite <- app_assoc. split_and!; [done| |].
      * simpl. apply list.NoDup_cons. split; [|done].
        intros Hi. apply list_elem_of_fmap in Hi as (s & Hs & Hin).
        rewrite list.Forall_forall in Hall. destruct (Hall s Hin) as (_ & Hn & _).
        rewrite <- Hs in Hn. set_solver.
      * constructor.
        -- simpl. split_and!; [left|done|]. exists d. split; [|done].
           unfold _load_session_from_rshub in E. by destruct (rshub_read_ok io).
        -- eapply list.Forall_impl; [exact Hall|]. simpl.
           intros s (? & ? & ?). split_and!; [by right|set_solver|done].
    + destruct (IH seen sessions) as (extra & -> & Hnd & Hall).
      exists extra. split_and!; [done|done|by apply Hskip].
Qed.

(** The ids of the local entries are those of the scanned files. *)
Lemma local_ids_sublist (listing : list pystr) (st : stores) :
  (∀ k d, local_cache st !! k = Some d → session_id d = k) →
  sm_session_id <$> filter (λ s, sm_session_id s ≠ [])
                      (omap (λ stem, summary <$> local_cache st !! stem) listing)
  `sublist_of` listing.
Proof.
  intros Hcons. induction listing as [|k listing IH]; simpl; [done|].
  destruct (local_cache st !! k) as [d|] eqn:E; simpl.
  - rewrite filter_cons. destruct (decide _); simpl.
    + rewrite (Hcons k d E). by apply sublist_skip.
    + by apply sublist_cons.
  - by apply sublist_cons.
Qed.

End ListingFacts.

Section ListingProperties.
Import ChatSession ChatSessionMore.

(** The list of sessions.  It is in descending order of [updated_at].  It
    holds every session of the local cache that the scan finds (and that
    has an id), whatever the token is; every entry is such a cached
    session or a session that the remote store holds for the token under a
    listed id.  When the cached files carry their own ids, no id is listed
    twice. *)
Theorem list_sessions_merges svc io (listing rshub_session_ids : list pystr)
    (token : pystr) (st : stores) :
  let result := list_sessions svc io listing rshub_session_ids token st in
  newest_first result
  ∧ (enable_local_cache svc = true →
     ∀ k d, k ∈ listing → local_cache st !! k = Some d → session_id d ≠ [] →
            summary d ∈ result)
  ∧ (∀ s, s ∈ result →
       (∃ k d, k ∈ listing ∧ local_cache st !! k = Some d ∧ s = summary d)
       ∨ (sm_session_id s ∈ rshub_session_ids
          ∧ ∃ d, rshub st !! (token, sm_session_id s) = Some d
                 ∧ s = SessionSummary (sm_session_id s) (title d) (created_at d)
                         (updated_at d) (length (messages d))))
  ∧ (NoDup listing →
     (∀ k d, local_cache st !! k = Some d → session_id d = k) →
     NoDup (sm_session_id <$> result)).
Proof.
  simpl. unfold list_sessions.
  set (local := filter _ (_list_local_sessions svc listing st)).
  destruct (add_rshub_sessions_spec io token st rshub_session_ids
              (list_to_set (sm_session_id <$> local)) local)
    as (extra & -> & Hnd & Hextra).
  assert (Hlocal : ∀ s, s ∈ local →
            ∃ k d, k ∈ listing ∧ local_cache st !! k = Some d ∧ s = summary d).
  { intros s. unfold local, _list_local_sessions.
    rewrite list_elem_of_filter. intros [_ Hs].
    destruct (enable_local_cache svc); simpl in Hs; [|by apply elem_of_nil in Hs].
    apply list_elem_of_omap in Hs as (k & Hk & Hs).
    destruct (local_cache st !! k) as [d|] eqn:E; [|done].
    simpl in Hs. exists k, d. by simplify_eq. }
  split_and!.
  - apply sort_sorted.
  - intros Hc k d Hk Hd Hid. rewrite sort_perm. apply elem_of_app. left.
    unfold local, _list_local_sessions. rewrite Hc. simpl.
    apply list_elem_of_filter. split; [done|].
    apply list_elem_of_omap. exists k. by rewrite Hd.
  - intros s. rewrite sort_perm. intros [Hs|Hs]%elem_of_app.
    + left. by apply Hlocal.
    + right. rewrite list.Forall_forall in Hextra.
      destruct (Hextra s Hs) as (? & _ & ?). done.
  - intros Hlisting Hcons. rewrite sort_perm, fmap_app.
    apply list.NoDup_app. split_and!; [| |done].
    + unfold local, _list_local_sessions.
      destruct (enable_local_cache svc); simpl; [|apply base.NoDup_nil_2].
      eapply sublist_NoDup; [exact Hlisting|by apply local_ids_sublist].
    + intros i Hi Hi'. apply list_elem_of_fmap in Hi' as (s & -> & Hs).
      rewrite list.Forall_forall in Hextra. destruct (Hextra s Hs) as (_ & Hn & _).
      apply Hn. by apply elem_of_list_to_set.
Qed.

End ListingProperties.

(** A long answer in quotes loses the quotes and is cut to 20 characters
    and the dots. *)
Lemma session_title_shape_example :
  @ChatSessionMore._generate_session_title ascii_tables
    (Classifier.LlmResponse (cps "  'Soil moisture retrieval from SAR, an overview'  ")) []
  = cps "Soil moisture retrie...".
Proof. by vm_compute. Qed.

(** Token B, which owns nothing, is given the session that token A
    created. *)
Lemma latest_session_ignores_token_witness :
  let svc := demo_service local true in
  let st := (ChatSession.create_session svc all_up 7
               (cps "1700000000000") (cps "title") (cps "token of A")
               (cps "hello") (cps "hi") empty_stores).2 in
  ∃ d, ChatSessionMore.find_latest_session svc rshub_down 8 [cps "1700000000000"] []
         (cps "token of B") st = (Some d, st)
       ∧ ChatSession.session_id d ∈ [cps "1700000000000"]
       ∧ ChatSession.local_cache st !! ChatSession.session_id d = Some d
       ∧ ∀ k d', k ∈ [cps "1700000000000"] → ChatSession.local_cache st !! k = Some d' →
                 ChatSession.updated_at d' ≤ ChatSession.updated_at d.
Proof.
  cbv zeta.
  apply (latest_session_ignores_token (demo_service local true) rshub_down 8
           [cps "1700000000000"] [] (cps "token of B")).
  - done.
  - done.
  - intros k d.
    unfold ChatSession.create_session, ChatSession._save_session_to_local,
      ChatSession._save_session_to_rshub. simpl.
    destruct (decide (k = cps "1700000000000")) as [->|Hne].
    + rewrite lookup_insert_eq. by intros [= <-].
    + rewrite lookup_insert_ne by done. by rewrite lookup_empty.
  - exists (cps "1700000000000"). split; [left|].
    unfold ChatSession.create_session, ChatSession._save_session_to_local,
      ChatSession._save_session_to_rshub. simpl.
    rewrite lookup_insert_eq. by eexists.
  - by left.
Defined.

(** * More of the turn: the context window and the session write *)

Section WindowFacts.
Import ChatRouter.

Lemma truncate_history_short (all_messages : list ChatSession.message) :
  length all_messages ≤ max_load_messages →
  truncate_history all_messages = all_messages.
Proof.
  intros Hle. unfold truncate_history. destruct (decide _); [lia|done].
Qed.

Lemma truncate_history_long (all_messages : list ChatSession.message) :
  max_load_messages < length all_messages →
  truncate_history all_messages
  = take 2 all_messages ++ drop (length all_messages - 28) all_messages.
Proof.
  intros Hlt. unfold truncate_history, slice_last, max_load_messages in *.
  destruct (decide (30 < _)); [|lia]. by destruct (decide (30 - 2 = 0)).
Qed.

Lemma truncate_history_spec (all_messages : list ChatSession.message) :
  length (truncate_history all_messages) ≤ max_load_messages
  ∧ truncate_history all_messages `sublist_of` all_messages
  ∧ take 2 (truncate_history all_messages) = take 2 all_messages
  ∧ slice_last 28 (truncate_history all_messages) = slice_last 28 all_messages.
Proof.
  destruct (decide (max_load_messages < length all_messages)) as [Hlt|Hge].
  - rewrite truncate_history_long by done. unfold max_load_messages in *.
    split_and!.
    + rewrite length_app, length_take, length_drop. lia.
    + trans (take 2 all_messages ++ drop 2 all_messages); [|by rewrite take_drop].
      apply sublist_app; [done|].
      replace (length all_messages - 28) with (2 + (length all_messages - 30)) by lia.
      rewrite <- drop_drop. apply sublist_drop.
    + rewrite take_app_le by (rewrite length_take; lia). by rewrite take_take.
    + unfold slice_last. simpl.
      rewrite length_app, length_take, length_drop.
      rewrite drop_app_ge by (rewrite length_take; lia).
      rewrite length_take, drop_drop. f_equal. lia.
  - rewrite truncate_history_short by lia. split_and!; [lia|done|done|done].
Qed.

End WindowFacts.

Section RecordFacts.
Import Classifier Agent ChatRouter.
Context `{Unicode} (env : environment) (request : ChatRequest).

Abbreviation sid := (the_session_id env request).

Lemma session_writes_app e1 e2 :
  session_writes (e1 ++ e2) = session_writes e1 ++ session_writes e2.
Proof. apply omap_app. Qed.

Lemma no_session_writes evs : Forall no_write evs → session_writes evs = [].
Proof. induction 1 as [|ev evs Hev _ IH]; [done|]. by destruct ev. Qed.

Lemma agent_event_no_write ev : agent_event ev → no_write ev.
Proof. by destruct ev. Qed.

Lemma abort_events_no_write n : Forall no_write (abort_events env sid n).
Proof. unfold abort_events. destruct (abort_during _ _); by repeat constructor. Qed.

Lemma recorded_prefix e1 e2 r :
  Forall no_write e1 → recorded request e2 r → recorded request (e1 ++ e2) r.
Proof.
  intros He1. unfold recorded.
  by rewrite session_writes_app, (no_session_writes e1 He1).
Qed.

Lemma records_bind {A} (m : M A) (f : A → M ChatResponse) :
  appends no_write m → (∀ a, records request (f a)) → records request (bind m f).
Proof.
  intros Hm Hf w. unfold bind. destruct (Hm w) as (e1 & Ht1 & H1).
  destruct (m w) as [[a|e] w1]; simpl in *.
  - destruct (Hf a w1) as (e2 & Ht2 & H2).
    exists (e1 ++ e2). rewrite Ht2, Ht1, app_assoc. split; [done|].
    by apply recorded_prefix.
  - exists e1. split; [done|]. by apply no_session_writes.
Qed.

Lemma records_ret_silent r st tt vars src money :
  st ∉ answered → records request (ret (respond env request r st tt vars src money)).
Proof.
  intros Hst w. exists []. rewrite app_nil_r. split; [done|].
  simpl. by destruct (decide _).
Qed.

Lemma records_raise e : records request (raise e).
Proof. intros w. exists []. rewrite app_nil_r. by split. Qed.

Lemma appends_settle tok : appends no_write (settle env request tok).
Proof.
  intros w. destruct (settle_spec env request tok w) as (info & w' & -> & Hw').
  simpl. destruct (DEPLOYMENT_MODE _).
  - destruct (Qc_positive _).
    + destruct Hw' as [-> _]. eexists. split; [done|].
      constructor; [done|apply abort_events_no_write].
    + subst w'. exists []. by rewrite app_nil_r.
  - subst w'. exists []. by rewrite app_nil_r.
Qed.

(** The session write and the response that follows it. *)
Lemma records_persist tok vars result st tt src money :
  st ∈ answered →
  records request (bind (persist_session env request tok vars result) (λ vars',
           ret (respond env request (text result) st tt vars' src money))).
Proof.
  intros Hst w. unfold bind, persist_session.
  assert (Hw : ∀ ev, session_writes [ev] = [(message request, result)] →
            session_writes (ev :: abort_events env sid (external_calls w))
            = [(message request, result)]).
  { intros ev Hev. change (ev :: ?l) with ([ev] ++ l).
    by rewrite session_writes_app, Hev,
      (no_session_writes _ (abort_events_no_write _)). }
  destruct (is_new_chat vars); unfold bind; simpl.
  - destruct (create_session_result env) as [[ok new_id] new_title].
    destruct ok; simpl; eexists; (split; [done|]);
      (destruct (decide _); [|done]); exists result; (split; [done|]); by apply Hw.
  - eexists. split; [done|]. destruct (decide _); [|done].
    exists result. split; [done|]. by apply Hw.
Qed.

Lemma records_settle_persist tok vars result st tt src :
  st ∈ answered →
  records request (bind (settle env request tok) (λ money,
           bind (persist_session env request tok vars result) (λ vars',
           ret (respond env request (text result) st tt vars' src (Some money))))).
Proof.
  intros Hst. apply records_bind; [apply appends_settle|].
  intros money. by apply records_persist.
Qed.

Lemma appends_preflight_no_write tok : appends no_write (preflight env request tok).
Proof.
  unfold preflight. destruct (DEPLOYMENT_MODE _); [|apply appends_ret].
  apply appends_bind; [by apply appends_external|]. intros _.
  destruct (Credit.check_credits _) as [[] ?]; [apply appends_ret|apply appends_raise].
Qed.

Lemma appends_agent_no_write z :
  appends no_write (run_analysis_agent env sid z (message request)).
Proof.
  eapply appends_weaken; [|apply appends_run_analysis_agent].
  apply agent_event_no_write.
Qed.

Lemma appends_load_history_no_write tok :
  appends no_write (load_history env request tok).
Proof.
  unfold load_history.
  repeat first
    [ apply appends_bind; [|intros ?]
    | apply appends_ret
    | apply appends_external; [done|done]
    | match goal with
      | |- appends _ (if ?b then _ else _) => destruct b
      | |- appends _ (match ?x with _ => _ end) => destruct x
      end ].
Qed.

Lemma records_second_stage tok vars v :
  records request (second_stage env request tok vars v).
Proof.
  unfold second_stage. apply records_bind.
  - destruct (decide _).
    + apply appends_bind.
      * eapply appends_weaken; [|apply appends_run_knowledge_query].
        apply agent_event_no_write.
      * intros ?. apply appends_ret.
    + apply appends_bind; [apply appends_agent_no_write|]. intros [z|s];
        [apply appends_raise|apply appends_ret].
  - intros [result src]. apply records_settle_persist. unfold answered. set_solver.
Qed.

Lemma records_dispatch tok vars v : records request (dispatch env request tok vars v).
Proof.
  unfold dispatch.
  do 4 (destruct (decide (v = _)) as [?|?];
        [apply records_ret_silent; unfold answered; set_solver|]).
  destruct (decide (v = PInt 3 ∧ _)) as [?|?]; [|destruct (decide (v = _)) as [?|?]].
  - apply records_bind; [apply appends_settle|]. intros money.
    apply records_ret_silent. unfold answered. set_solver.
  - apply records_bind; [apply appends_agent_no_write|]. intros result.
    apply records_settle_persist. unfold answered. set_solver.
  - apply records_bind; [apply appends_preflight_no_write|]. intros _.
    apply records_second_stage.
Qed.

Lemma records_classify_and_dispatch tok vars :
  records request (classify_and_dispatch env request tok vars).
Proof.
  unfold classify_and_dispatch.
  apply records_bind; [apply appends_with_billing|]. intros _.
  apply records_bind; [apply appends_agent_no_write|].
  intros v. apply records_dispatch.
Qed.

Lemma records_try_except vars (m : M ChatResponse) :
  records request m → records request (try_except m (on_exception env request vars)).
Proof.
  intros Hm w. unfold try_except. destruct (Hm w) as (evs & Ht & Hs).
  destruct (m w) as [[resp|[code|message]] w1]; simpl in *.
  - by exists evs.
  - by exists evs.
  - by exists evs.
Qed.

End RecordFacts.

Section TurnProperties.
Import Classifier Agent ChatRouter.

(** The context of a turn.  Loading the history never fails.  When no
    stored session is found the turn starts a new chat with an empty
    context.  Otherwise it continues that session, and its context is a
    subsequence of the stored messages, in their order, of at most 30
    messages, which begins with the first two stored messages and ends with
    the 28 most recent ones. *)
Theorem context_window `{Unicode} (env : environment) (request : ChatRequest)
    (rshub_token : pystr) (w : world) :
  ∃ vars,
    (load_history env request rshub_token w).1 = Return vars
    ∧ match found env request with
      | None =>
          chat_history vars = [] ∧ is_new_chat vars = true ∧ v_chat_id vars = None
      | Some session_data =>
          let stored := ChatSession.messages session_data in
          is_new_chat vars = false
          ∧ is_Some (v_chat_id vars)
          ∧ length (chat_history vars) ≤ 30
          ∧ chat_history vars `sublist_of` stored
          ∧ take 2 (chat_history vars) = take 2 stored
          ∧ slice_last 28 (chat_history vars) = slice_last 28 stored
      end.
Proof.
  unfold load_history, found.
  destruct (Auth.truthy (chat_id request)); unfold bind; simpl.
  - destruct (load_session_result env) as [d|]; simpl; eexists; (split; [done|]).
    + simpl. destruct (truncate_history_spec (ChatSession.messages d)) as (?&?&?&?).
      by split_and!.
    + done.
  - destruct (find_latest_session_result env) as [d|]; simpl; eexists;
      (split; [done|]).
    + simpl. destruct (truncate_history_spec (ChatSession.messages d)) as (?&?&?&?).
      by split_and!.
    + done.
Qed.

(** What is stored is what was answered.  A turn that answers (status
    success or general_answer) hands the session store exactly one write,
    made of the message of the request and of the very text of the
    response.  Every other turn, whether it returns another status or ends
    in an HTTP error, writes nothing to the session store. *)
Theorem stored_turn_is_the_answer `{Unicode} (env : environment)
    (request : ChatRequest) (w : world) :
  ∃ evs,
    trace (agent_chat env request w).2 = trace w ++ evs
    ∧ match (agent_chat env request w).1 with
      | Return resp =>
          if decide (status_ resp ∈ answered)
          then ∃ answer, response resp = text answer
                         ∧ session_writes evs = [(message request, answer)]
          else session_writes evs = []
      | Raise _ => session_writes evs = []
      end.
Proof.
  assert (Hall : records request (agent_chat env request)); [|apply Hall].
  unfold agent_chat. destruct (Auth.get_rshub_token _ _) as [tok|].
  - apply records_bind; [apply appends_load_history_no_write|].
    intros vars. apply records_try_except, records_classify_and_dispatch.
  - apply records_raise.
Qed.

End TurnProperties.

(** * The agent factory *)

Section DictFacts.
Import AgentFactory.
Context {V : Type}.
Implicit Types (d : dict V) (k : pystr) (v : V).

Lemma dict_get_set_eq k v d : dict_get k (dict_set k v d) = Some v.
Proof.
  induction d as [|[k' v'] d IH]; simpl.
  - by destruct (decide (k = k)).
  - destruct (decide (k' = k)) as [->|Hne]; simpl.
    + by destruct (decide (k = k)).
    + by destruct (decide (k' = k)).
Qed.

Lemma dict_get_set_ne k k' v d : k ≠ k' → dict_get k' (dict_set k v d) = dict_get k' d.
Proof.
  intros Hne. induction d as [|[k0 v0] d IH]; simpl.
  - by destruct (decide (k = k')).
  - destruct (decide (k0 = k)) as [->|Hk]; simpl.
    + by destruct (decide (k = k')).
    + destruct (decide (k0 = k')); [done|apply IH].
Qed.

Lemma dict_keys_set_in k v d :
  k ∈ dict_keys d → dict_keys (dict_set k v d) = dict_keys d.
Proof.
  unfold dict_keys. induction d as [|[k' v'] d IH]; intros Hin.
  - by apply elem_of_nil in Hin.
  - cbn [dict_set]. destruct (decide (k' = k)) as [->|Hne]; [done|].
    rewrite !fmap_cons. f_equal. apply IH.
    rewrite fmap_cons in Hin. apply elem_of_cons in Hin as [?|?]; [|done].
    by destruct Hne.
Qed.

Lemma dict_keys_set_new k v d :
  k ∉ dict_keys d → dict_keys (dict_set k v d) = dict_keys d ++ [k].
Proof.
  unfold dict_keys. induction d as [|[k' v'] d IH]; intros Hn; [done|].
  rewrite fmap_cons in Hn. apply not_elem_of_cons in Hn as [Hne Hn].
  cbn [dict_set]. destruct (decide (k' = k)) as [->|_]; [done|].
  rewrite !fmap_cons, IH by done. done.
Qed.

Lemma dict_keys_set k v d :
  dict_keys (dict_set k v d)
  = if decide (k ∈ dict_keys d) then dict_keys d else dict_keys d ++ [k].
Proof.
  destruct (decide _); [by apply dict_keys_set_in|by apply dict_keys_set_new].
Qed.

Lemma dict_get_is_Some k d : is_Some (dict_get k d) ↔ k ∈ dict_keys d.
Proof.
  unfold dict_keys. induction d as [|[k' v'] d IH]; simpl.
  - split; [by intros [? [=]]|by intros ?%elem_of_nil].
  - destruct (decide (k' = k)) as [->|Hne].
    + split; [left|by eexists].
    + rewrite IH, elem_of_cons. naive_solver.
Qed.

Lemma dict_get_elem k v d : NoDup (dict_keys d) → (k, v) ∈ d → dict_get k d = Some v.
Proof.
  unfold dict_keys. induction d as [|[k' v'] d IH]; simpl; intros Hnd Hin.
  - by apply elem_of_nil in Hin.
  - apply list.NoDup_cons in Hnd as [Hk' Hnd].
    apply elem_of_cons in Hin as [[= -> ->]|Hin].
    + by destruct (decide (k' = k')).
    + destruct (decide (k' = k)) as [->|_]; [|by apply IH].
      destruct Hk'. apply list_elem_of_fmap. by exists (k, v).
Qed.

Lemma dict_keys_set_NoDup k v d : NoDup (dict_keys d) → NoDup (dict_keys (dict_set k v d)).
Proof.
  intros Hnd. rewrite dict_keys_set. destruct (decide _) as [|Hn]; [done|].
  apply list.NoDup_app. split_and!; [done| |apply list.NoDup_singleton].
  intros x Hx ->%list_elem_of_singleton. done.
Qed.

End DictFacts.

Section FactoryFacts.
Import AgentFactory FactoryOps.
Context {agent_class : Type}.
Implicit Types (f : factory agent_class) (o : op agent_class).

Lemma well_formed_step o f : well_formed f → well_formed (step o f).
Proof.
  intros [Hnd Hal]. destruct o as [t cls cfg|t]; simpl.
  - split.
    + by apply dict_keys_set_NoDup.
    + unfold aligned in *. simpl. rewrite !dict_keys_set, Hal. done.
  - unfold set_default_agent_type. by destruct (dict_get t _).
Qed.

Lemma well_formed_run ops f : well_formed f → well_formed (run ops f).
Proof.
  unfold run. revert f. induction ops as [|o ops IH]; intros f Hf; [done|].
  simpl. apply IH. by apply well_formed_step.
Qed.

Lemma well_formed_new : well_formed (@new agent_class).
Proof. split; [apply base.NoDup_nil_2|done]. Qed.

Lemma create_registered f t :
  aligned f → t ∈ list_agent_types f → is_Some (create_agent (Some t) f).
Proof.
  intros Hal Ht. unfold create_agent. simpl.
  pose proof Ht as Hc. apply dict_get_is_Some in Hc as [cfg ->].
  unfold list_agent_types in Ht. rewrite Hal in Ht.
  apply dict_get_is_Some in Ht as [cls ->]. by eexists.
Qed.

(** The default type, once registered, stays registered. *)
Lemma default_registered_step o f :
  _default_agent_type f ∈ list_agent_types f →
  _default_agent_type (step o f) ∈ list_agent_types (step o f).
Proof.
  intros Hd. destruct o as [t cls cfg|t]; simpl.
  - unfold list_agent_types. simpl. rewrite dict_keys_set.
    destruct (decide _); [done|]. apply elem_of_app. by left.
  - unfold set_default_agent_type.
    destruct (dict_get t (_agent_configs f)) as [cfg|] eqn:E; simpl; [|done].
    apply dict_get_is_Some. by eexists.
Qed.

Lemma default_registered_run ops f :
  _default_agent_type f ∈ list_agent_types f →
  _default_agent_type (run ops f) ∈ list_agent_types (run ops f).
Proof.
  unfold run. revert f. induction ops as [|o ops IH]; intros f Hf; [done|].
  simpl. apply IH. by apply default_registered_step.
Qed.

(** [find_agent_for_mode] returns the first registered type that supports
    the mode. *)
Lemma first_supporting_Some m (items : dict AgentConfig) t :
  first_supporting m items = Some t →
  ∃ before cfg after,
    items = before ++ (t, cfg) :: after
    ∧ m ∈ supported_modes cfg
    ∧ Forall (λ kv, m ∉ supported_modes kv.2) before.
Proof.
  induction items as [|[k cfg] items IH]; simpl; [done|].
  destruct (decide _) as [Hin|Hn].
  - intros [= ->]. by exists [], cfg, items.
  - intros Hf. destruct (IH Hf) as (before & cfg' & after & -> & Hm & Hb).
    exists ((k, cfg) :: before), cfg', after. split_and!; [done|done|].
    by constructor.
Qed.

Lemma first_supporting_None m (items : dict AgentConfig) :
  first_supporting m items = None → Forall (λ kv, m ∉ supported_modes kv.2) items.
Proof.
  induction items as [|[k cfg] items IH]; simpl; [by constructor|].
  destruct (decide _) as [Hin|Hn]; [done|]. intros Hf. constructor; auto.
Qed.

End FactoryFacts.

Section FactoryProperties.
Import AgentFactory FactoryOps.
Context {agent_class : Type}.

(** The registry.  Registering a type makes its configuration the one
    that is returned for it, leaves the other types alone, and keeps the
    order of the types: a new type goes last, a type that is registered
    again keeps its place.  After any history of calls the types are listed
    once each, and every listed type has a configuration and can be
    created. *)
Theorem registry_round_trip (ops : list (op agent_class)) (t : pystr)
    (cls : agent_class) (config : AgentConfig) :
  let f := run ops new in
  let f' := register_agent t cls config f in
  get_agent_config t f' = Some config
  ∧ create_agent (Some t) f' = Some (cls, config)
  ∧ (∀ t', t' ≠ t → get_agent_config t' f' = get_agent_config t' f
                    ∧ create_agent (Some t') f' = create_agent (Some t') f)
  ∧ list_agent_types f'
    = (if decide (t ∈ list_agent_types f) then list_agent_types f
       else list_agent_types f ++ [t])
  ∧ NoDup (list_agent_types f)
  ∧ (∀ t', t' ∈ list_agent_types f ↔ is_Some (get_agent_config t' f))
  ∧ (∀ t', t' ∈ list_agent_types f → is_Some (create_agent (Some t') f)).
Proof.
  simpl. destruct (well_formed_run ops new well_formed_new) as [Hnd Hal].
  set (f := run ops new) in *. clearbody f.
  unfold get_agent_config, create_agent, list_agent_types. simpl.
  rewrite !dict_get_set_eq. split_and!; [done|done| | |done| |].
  - intros t' Hne. by rewrite !dict_get_set_ne.
  - apply dict_keys_set.
  - intros t'. symmetry. apply dict_get_is_Some.
  - intros t' Ht'. by apply create_registered.
Qed.

(** The choice of an agent.  Once the manager has registered its agent
    (the default type), whatever is registered and whichever default is set
    afterwards, [run_agent] finds an agent to create for every mode: the
    first registered type whose configuration supports the mode, and the
    default type when no registered type does. *)
Theorem agent_is_always_chosen (ops : list (op agent_class)) (cls0 : agent_class)
    (config0 : AgentConfig) (instruction_mode : Z) :
  let f := run ops (register_agent (cps "langchain") cls0 config0 new) in
  ∃ t cls config,
    choose_agent instruction_mode f = Some (cls, config)
    ∧ create_agent (Some t) f = Some (cls, config)
    ∧ ((∃ before after,
          list_agent_types f = before ++ t :: after
          ∧ supports_mode t instruction_mode f = true
          ∧ Forall (λ t', supports_mode t' instruction_mode f = false) before)
       ∨ (t = get_default_agent_type f
          ∧ ∀ t', supports_mode t' instruction_mode f = false)).
Proof.
  simpl. set (f0 := register_agent _ cls0 config0 new).
  assert (Hwf0 : well_formed f0).
  { apply (well_formed_step (Register (cps "langchain") cls0 config0)), well_formed_new. }
  assert (Hd0 : _default_agent_type f0 ∈ list_agent_types f0) by (left).
  pose proof (well_formed_run ops f0 Hwf0) as [Hnd Hal].
  pose proof (default_registered_run ops f0 Hd0) as Hd.
  set (f := run ops f0) in *. clearbody f. clear Hwf0 Hd0 f0.
  assert (Hsupp : ∀ k cfg, (k, cfg) ∈ _agent_configs f →
            supports_mode k instruction_mode f
            = bool_decide (instruction_mode ∈ supported_modes cfg)).
  { intros k cfg Hin. unfold supports_mode. by rewrite (dict_get_elem k cfg). }
  unfold choose_agent, find_agent_for_mode.
  destruct (first_supporting instruction_mode (_agent_configs f)) as [t|] eqn:E.
  - apply first_supporting_Some in E as (before & cfg & after & Hitems & Hm & Hb).
    assert (Ht : t ∈ list_agent_types f).
    { unfold list_agent_types, dict_keys. rewrite Hitems, fmap_app. simpl.
      apply elem_of_app. right. left. }
    destruct (create_registered f t Hal Ht) as [[cls config] Hc].
    exists t, cls, config. split_and!; [done|done|]. left.
    exists (fst <$> before), (fst <$> after). split_and!.
    + unfold list_agent_types, dict_keys. by rewrite Hitems, fmap_app.
    + rewrite (Hsupp t cfg); [by apply bool_decide_eq_true|].
      rewrite Hitems. apply elem_of_app. right. left.
    + apply Forall_fmap. rewrite list.Forall_forall in Hb.
      apply list.Forall_forall. intros [k c] Hkc. simpl.
      rewrite (Hsupp k c); [by apply bool_decide_eq_false, (Hb (k, c))|].
      rewrite Hitems. apply elem_of_app. by left.
  - apply first_supporting_None in E.
    destruct (create_registered f _ Hal Hd) as [[cls config] Hc].
    exists (get_default_agent_type f), cls, config. split_and!; [done|done|].
    right. split; [done|]. intros t'. unfold supports_mode.
    destruct (dict_get t' (_agent_configs f)) as [cfg|] eqn:Eg; [|done].
    apply bool_decide_eq_false. rewrite list.Forall_forall in E.
    assert (Hin : (t', cfg) ∈ _agent_configs f).
    { clear -Eg. induction (_agent_configs f) as [|[k c] d IH]; simpl in *; [done|].
      destruct (decide (k = t')) as [->|_].
      - simplify_eq. left.
      - right. by apply IH. }
    apply (E (t', cfg) Hin).
Qed.

End FactoryProperties.

(** * The cleanup of the session cache *)

Section CleanupFacts.
Import ChatSession SessionCleanup.
Lemma unlink_all_subseteq (unlink_ok : pystr → bool) (ks : list pystr)
    (m : gmap pystr session_data) :
  unlink_all unlink_ok ks m ⊆ m.
Proof.
  unfold unlink_all. revert m. induction ks as [|k ks IH]; intros m; simpl; [done|].
  etrans; [apply IH|]. destruct (unlink_ok k); [apply delete_subseteq|done].
Qed.

Lemma unlink_all_lookup (ks : list pystr) (m : gmap pystr session_data)
    (k : pystr) (d : session_data) :
  unlink_all (λ _ : pystr, true) ks m !! k = Some d ↔ m !! k = Some d ∧ k ∉ ks.
Proof.
  unfold unlink_all. revert m. induction ks as [|k' ks IH]; intros m; simpl.
  - split; [intros ?; split; [done|apply not_elem_of_nil]|by intros [? _]].
  - rewrite IH, not_elem_of_cons. destruct (decide (k' = k)) as [->|Hne].
    + rewrite lookup_delete_eq. naive_solver.
    + rewrite lookup_delete_ne by done. naive_solver.
Qed.

Lemma scanned_elem (glob : gmap pystr session_data → list pystr)
    (m : gmap pystr session_data) (k : pystr) (t : nat) :
  (k, t) ∈ scanned glob m → ∃ d, m !! k = Some d ∧ t = updated_at d.
Proof.
  unfold scanned. intros (k' & _ & Hk)%list_elem_of_omap.
  destruct (m !! k') as [d|] eqn:E; [|done]. simpl in Hk. simplify_eq. eauto.
Qed.

Lemma scanned_complete (glob : gmap pystr session_data → list pystr)
    (m : gmap pystr session_data) (k : pystr) (d : session_data) :
  scan_sees_all glob m → m !! k = Some d → (k, updated_at d) ∈ scanned glob m.
Proof.
  intros Hall Hk. unfold scanned. apply list_elem_of_omap. exists k.
  split; [apply Hall; by eexists|]. by rewrite Hk.
Qed.

Lemma insert_asc_perm x l : insert_asc x l ≡ₚ x :: l.
Proof.
  induction l as [|y l IH]; simpl; [done|].
  destruct (decide _); [|done]. rewrite IH. apply Permutation_swap.
Qed.

Lemma sort_by_time_perm l : sort_by_time l ≡ₚ l.
Proof.
  induction l as [|x l IH]; simpl; [done|]. by rewrite insert_asc_perm, IH.
Qed.

Lemma insert_asc_sorted x l : oldest_first l → oldest_first (insert_asc x l).
Proof.
  induction l as [|y l IH]; simpl; [done|]. intros [Hy Hl].
  destruct (decide _) as [Hlt|Hge]; simpl.
  - split; [|by apply IH]. rewrite insert_asc_perm. constructor; [lia|done].
  - split; [|done]. constructor; [lia|].
    eapply list.Forall_impl; [exact Hy|]. simpl. intros z Hz. lia.
Qed.

Lemma sort_by_time_sorted l : oldest_first (sort_by_time l).
Proof. induction l as [|x l IH]; simpl; [done|]. by apply insert_asc_sorted. Qed.

Lemma elem_of_drop_list {A} (l : list A) n x : x ∈ drop n l → x ∈ l.
Proof. intros Hx. rewrite <- (take_drop n l). apply elem_of_app. by right. Qed.

Lemma elem_of_take_list {A} (l : list A) n x : x ∈ take n l → x ∈ l.
Proof. intros Hx. rewrite <- (take_drop n l). apply elem_of_app. by left. Qed.

Lemma oldest_first_split l n a b :
  oldest_first l → a ∈ take n l → b ∈ drop n l → a.2 ≤ b.2.
Proof.
  revert n. induction l as [|x l IH]; intros n Hl Ha Hb.
  - rewrite take_nil in Ha. by apply elem_of_nil in Ha.
  - destruct n as [|n]; simpl in *; [by apply elem_of_nil in Ha|].
    destruct Hl as [Hx Hl]. apply elem_of_cons in Ha as [->|Ha].
    + rewrite list.Forall_forall in Hx. apply Hx.
      by eapply elem_of_drop_list.
    + by eapply IH.
Qed.

(** A map all of whose keys are in a list is no larger than the list. *)
Lemma size_keys_le (m : gmap pystr session_data) (l : list pystr) :
  (∀ k, is_Some (m !! k) → k ∈ l) → size m ≤ length l.
Proof.
  revert m. induction l as [|x l IH]; intros m Hm.
  - assert (m = ∅) as ->; [|by rewrite map_size_empty].
    apply map_empty. intros k. destruct (m !! k) as [d|] eqn:E; [|done].
    destruct (not_elem_of_nil k). apply Hm. by eexists.
  - assert (Hdel : size (delete x m) ≤ length l).
    { apply IH. intros k [d Hk]. destruct (decide (x = k)) as [->|Hne].
      - by rewrite lookup_delete_eq in Hk.
      - rewrite lookup_delete_ne in Hk by done.
        assert (Hin : k ∈ x :: l) by (apply Hm; by eexists).
        apply elem_of_cons in Hin as [?|?]; [congruence|done]. }
    rewrite map_size_delete in Hdel. simpl.
    destruct (m !! x); unfold id in Hdel; simpl in *; lia.
Qed.

End CleanupFacts.

Section CleanupProperties.
Import ChatSession SessionCleanup.

(** The cleanup only deletes: whatever the order of the scan and whichever
    deletions fail, the cache after it is a part of the cache before.  The
    method is thus one of the cleanup policies the session store is stated
    for. *)
Theorem cleanup_only_deletes_files (day : nat)
    (glob : gmap pystr session_data → list pystr) (unlink_ok : pystr → bool) :
  (∀ now m, _cleanup_old_sessions day glob unlink_ok now m ⊆ m)
  ∧ ∃ policy : cleanup_policy,
      ∀ now m, policy now m = _cleanup_old_sessions day glob unlink_ok now m.
Proof.
  assert (Hsub : ∀ now m, _cleanup_old_sessions day glob unlink_ok now m ⊆ m).
  { intros now m. unfold _cleanup_old_sessions.
    destruct (decide _); [etrans|]; apply unlink_all_subseteq. }
  split; [done|].
  by exists {| cleanup_old_sessions := _cleanup_old_sessions day glob unlink_ok;
               cleanup_only_deletes := Hsub |}.
Qed.

(** What the cleanup keeps.  When the scan sees every file and every
    deletion goes through, no session older than 30 days is left, at most
    100 sessions are left, and a session that is not expired is evicted
    only for sessions that are at least as recent. *)
Theorem cleanup_keeps_newest (day : nat) (glob : gmap pystr session_data → list pystr)
    (now : nat) (m : gmap pystr session_data) :
  scan_sees_all glob m →
  let kept := _cleanup_old_sessions day glob (λ _, true) now m in
  (∀ k d, kept !! k = Some d → is_expired day now (updated_at d) = false)
  ∧ size kept ≤ max_total_sessions
  ∧ (∀ k d k' d',
       kept !! k = Some d → m !! k' = Some d' → kept !! k' = None →
       is_expired day now (updated_at d') = false →
       updated_at d' ≤ updated_at d).
Proof.
  intros Hall. simpl. unfold _cleanup_old_sessions.
  set (expired := filter (λ e, is_expired day now e.2 = true) (scanned glob m)).
  set (check := filter (λ e, is_expired day now e.2 = false) (scanned glob m)).
  assert (Hm1 : ∀ k d,
    unlink_all (λ _, true) expired.*1 m !! k = Some d
    ↔ m !! k = Some d ∧ is_expired day now (updated_at d) = false).
  { intros k d. rewrite unlink_all_lookup. split.
    - intros [Hk Hn]. split; [done|].
      destruct (is_expired day now (updated_at d)) eqn:E; [|done].
      destruct Hn. apply list_elem_of_fmap. exists (k, updated_at d).
      split; [done|]. apply list_elem_of_filter. split; [done|].
      by apply scanned_complete.
    - intros [Hk Hn]. split; [done|].
      intros ((k0 & t) & -> & [He Hs]%list_elem_of_filter)%list_elem_of_fmap.
      apply scanned_elem in Hs as (d0 & Hd0 & ->). simpl in *. congruence. }
  assert (Hcheck : ∀ k d, m !! k = Some d → is_expired day now (updated_at d) = false →
                          (k, updated_at d) ∈ check).
  { intros k d Hk He. apply list_elem_of_filter. split; [done|].
    by apply scanned_complete. }
  assert (Hcheck' : ∀ k t, (k, t) ∈ check → ∃ d, m !! k = Some d ∧ t = updated_at d).
  { intros k t [_ Hs]%list_elem_of_filter. by apply scanned_elem in Hs. }
  clearbody expired check.
  destruct (decide (max_total_sessions < length check)) as [Hmany|Hfew].
  - set (n := length check - max_total_sessions).
    pose proof (sort_by_time_perm check) as Hperm.
    pose proof (sort_by_time_sorted check) as Hsorted.
    set (sorted := sort_by_time check) in *. clearbody sorted.
    assert (Hkept : ∀ k d,
      unlink_all (λ _, true) (take n sorted).*1
        (unlink_all (λ _, true) expired.*1 m) !! k = Some d →
      m !! k = Some d ∧ is_expired day now (updated_at d) = false
      ∧ (k, updated_at d) ∈ drop n sorted).
    { intros k d [[Hk He]%Hm1 Hn]%unlink_all_lookup. split_and!; [done|done|].
      pose proof (Hcheck k d Hk He) as Hin. rewrite <- Hperm in Hin.
      rewrite <- (take_drop n sorted) in Hin.
      apply elem_of_app in Hin as [Hin|Hin]; [|done].
      destruct Hn. apply list_elem_of_fmap. by exists (k, updated_at d). }
    split_and!.
    + intros k d Hk. by destruct (Hkept k d Hk) as (_ & ? & _).
    + etrans; [apply (size_keys_le _ (drop n sorted).*1)|].
      * intros k [d Hk]. destruct (Hkept k d Hk) as (_ & _ & Hin).
        apply list_elem_of_fmap. by exists (k, updated_at d).
      * rewrite length_fmap, length_drop.
        apply Permutation_length in Hperm. unfold n. lia.
    + intros k d k' d' Hk Hk' Hgone He'.
      destruct (Hkept k d Hk) as (_ & _ & Hin).
      assert (Hin' : (k', updated_at d') ∈ take n sorted).
      { destruct (decide ((k', updated_at d') ∈ take n sorted)) as [|Hout]; [done|].
        exfalso.
        assert (Hstill : unlink_all (λ _, true) (take n sorted).*1
                           (unlink_all (λ _, true) expired.*1 m) !! k' = Some d').
        { apply unlink_all_lookup. split; [by apply Hm1|].
          intros ((k0 & t) & -> & Hin0)%list_elem_of_fmap. simpl in *.
          assert ((k0, t) ∈ check) as Hc.
          { rewrite <- Hperm. by eapply elem_of_take_list. }
          apply Hcheck' in Hc as (d0 & Hd0 & ->).
          assert (d0 = d') by congruence. by subst. }
        congruence. }
      apply (oldest_first_split sorted n _ _ Hsorted Hin' Hin).
  - split_and!.
    + intros k d Hk. by apply Hm1 in Hk as [_ ?].
    + etrans; [apply (size_keys_le _ check.*1)|].
      * intros k [d Hk]. apply Hm1 in Hk as [Hk He].
        apply list_elem_of_fmap. exists (k, updated_at d). split; [done|].
        by apply Hcheck.
      * rewrite length_fmap. lia.
    + intros k d k' d' Hk Hk' Hgone He'.
      assert (unlink_all (λ _, true) expired.*1 m !! k' = Some d') by by apply Hm1.
      congruence.
Qed.

End CleanupProperties.

(** A cache of two sessions, one of them older than 30 days. *)
Lemma cleanup_keeps_newest_witness :
  let old := ChatSession.SessionData (cps "1") (cps "old") 0 0 [] in
  let recent := ChatSession.SessionData (cps "2") (cps "recent") 40 40 [] in
  let m : gmap pystr ChatSession.session_data :=
    {[ cps "1" := old; cps "2" := recent ]} in
  let kept := SessionCleanup._cleanup_old_sessions 1 glob_by_key (λ _, true) 41 m in
  (∀ k d, kept !! k = Some d →
          SessionCleanup.is_expired 1 41 (ChatSession.updated_at d) = false)
  ∧ size kept ≤ SessionCleanup.max_total_sessions
  ∧ (∀ k d k' d',
       kept !! k = Some d → m !! k' = Some d' → kept !! k' = None →
       SessionCleanup.is_expired 1 41 (ChatSession.updated_at d') = false →
       ChatSession.updated_at d' ≤ ChatSession.updated_at d).
Proof.
  cbv zeta.
  apply (cleanup_keeps_newest 1 glob_by_key 41).
  intros k [d Hk]. unfold glob_by_key.
  apply list_elem_of_fmap. exists (k, d). split; [done|].
  by apply elem_of_map_to_list.
Defined.

(** * Updating a session that no store knows *)

Section FreshFileFacts.
Import ChatSession SessionCleanup.




End FreshFileFacts.

Section UpdateMissingSession.
Import ChatSession SessionCleanup.


End UpdateMissingSession.

